(** * Verification of the GPU compute-variable engine of pixijs-sdf-particles

    Shallow embedding of [src/utils/GPUComputeVariable.ts], of
    [core/sdf/generateSDFTex.ts] and of the force gate of the particle
    simulation shader, followed by the properties proved about them.

    Modelling conventions.
    - A [GPUComputeVariable] object is a record stored in a heap
      ([vars], a [gmap] from object identities to records); methods read
      and write the heap, so the aliasing between a variable, its
      dependencies and its dependents is the one of the TypeScript objects.
    - A PixiJS texture is a handle ([RenderTexture]) whose identity is
      [tex_id]; the contents of textures are not modelled, only which
      handles exist, which were destroyed and which were rendered to.
    - Methods run in the monad [M]: a state transformer over [World] whose
      result is either a value or a thrown [Error] message.  The state at
      the point of the throw is kept, as in JavaScript.
    - [renderLog] is ghost state: the sequence of calls made to
      [renderer.render], [source.update] and [texture.destroy].
    - JavaScript numbers that are texture sizes are integers ([Z]); shader
      sources are ASCII strings.
    - The code pastes the names of uniforms, samplers and variables into
      regular expressions.  The model matches them literally, which is what
      the expressions do for names of word characters ([wordName]); the
      theorems on the assembly of shaders take the names to be such.
    - The upload of [fillTexture] ([source.resource.data = data]) is an
      event of the log: the source of a texture is taken to carry the
      resource that the code writes to. *)

From Stdlib Require Import ZArith QArith Ascii String Reals Lra.
From stdpp Require Import gmap strings list pretty.

Local Open Scope Z_scope.

(** ** Strings *)

Definition nl : string := String "010"%char "".
Definition dquote : string := String "034"%char "".

(** [s] occurs in [t]. *)
Definition contains (s t : string) : Prop :=
  ∃ pre post, t = pre +:+ s +:+ post.

(** [\s] and [\w] of the JavaScript regular expressions, on ASCII. *)
Definition is_space (c : ascii) : bool := Ascii.is_space c.

Definition is_word (c : ascii) : bool :=
  let n := nat_of_ascii c in
  ((48 <=? n) && (n <=? 57) || (65 <=? n) && (n <=? 90)
   || (97 <=? n) && (n <=? 122) || (n =? 95))%nat.

(** Longest prefix of characters satisfying [p], and what follows it. *)
Fixpoint span (p : ascii → bool) (s : string) : string * string :=
  match s with
  | "" => ("", "")
  | String c r =>
      if p c then let '(a, b) := span p r in (String c a, b) else ("", s)
  end.

(** [strip_prefix p s = Some r] when [s = p +:+ r]. *)
Fixpoint strip_prefix (p s : string) : option string :=
  match p, s with
  | "", _ => Some s
  | String a p', String b s' =>
      if Ascii.eqb a b then strip_prefix p' s' else None
  | String _ _, "" => None
  end.

(** [[^\n]*\n]: the text up to the first line feed (not included) and the
    text after it. *)
Fixpoint split_line (s : string) : option (string * string) :=
  match s with
  | "" => None
  | String c r =>
      if Ascii.eqb c "010" then Some ("", r)
      else match split_line r with
           | Some (l, rest) => Some (String c l, rest)
           | None => None
           end
  end.

(** [[^\]]*\]]: drops everything up to and including the first "]". *)
Fixpoint skip_bracket (s : string) : option string :=
  match s with
  | "" => None
  | String c r => if Ascii.eqb c "]" then Some r else skip_bracket r
  end.

Fixpoint all_chars (p : ascii → bool) (s : string) : bool :=
  match s with
  | "" => true
  | String c r => p c && all_chars p r
  end.

Definition not_newline (c : ascii) : bool := negb (Ascii.eqb c "010").

Definition not_bracket (c : ascii) : bool := negb (Ascii.eqb c "]").

(** A name made of word characters, as a GLSL identifier is.  Pasted into
    the source of a regular expression such a name stands for itself. *)
Definition wordName (n : string) : Prop :=
  n ≠ "" ∧ all_chars is_word n = true.

(** The last character of [s] is a word character. *)
Fixpoint endsWithWord (s : string) : bool :=
  match s with
  | "" => false
  | String c "" => is_word c
  | String _ r => endsWithWord r
  end.

(** ** Shader assembly: the regular expressions *)

(** [shader.match(/^(\s*#version[^\n]*\n)/)]: the matched preamble
    ([match[1]], equal to [match[0]]) and [shader.slice(match[0].length)]. *)
Definition matchVersion (shader : string) : option (string * string) :=
  let '(ws, r) := span is_space shader in
  match strip_prefix "#version" r with
  | None => None
  | Some r' =>
      match split_line r' with
      | None => None
      | Some (l, rest) => Some (ws +:+ "#version" +:+ l +:+ nl, rest)
      end
  end.

Definition injectShaderCode (shader codeToInject : string) : string :=
  match matchVersion shader with
  | Some (preamble, rest) => preamble +:+ codeToInject +:+ rest
  | None => codeToInject +:+ shader
  end.

(** [(\[[^\]]*\])?]: what follows the array suffix when [s] starts with
    a bracket, [s] itself when it does not; [None] when the bracket is not
    closed (the expression then fails at the bracket, which is no
    semicolon). *)
Definition skip_array (s : string) : option string :=
  match s with
  | String c r => if Ascii.eqb c "[" then skip_bracket r else Some s
  | "" => Some s
  end.

(** One attempt of
    [uniform\s+\w+\s+NAME\s*(\[[^\]]*\])?\s*;]
    at the start of [s], for a [NAME] that is a [wordName]: the code pastes
    the name into the source of the expression, where a name of word
    characters is matched literally (a name with other characters would be
    read as a pattern, which this function does not do; the theorems about
    it take the names to be word names).  Every quantified class is
    followed by a character outside the class: the greedy match is the only
    one. *)
Definition matchDeclAt (uniformName s : string) : bool :=
  match strip_prefix "uniform" s with
  | None => false
  | Some r1 =>
      let '(ws1, r2) := span is_space r1 in
      let '(ty, r3) := span is_word r2 in
      let '(ws2, r4) := span is_space r3 in
      match ws1, ty, ws2 with
      | String _ _, String _ _, String _ _ =>
          match strip_prefix uniformName r4 with
          | None => false
          | Some r5 =>
              match skip_array (span is_space r5).2 with
              | None => false
              | Some r7 =>
                  match (span is_space r7).2 with
                  | String c _ => Ascii.eqb c ";"
                  | "" => false
                  end
              end
          end
      | _, _, _ => false
      end
  end.

(** The unanchored search; [prevWord] tells whether the previous character
    is a word character ([\b] before "uniform"). *)
Fixpoint searchDecl (uniformName : string) (prevWord : bool) (s : string) : bool :=
  (negb prevWord && matchDeclAt uniformName s)
  || match s with
     | "" => false
     | String c r => searchDecl uniformName (is_word c) r
     end.

Definition isUniformDeclared (shaderSource uniformName : string) : bool :=
  searchDecl uniformName false shaderSource.

(** ** Data model *)

(** The identity of a variable object. *)
Abbreviation VarId := nat (only parsing).

Record RenderTexture := mkTex { tex_id : nat; tex_width : Z; tex_height : Z }.

(** [a === b] on texture objects. *)
Definition same_texture (a b : RenderTexture) : bool :=
  bool_decide (tex_id a = tex_id b).

Inductive UniformValue :=
| UNum (x : Q)
| UVec (xs : list Q).

Record UniformData := mkUniform { u_value : UniformValue; u_type : string }.

(** A compiled shader: its fragment source and its texture bindings
    ([shader.resources], the [params] group apart). *)
Record Shader := mkShader {
  sh_fragment : string;
  sh_resources : gmap string nat
}.

Inductive Mesh := FullscreenMesh.

(** The fields of the class, under their names. *)
Record GPUComputeVariable := mkVar {
  name : string;
  width : Z;
  height : Z;
  fragmentShader : string;
  uniforms : list (string * UniformData);
  samplers : list (string * RenderTexture);
  pingTexture : option RenderTexture;
  pongTexture : option RenderTexture;
  currentIndex : Z;
  dependencies : list VarId;
  dependents : gset VarId;
  shader : option Shader;
  mesh : option Mesh;
  hasUniforms : bool;
  paramsUniforms : option (gmap string UniformValue);
  uniformKeys : list string;
  hasSamplers : bool;
  samplerKeys : list string;
  initialized : bool;
  destroyed : bool;
  texturesDestroyed : bool;
  needsPingPong : bool;
  externalPingTexture : bool
}.

(** Field updates ([this.f = a]). *)
Definition set_uniforms (a : list (string * UniformData)) (x : GPUComputeVariable)
  : GPUComputeVariable :=
  {| name := name x; width := width x; height := height x; fragmentShader :=
     fragmentShader x; uniforms := a; samplers := samplers x; pingTexture := pingTexture x;
     pongTexture := pongTexture x; currentIndex := currentIndex x; dependencies :=
     dependencies x; dependents := dependents x; shader := shader x; mesh := mesh x;
     hasUniforms := hasUniforms x; paramsUniforms := paramsUniforms x; uniformKeys :=
     uniformKeys x; hasSamplers := hasSamplers x; samplerKeys := samplerKeys x; initialized
     := initialized x; destroyed := destroyed x; texturesDestroyed := texturesDestroyed x;
     needsPingPong := needsPingPong x; externalPingTexture := externalPingTexture x |}.

Definition set_pingTexture (a : option RenderTexture) (x : GPUComputeVariable)
  : GPUComputeVariable :=
  {| name := name x; width := width x; height := height x; fragmentShader :=
     fragmentShader x; uniforms := uniforms x; samplers := samplers x; pingTexture := a;
     pongTexture := pongTexture x; currentIndex := currentIndex x; dependencies :=
     dependencies x; dependents := dependents x; shader := shader x; mesh := mesh x;
     hasUniforms := hasUniforms x; paramsUniforms := paramsUniforms x; uniformKeys :=
     uniformKeys x; hasSamplers := hasSamplers x; samplerKeys := samplerKeys x; initialized
     := initialized x; destroyed := destroyed x; texturesDestroyed := texturesDestroyed x;
     needsPingPong := needsPingPong x; externalPingTexture := externalPingTexture x |}.

Definition set_pongTexture (a : option RenderTexture) (x : GPUComputeVariable)
  : GPUComputeVariable :=
  {| name := name x; width := width x; height := height x; fragmentShader :=
     fragmentShader x; uniforms := uniforms x; samplers := samplers x; pingTexture :=
     pingTexture x; pongTexture := a; currentIndex := currentIndex x; dependencies :=
     dependencies x; dependents := dependents x; shader := shader x; mesh := mesh x;
     hasUniforms := hasUniforms x; paramsUniforms := paramsUniforms x; uniformKeys :=
     uniformKeys x; hasSamplers := hasSamplers x; samplerKeys := samplerKeys x; initialized
     := initialized x; destroyed := destroyed x; texturesDestroyed := texturesDestroyed x;
     needsPingPong := needsPingPong x; externalPingTexture := externalPingTexture x |}.

Definition set_currentIndex (a : Z) (x : GPUComputeVariable)
  : GPUComputeVariable :=
  {| name := name x; width := width x; height := height x; fragmentShader :=
     fragmentShader x; uniforms := uniforms x; samplers := samplers x; pingTexture :=
     pingTexture x; pongTexture := pongTexture x; currentIndex := a; dependencies :=
     dependencies x; dependents := dependents x; shader := shader x; mesh := mesh x;
     hasUniforms := hasUniforms x; paramsUniforms := paramsUniforms x; uniformKeys :=
     uniformKeys x; hasSamplers := hasSamplers x; samplerKeys := samplerKeys x; initialized
     := initialized x; destroyed := destroyed x; texturesDestroyed := texturesDestroyed x;
     needsPingPong := needsPingPong x; externalPingTexture := externalPingTexture x |}.

Definition set_dependencies (a : list VarId) (x : GPUComputeVariable)
  : GPUComputeVariable :=
  {| name := name x; width := width x; height := height x; fragmentShader :=
     fragmentShader x; uniforms := uniforms x; samplers := samplers x; pingTexture :=
     pingTexture x; pongTexture := pongTexture x; currentIndex := currentIndex x;
     dependencies := a; dependents := dependents x; shader := shader x; mesh := mesh x;
     hasUniforms := hasUniforms x; paramsUniforms := paramsUniforms x; uniformKeys :=
     uniformKeys x; hasSamplers := hasSamplers x; samplerKeys := samplerKeys x; initialized
     := initialized x; destroyed := destroyed x; texturesDestroyed := texturesDestroyed x;
     needsPingPong := needsPingPong x; externalPingTexture := externalPingTexture x |}.

Definition set_dependents (a : gset VarId) (x : GPUComputeVariable)
  : GPUComputeVariable :=
  {| name := name x; width := width x; height := height x; fragmentShader :=
     fragmentShader x; uniforms := uniforms x; samplers := samplers x; pingTexture :=
     pingTexture x; pongTexture := pongTexture x; currentIndex := currentIndex x;
     dependencies := dependencies x; dependents := a; shader := shader x; mesh := mesh x;
     hasUniforms := hasUniforms x; paramsUniforms := paramsUniforms x; uniformKeys :=
     uniformKeys x; hasSamplers := hasSamplers x; samplerKeys := samplerKeys x; initialized
     := initialized x; destroyed := destroyed x; texturesDestroyed := texturesDestroyed x;
     needsPingPong := needsPingPong x; externalPingTexture := externalPingTexture x |}.

Definition set_shader (a : option Shader) (x : GPUComputeVariable)
  : GPUComputeVariable :=
  {| name := name x; width := width x; height := height x; fragmentShader :=
     fragmentShader x; uniforms := uniforms x; samplers := samplers x; pingTexture :=
     pingTexture x; pongTexture := pongTexture x; currentIndex := currentIndex x;
     dependencies := dependencies x; dependents := dependents x; shader := a; mesh := mesh x;
     hasUniforms := hasUniforms x; paramsUniforms := paramsUniforms x; uniformKeys :=
     uniformKeys x; hasSamplers := hasSamplers x; samplerKeys := samplerKeys x; initialized
     := initialized x; destroyed := destroyed x; texturesDestroyed := texturesDestroyed x;
     needsPingPong := needsPingPong x; externalPingTexture := externalPingTexture x |}.

Definition set_mesh (a : option Mesh) (x : GPUComputeVariable)
  : GPUComputeVariable :=
  {| name := name x; width := width x; height := height x; fragmentShader :=
     fragmentShader x; uniforms := uniforms x; samplers := samplers x; pingTexture :=
     pingTexture x; pongTexture := pongTexture x; currentIndex := currentIndex x;
     dependencies := dependencies x; dependents := dependents x; shader := shader x; mesh :=
     a; hasUniforms := hasUniforms x; paramsUniforms := paramsUniforms x; uniformKeys :=
     uniformKeys x; hasSamplers := hasSamplers x; samplerKeys := samplerKeys x; initialized
     := initialized x; destroyed := destroyed x; texturesDestroyed := texturesDestroyed x;
     needsPingPong := needsPingPong x; externalPingTexture := externalPingTexture x |}.

Definition set_paramsUniforms (a : option (gmap string UniformValue)) (x : GPUComputeVariable)
  : GPUComputeVariable :=
  {| name := name x; width := width x; height := height x; fragmentShader :=
     fragmentShader x; uniforms := uniforms x; samplers := samplers x; pingTexture :=
     pingTexture x; pongTexture := pongTexture x; currentIndex := currentIndex x;
     dependencies := dependencies x; dependents := dependents x; shader := shader x; mesh :=
     mesh x; hasUniforms := hasUniforms x; paramsUniforms := a; uniformKeys := uniformKeys x;
     hasSamplers := hasSamplers x; samplerKeys := samplerKeys x; initialized := initialized
     x; destroyed := destroyed x; texturesDestroyed := texturesDestroyed x; needsPingPong :=
     needsPingPong x; externalPingTexture := externalPingTexture x |}.

Definition set_initialized (a : bool) (x : GPUComputeVariable)
  : GPUComputeVariable :=
  {| name := name x; width := width x; height := height x; fragmentShader :=
     fragmentShader x; uniforms := uniforms x; samplers := samplers x; pingTexture :=
     pingTexture x; pongTexture := pongTexture x; currentIndex := currentIndex x;
     dependencies := dependencies x; dependents := dependents x; shader := shader x; mesh :=
     mesh x; hasUniforms := hasUniforms x; paramsUniforms := paramsUniforms x; uniformKeys :=
     uniformKeys x; hasSamplers := hasSamplers x; samplerKeys := samplerKeys x; initialized
     := a; destroyed := destroyed x; texturesDestroyed := texturesDestroyed x; needsPingPong
     := needsPingPong x; externalPingTexture := externalPingTexture x |}.

Definition set_destroyed (a : bool) (x : GPUComputeVariable)
  : GPUComputeVariable :=
  {| name := name x; width := width x; height := height x; fragmentShader :=
     fragmentShader x; uniforms := uniforms x; samplers := samplers x; pingTexture :=
     pingTexture x; pongTexture := pongTexture x; currentIndex := currentIndex x;
     dependencies := dependencies x; dependents := dependents x; shader := shader x; mesh :=
     mesh x; hasUniforms := hasUniforms x; paramsUniforms := paramsUniforms x; uniformKeys :=
     uniformKeys x; hasSamplers := hasSamplers x; samplerKeys := samplerKeys x; initialized
     := initialized x; destroyed := a; texturesDestroyed := texturesDestroyed x;
     needsPingPong := needsPingPong x; externalPingTexture := externalPingTexture x |}.

Definition set_texturesDestroyed (a : bool) (x : GPUComputeVariable)
  : GPUComputeVariable :=
  {| name := name x; width := width x; height := height x; fragmentShader :=
     fragmentShader x; uniforms := uniforms x; samplers := samplers x; pingTexture :=
     pingTexture x; pongTexture := pongTexture x; currentIndex := currentIndex x;
     dependencies := dependencies x; dependents := dependents x; shader := shader x; mesh :=
     mesh x; hasUniforms := hasUniforms x; paramsUniforms := paramsUniforms x; uniformKeys :=
     uniformKeys x; hasSamplers := hasSamplers x; samplerKeys := samplerKeys x; initialized
     := initialized x; destroyed := destroyed x; texturesDestroyed := a; needsPingPong :=
     needsPingPong x; externalPingTexture := externalPingTexture x |}.

Definition set_needsPingPong (a : bool) (x : GPUComputeVariable)
  : GPUComputeVariable :=
  {| name := name x; width := width x; height := height x; fragmentShader :=
     fragmentShader x; uniforms := uniforms x; samplers := samplers x; pingTexture :=
     pingTexture x; pongTexture := pongTexture x; currentIndex := currentIndex x;
     dependencies := dependencies x; dependents := dependents x; shader := shader x; mesh :=
     mesh x; hasUniforms := hasUniforms x; paramsUniforms := paramsUniforms x; uniformKeys :=
     uniformKeys x; hasSamplers := hasSamplers x; samplerKeys := samplerKeys x; initialized
     := initialized x; destroyed := destroyed x; texturesDestroyed := texturesDestroyed x;
     needsPingPong := a; externalPingTexture := externalPingTexture x |}.

Definition set_externalPingTexture (a : bool) (x : GPUComputeVariable)
  : GPUComputeVariable :=
  {| name := name x; width := width x; height := height x; fragmentShader :=
     fragmentShader x; uniforms := uniforms x; samplers := samplers x; pingTexture :=
     pingTexture x; pongTexture := pongTexture x; currentIndex := currentIndex x;
     dependencies := dependencies x; dependents := dependents x; shader := shader x; mesh :=
     mesh x; hasUniforms := hasUniforms x; paramsUniforms := paramsUniforms x; uniformKeys :=
     uniformKeys x; hasSamplers := hasSamplers x; samplerKeys := samplerKeys x; initialized
     := initialized x; destroyed := destroyed x; texturesDestroyed := texturesDestroyed x;
     needsPingPong := needsPingPong x; externalPingTexture := a |}.

(** ** The world: heap of variables, texture allocator, renderer *)

(** Ghost trace: the calls made to the renderer and to texture sources, in
    order ([EvUpload]: [source.update()] after setting the data; [EvCopy]:
    the render of [copyTexture]; [EvPass]: the render of [compute], with the
    bindings the shader sees), and the additions to the [visited] set of
    [computeChain]. *)
Inductive Event :=
| EvUpload (target : RenderTexture) (len : nat)
| EvCopy (source : nat) (target : RenderTexture)
| EvPass (v : VarId) (target : option RenderTexture)
         (resources : gmap string nat) (params : gmap string UniformValue)
| EvVisited (v : VarId).

Record World := mkWorld {
  vars : gmap VarId GPUComputeVariable;
  nextVar : nat;
  nextTex : nat;
  destroyedTex : gset nat;
  trace : list Event
}.

Definition set_vars (m : gmap VarId GPUComputeVariable) (s : World) : World :=
  {| vars := m; nextVar := nextVar s; nextTex := nextTex s;
     destroyedTex := destroyedTex s; trace := trace s |}.

Definition set_nextVar (n : nat) (s : World) : World :=
  {| vars := vars s; nextVar := n; nextTex := nextTex s;
     destroyedTex := destroyedTex s; trace := trace s |}.

Definition set_nextTex (n : nat) (s : World) : World :=
  {| vars := vars s; nextVar := nextVar s; nextTex := n;
     destroyedTex := destroyedTex s; trace := trace s |}.

Definition set_destroyedTex (d : gset nat) (s : World) : World :=
  {| vars := vars s; nextVar := nextVar s; nextTex := nextTex s;
     destroyedTex := d; trace := trace s |}.

Definition set_trace (l : list Event) (s : World) : World :=
  {| vars := vars s; nextVar := nextVar s; nextTex := nextTex s;
     destroyedTex := destroyedTex s; trace := l |}.

Definition emptyWorld : World :=
  {| vars := ∅; nextVar := 0; nextTex := 0; destroyedTex := ∅; trace := [] |}.

(** ** The monad of methods *)

Inductive result (A : Type) :=
| Ok (a : A)
| Throw (msg : string).
Arguments Ok {A} a.
Arguments Throw {A} msg.

Definition M (A : Type) : Type := World → result A * World.

Global Instance M_ret : MRet M := λ A a s, (Ok a, s).

Global Instance M_bind : MBind M := λ A B k m s,
  match m s with
  | (Ok a, s') => k a s'
  | (Throw e, s') => (Throw e, s')
  end.

Definition throw {A} (msg : string) : M A := λ s, (Throw msg, s).

(** Reading a property of [undefined] or [null]. *)
Definition typeError : string := "TypeError: Cannot read properties of undefined".

Definition getVar (v : VarId) : M GPUComputeVariable := λ s,
  match vars s !! v with
  | Some x => (Ok x, s)
  | None => (Throw "ReferenceError", s)
  end.

Definition modifyVar (v : VarId) (f : GPUComputeVariable → GPUComputeVariable)
  : M unit := λ s, (Ok tt, set_vars (alter f v (vars s)) s).

Definition logEvent (e : Event) : M unit := λ s,
  (Ok tt, set_trace (trace s ++ [e]) s).

Fixpoint forM_ {A} (l : list A) (f : A → M unit) : M unit :=
  match l with
  | [] => mret tt
  | a :: l' => f a;; forM_ l' f
  end.

(** The final state and the outcome of running a method. *)
Definition exec {A} (m : M A) (s : World) : World := (m s).2.
Definition outcome {A} (m : M A) (s : World) : result A := (m s).1.

Definition returns {A} (m : M A) (s : World) : Prop :=
  ∃ a, outcome m s = Ok a.

Definition throws {A} (m : M A) (s : World) (msg : string) : Prop :=
  outcome m s = Throw msg.

(** ** Textures *)

(** [RenderTexture.create], as called by the application. *)
Definition RenderTexture_create (w h : Z) : M RenderTexture := λ s,
  (Ok (mkTex (nextTex s) w h), set_nextTex (S (nextTex s)) s).

(** [texture.destroy(true)]. *)
Definition texture_destroy (t : RenderTexture) : M unit := λ s,
  (Ok tt, set_destroyedTex ({[tex_id t]} ∪ destroyedTex s) s).

Definition createTexture (this : GPUComputeVariable) : M RenderTexture :=
  RenderTexture_create (width this) (height this).

Definition copyTexture (source : nat) (target : RenderTexture) : M unit :=
  logEvent (EvCopy source target).

Definition getCurrentTexture (this : GPUComputeVariable) : option RenderTexture :=
  if bool_decide (currentIndex this = 0) then pingTexture this else pongTexture this.

Definition getAlternateTexture (this : GPUComputeVariable) : option RenderTexture :=
  if bool_decide (currentIndex this = 0) then pongTexture this else pingTexture this.

Definition ensureTextures (v : VarId) : M unit :=
  this ← getVar v;
  match pingTexture this with
  | None => t ← createTexture this; modifyVar v (set_pingTexture (Some t))
  | Some _ => mret tt
  end;;
  this ← getVar v;
  match pongTexture this with
  | None =>
      if needsPingPong this
      then t ← createTexture this; modifyVar v (set_pongTexture (Some t))
      else modifyVar v (set_pongTexture (pingTexture this))
  | Some _ => mret tt
  end.

(** ** Seeding *)

Definition Float32Array := list Q.

Definition errPrefix (this : GPUComputeVariable) : string :=
  "GPUComputeVariable " +:+ dquote +:+ name this +:+ dquote +:+ ": ".

Definition fillTexture (v : VarId) (data : Float32Array) : M unit :=
  this ← getVar v;
  if bool_decide (Z.of_nat (length data) ≠ width this * height this * 4) then
    throw (errPrefix this +:+ "Data length (" +:+ pretty (length data)
           +:+ ") does not match expected size ("
           +:+ pretty (width this * height this * 4) +:+ ")")
  else if initialized this then
    throw (errPrefix this +:+ "Cannot fill texture after init().")
  else
    ensureTextures v;;
    this ← getVar v;
    match pingTexture this with
    | None => throw typeError
    | Some ping =>
        logEvent (EvUpload ping (length data));;
        if needsPingPong this then
          match pongTexture this with
          | None => throw typeError
          | Some pong => copyTexture (tex_id ping) pong
          end
        else mret tt
    end.

Definition fillTextureFrom (v : VarId) (source : RenderTexture) : M unit :=
  this ← getVar v;
  if initialized this then
    throw (errPrefix this +:+ "Cannot fill texture after init().")
  else
    ensureTextures v;;
    this ← getVar v;
    match pingTexture this with
    | None => throw typeError
    | Some ping =>
        copyTexture (tex_id source) ping;;
        if needsPingPong this then
          match pongTexture this with
          | None => throw typeError
          | Some pong => copyTexture (tex_id ping) pong
          end
        else mret tt
    end.

Definition setInitialTexture (v : VarId) (texture : RenderTexture) : M unit :=
  this ← getVar v;
  if initialized this then
    throw (errPrefix this +:+ "Cannot set initial texture after init().")
  else if bool_decide (tex_width texture ≠ width this)
          || bool_decide (tex_height texture ≠ height this) then
    throw (errPrefix this +:+ "Initial texture dimensions ("
           +:+ pretty (tex_width texture) +:+ "x" +:+ pretty (tex_height texture)
           +:+ ") do not match variable dimensions ("
           +:+ pretty (width this) +:+ "x" +:+ pretty (height this) +:+ ")")
  else
    modifyVar v (set_pingTexture (Some texture));;
    modifyVar v (set_externalPingTexture true).

(** ** Dependencies *)

Definition setDependencies (v : VarId) (deps : list VarId) : M unit :=
  this ← getVar v;
  forM_ (dependencies this) (λ dep,
    modifyVar dep (λ d, set_dependents (dependents d ∖ {[v]}) d));;
  modifyVar v (set_dependencies deps);;
  forM_ deps (λ dep,
    modifyVar dep (λ d, set_dependents ({[v]} ∪ dependents d) d)).

(** ** Shader assembly *)

(** [String(f)] for a function [f] of the JavaScript library. *)
Definition nativeFunction (f : string) : string :=
  "function " +:+ f +:+ "() { [native code] }".

(** The members that an object literal inherits from [Object.prototype],
    each with the text that a template string gives it.  [None]: the
    lookup is [undefined]. *)
Definition objectPrototype (key : string) : option string :=
  if String.eqb key "constructor" then Some (nativeFunction "Object")
  else if String.eqb key "__proto__" then Some "[object Object]"
  else if existsb (String.eqb key)
            ["hasOwnProperty"; "isPrototypeOf"; "propertyIsEnumerable";
             "toLocaleString"; "toString"; "valueOf";
             "__defineGetter__"; "__defineSetter__";
             "__lookupGetter__"; "__lookupSetter__"]
  then Some (nativeFunction key)
  else None.

(** [PIXI_TO_GLSL_TYPE[type]], read as [createShader] reads it: [None] when
    the lookup is falsy, and otherwise the text that the value has in the
    declaration.  The table is an object literal, so a type named like a
    member of [Object.prototype] finds that member. *)
Definition PIXI_TO_GLSL_TYPE (ty : string) : option string :=
  if String.eqb ty "f32" then Some "float"
  else if String.eqb ty "i32" then Some "int"
  else if String.eqb ty "vec2<f32>" then Some "vec2"
  else if String.eqb ty "vec3<f32>" then Some "vec3"
  else if String.eqb ty "vec4<f32>" then Some "vec4"
  else if String.eqb ty "vec2<i32>" then Some "ivec2"
  else if String.eqb ty "vec3<i32>" then Some "ivec3"
  else if String.eqb ty "vec4<i32>" then Some "ivec4"
  else if String.eqb ty "mat2x2<f32>" then Some "mat2"
  else if String.eqb ty "mat3x3<f32>" then Some "mat3"
  else if String.eqb ty "mat4x4<f32>" then Some "mat4"
  else if String.eqb ty "mat3x2<f32>" then Some "mat3x2"
  else if String.eqb ty "mat4x2<f32>" then Some "mat4x2"
  else if String.eqb ty "mat2x3<f32>" then Some "mat2x3"
  else if String.eqb ty "mat4x3<f32>" then Some "mat4x3"
  else if String.eqb ty "mat2x4<f32>" then Some "mat2x4"
  else if String.eqb ty "mat3x4<f32>" then Some "mat3x4"
  else objectPrototype ty.

(** [n.toFixed(1)] for an integer [n] of magnitude below [10^21], from
    where on [toFixed] answers in exponent notation. *)
Definition toFixed1 (n : Z) : string := pretty n +:+ ".0".

Definition resolutionDefine (this : GPUComputeVariable) : string :=
  "#define resolution vec2(" +:+ toFixed1 (width this) +:+ ", "
  +:+ toFixed1 (height this) +:+ ")" +:+ nl.

Definition samplerDecl (n : string) : string :=
  "uniform sampler2D " +:+ n +:+ ";" +:+ nl.

Definition uniformDecl (glslType key : string) : string :=
  "uniform " +:+ glslType +:+ " " +:+ key +:+ ";" +:+ nl.

(** The two loops that extend [samplerDeclarations]. *)
Fixpoint declareSamplers (src : string) (names : list string) (acc : string)
  : string :=
  match names with
  | [] => acc
  | n :: rest =>
      if isUniformDeclared src n then declareSamplers src rest acc
      else declareSamplers src rest (acc +:+ samplerDecl n)
  end.

(** The loop that extends [uniformDeclarations]. *)
Fixpoint declareUniforms (this : GPUComputeVariable)
    (us : list (string * UniformData)) (acc : string) : result string :=
  match us with
  | [] => Ok acc
  | (key, uniformData) :: rest =>
      if isUniformDeclared (fragmentShader this) key
      then declareUniforms this rest acc
      else match PIXI_TO_GLSL_TYPE (u_type uniformData) with
           | None =>
               Throw (errPrefix this +:+ "Unknown uniform type " +:+ dquote
                      +:+ u_type uniformData +:+ dquote +:+ " for " +:+ dquote
                      +:+ key +:+ dquote)
           | Some glslType =>
               declareUniforms this rest (acc +:+ uniformDecl glslType key)
           end
  end.

(** The fragment source handed to [Shader.from]; [depNames] are the names
    of the dependencies, in order. *)
Definition fullFragmentShader (this : GPUComputeVariable) (depNames : list string)
  : result string :=
  let samplerDeclarations :=
    declareSamplers (fragmentShader this) (samplers this).*1
      (declareSamplers (fragmentShader this) depNames "") in
  match declareUniforms this (uniforms this) "" with
  | Throw e => Throw e
  | Ok uniformDeclarations =>
      let codeToInject :=
        resolutionDefine this +:+ samplerDeclarations +:+ uniformDeclarations in
      Ok (injectShaderCode (fragmentShader this) codeToInject)
  end.

(** [dep.name] for each dependency. *)
Fixpoint depNames (deps : list VarId) : M (list string) :=
  match deps with
  | [] => mret []
  | d :: rest => x ← getVar d; ns ← depNames rest; mret (name x :: ns)
  end.

(** [resources[dep.name] = dep.getCurrentTexture().source] for each
    dependency. *)
Fixpoint bindDependencies (deps : list VarId) (res : gmap string nat)
  : M (gmap string nat) :=
  match deps with
  | [] => mret res
  | d :: rest =>
      dep ← getVar d;
      match getCurrentTexture dep with
      | None => throw typeError
      | Some t => bindDependencies rest (<[name dep := tex_id t]> res)
      end
  end.

(** [resources[name] = this.samplers[name].source] for each static sampler. *)
Definition bindSamplers (samplers : list (string * RenderTexture))
    (res : gmap string nat) : gmap string nat :=
  foldl (λ res p, <[p.1 := tex_id p.2]> res) res samplers.

Definition createShader (v : VarId) : M unit :=
  this ← getVar v;
  names ← depNames (dependencies this);
  match fullFragmentShader this names with
  | Throw e => throw e
  | Ok fragment =>
      resources ← bindDependencies (dependencies this) ∅;
      modifyVar v (set_shader
                     (Some (mkShader fragment (bindSamplers (samplers this) resources))));;
      modifyVar v (set_mesh (Some FullscreenMesh));;
      if hasUniforms this then
        modifyVar v (set_paramsUniforms
                       (Some (list_to_map ((λ p, (p.1, u_value p.2)) <$> uniforms this))))
      else mret tt
  end.

(** ** Initialisation and the compute pass *)

Definition init (v : VarId) : M unit :=
  this ← getVar v;
  if initialized this then
    throw (errPrefix this +:+ "Already initialized.")
  else
    modifyVar v (λ x, set_needsPingPong (bool_decide (v ∈ dependencies x)) x);;
    ensureTextures v;;
    createShader v;;
    modifyVar v (set_initialized true).

(** [shader.resources[key] = source] on the shader object of [v]. *)
Definition setResource (v : VarId) (key : string) (source : nat) : M unit :=
  modifyVar v (λ x,
    set_shader
      ((λ sh, mkShader (sh_fragment sh) (<[key := source]> (sh_resources sh)))
         <$> shader x) x).

(** [paramsUniforms[key] = value] on the uniform group of [v]. *)
Definition setParam (v : VarId) (key : string) (value : UniformValue) : M unit :=
  modifyVar v (λ x, set_paramsUniforms (<[key := value]> <$> paramsUniforms x) x).

Definition lookupKey {A} (key : string) (l : list (string * A)) : option A :=
  snd <$> (snd <$> list_find (λ p, p.1 = key) l).

(** "Update dependency texture sources to current textures". *)
Definition updateDependencies (v : VarId) (deps : list VarId) : M unit :=
  forM_ deps (λ d,
    dep ← getVar d;
    match getCurrentTexture dep with
    | None => throw typeError
    | Some t => setResource v (name dep) (tex_id t)
    end).

(** "Update static samplers if variable has them". *)
Definition updateSamplers (v : VarId) (this : GPUComputeVariable) : M unit :=
  if hasSamplers this then
    forM_ (samplerKeys this) (λ key,
      match lookupKey key (samplers this) with
      | None => throw typeError
      | Some t => setResource v key (tex_id t)
      end)
  else mret tt.

(** "Update custom uniforms if variable has them". *)
Definition updateUniforms (v : VarId) (this : GPUComputeVariable) : M unit :=
  if hasUniforms this then
    match paramsUniforms this with
    | None => throw typeError
    | Some _ =>
        forM_ (uniformKeys this) (λ key,
          match lookupKey key (uniforms this) with
          | None => throw typeError
          | Some d => setParam v key (u_value d)
          end)
    end
  else mret tt.

(** The render of the pass and the swap of the buffers. *)
Definition renderPass (v : VarId) : M unit :=
  this ← getVar v;
  logEvent (EvPass v (getAlternateTexture this)
              (from_option sh_resources ∅ (shader this))
              (default ∅ (paramsUniforms this)));;
  modifyVar v (λ x, set_currentIndex (1 - currentIndex x) x).

Definition compute (v : VarId) : M unit :=
  this ← getVar v;
  (if initialized this then mret tt else init v);;
  this ← getVar v;
  match shader this with
  | None => throw typeError
  | Some _ =>
      updateDependencies v (dependencies this);;
      updateSamplers v this;;
      updateUniforms v this;;
      renderPass v
  end.

(** [this.uniforms[key].value = value], as written by the callers. *)
Definition setUniform (v : VarId) (key : string) (value : UniformValue) : M unit :=
  modifyVar v (λ x,
    set_uniforms
      ((λ p, if String.eqb p.1 key then (p.1, mkUniform value (u_type p.2)) else p)
         <$> uniforms x) x).

(** ** Destruction *)

Definition destroyTextures (v : VarId) : M unit :=
  this ← getVar v;
  if texturesDestroyed this then mret tt
  else
    (if needsPingPong this then
       let alternateTexture := getAlternateTexture this in
       let isExternalTexture :=
         match alternateTexture, pingTexture this with
         | Some a, Some p => same_texture a p
         | None, None => true
         | _, _ => false
         end && externalPingTexture this in
       if isExternalTexture then mret tt
       else match alternateTexture with
            | None => throw typeError
            | Some a => texture_destroy a
            end
     else mret tt);;
    modifyVar v (set_texturesDestroyed true).

(** The body of the loop of [destroy] over the dependencies. *)
Definition releaseDependency (v d : VarId) : M unit :=
  modifyVar d (λ x, set_dependents (dependents x ∖ {[v]}) x);;
  dep ← getVar d;
  if destroyed dep && negb (texturesDestroyed dep)
     && bool_decide (size (dependents dep) = 0%nat)
  then destroyTextures d else mret tt.

Definition destroy (v : VarId) : M unit :=
  this ← getVar v;
  if destroyed this then mret tt
  else
    modifyVar v (set_destroyed true);;
    modifyVar v (set_mesh None);;
    modifyVar v (set_shader None);;
    forM_ (dependencies this) (releaseDependency v);;
    this ← getVar v;
    (if bool_decide (size (dependents this) = 0%nat)
     then destroyTextures v else mret tt);;
    modifyVar v (set_dependencies []);;
    modifyVar v (set_initialized false).

Definition computeOnce (v : VarId) : M unit :=
  init v;; compute v;; destroy v.

(** ** Chained evaluation *)

(** The loop over [this.dependencies] of [computeChain]; [rec] is the
    recursive call. [None] stands for "out of fuel". *)
Fixpoint chainDeps (rec : VarId → gset VarId → M (option (gset VarId)))
    (this : VarId) (deps : list VarId) (visited : gset VarId)
  : M (option (gset VarId)) :=
  match deps with
  | [] => mret (Some visited)
  | dep :: rest =>
      if bool_decide (dep = this) then chainDeps rec this rest visited
      else
        r ← rec dep visited;
        match r with
        | None => mret None
        | Some visited => chainDeps rec this rest visited
        end
  end.

(** [computeChain(visited)]; the set [visited] is returned as updated. *)
Fixpoint computeChain (fuel : nat) (v : VarId) (visited : gset VarId)
  : M (option (gset VarId)) :=
  match fuel with
  | O => mret None
  | S fuel =>
      if bool_decide (v ∈ visited) then mret (Some visited)
      else
        logEvent (EvVisited v);;
        this ← getVar v;
        r ← chainDeps (computeChain fuel) v (dependencies this) ({[v]} ∪ visited);
        match r with
        | None => mret None
        | Some visited => compute v;; mret (Some visited)
        end
  end.

(** ** Construction *)

Record GPUComputeVariableOptions := mkOptions {
  o_width : Z;
  o_height : Z;
  o_name : string;
  o_fragmentShader : string;
  o_uniforms : option (list (string * UniformData));
  o_samplers : option (list (string * RenderTexture));
  o_initialTexture : option RenderTexture
}.

Definition newVariable (o : GPUComputeVariableOptions) : GPUComputeVariable :=
  {| name := o_name o; width := o_width o; height := o_height o;
     fragmentShader := o_fragmentShader o;
     uniforms := default [] (o_uniforms o);
     samplers := default [] (o_samplers o);
     pingTexture := None; pongTexture := None; currentIndex := 0;
     dependencies := []; dependents := ∅; shader := None; mesh := None;
     hasUniforms := bool_decide (0 < length (default [] (o_uniforms o)))%nat;
     paramsUniforms := None;
     uniformKeys := (default [] (o_uniforms o)).*1;
     hasSamplers := bool_decide (0 < length (default [] (o_samplers o)))%nat;
     samplerKeys := (default [] (o_samplers o)).*1;
     initialized := false; destroyed := false; texturesDestroyed := false;
     needsPingPong := true; externalPingTexture := false |}.

(** [new GPUComputeVariable(options)]: allocates the object and returns its
    identity. *)
Definition new_GPUComputeVariable (o : GPUComputeVariableOptions) : M VarId :=
  λ s,
    let v := nextVar s in
    let s := set_nextVar (S v) (set_vars (<[v := newVariable o]> (vars s)) s) in
    match o_initialTexture o with
    | Some t => (setInitialTexture v t;; mret v) s
    | None => (Ok v, s)
    end.

(** ** The jump-flooding distance-field generator *)

Definition jfaFragment : string :=
"

#define MAX_DIST 1e10

in vec2 vUV;
out vec4 finalColor;

void main() {
    bool first = uFirst > 0.5;
    
    if (first) {
        vec4 currentValue = texture(uTex, vUV);
        if (currentValue.r >= 0.5) {
            finalColor = vec4(vUV / uTexelSize, 1.0, 1.0);
        } else {
            finalColor = vec4(0.0, 0.0, 0.0, 1.0);
        }
        return;
    } else {
        finalColor = vec4(0.0, 1.0, 0.0, 1.0);
    }
    
    vec2 bestSeed = vec2(0.0);
    float bestDist = MAX_DIST;
    
    for (int dy = -1; dy <= 1; dy++) {
        for (int dx = -1; dx <= 1; dx++) {
            vec2 offset = vec2(float(dx), float(dy)) * uStepSize;
            vec2 sampleCoord = vUV + offset * uTexelSize;
            
            if (sampleCoord != clamp(sampleCoord, 0.0, 1.0)) continue;
            
            vec4 sampleValue = texture(jfa, sampleCoord);
            
            if (sampleValue.b > 0.5) {
                float dist = distance(vUV / uTexelSize, sampleValue.xy);
                if (dist < bestDist) {
                    bestDist = dist;
                    bestSeed = sampleValue.xy;
                }
            }
        }
    }
    
    if (bestDist < MAX_DIST - 1.0) {
        finalColor = vec4(bestSeed, 1.0, bestDist);
    } else {
        finalColor = vec4(0.0, 0.0, 0.0, 1.0);
    }
}
".

Definition jfaFinalizeUnsignedFragment : string :=
"

#define MAX_DIST 1e10
#define EPSILON 0.0001

in vec2 vUV;
out vec4 finalColor;

void main() {
    vec4 encoded = texture(jfa, vUV);
    
    vec2 currentPos = vUV / uTexelSize;
    vec2 gradient = vec2(0.0);
    float dist = MAX_DIST; // maximum distance by default
    
    if (encoded.b > 0.5) {
        vec2 seedPos = encoded.rg;
        vec2 diff = currentPos - seedPos;
        dist = length(diff);
        
        // Normalized gradient (direction from seed to current point)
        if (dist > EPSILON) {
            gradient = diff / dist;
        }
    }
    
    finalColor = vec4(gradient, dist, 0.0);
}
".

Definition applySignFragment : string :=
"
in vec2 vUV;
out vec4 finalColor;

void main() {
    vec4 sdfData = texture(uSDF, vUV);
    vec2 gradient = sdfData.xy;
    float dist = sdfData.z;
    float maskValue = texture(uMask, vUV).r;
    
    // Inside shape - negative distance and inverted gradient
    if (maskValue > 0.5) {
        dist = -dist;
        gradient = -gradient;
    }
    
    finalColor = vec4(gradient, dist, 0.0);
}
".

(** [Math.ceil(Math.log2(n))] for an integer [n >= 1]. *)
Definition ceil_log2 (n : Z) : Z := Z.log2_up n.

Definition texelSize (w h : Z) : UniformValue :=
  UVec [(1 / inject_Z w)%Q; (1 / inject_Z h)%Q].

Definition jfaOptions (texture : RenderTexture) : GPUComputeVariableOptions :=
  {| o_width := tex_width texture; o_height := tex_height texture;
     o_name := "jfa"; o_fragmentShader := jfaFragment;
     o_uniforms := Some
       [("uTexelSize", mkUniform (texelSize (tex_width texture) (tex_height texture))
                         "vec2<f32>");
        ("uStepSize", mkUniform (UNum 1) "f32");
        ("uFirst", mkUniform (UNum 1) "f32")];
     o_samplers := Some [("uTex", texture)];
     o_initialTexture := None |}.

Definition finalizationOptions (texture : RenderTexture)
  : GPUComputeVariableOptions :=
  {| o_width := tex_width texture; o_height := tex_height texture;
     o_name := "jfaFinalize"; o_fragmentShader := jfaFinalizeUnsignedFragment;
     o_uniforms := Some
       [("uTexelSize", mkUniform (texelSize (tex_width texture) (tex_height texture))
                         "vec2<f32>")];
     o_samplers := None;
     o_initialTexture := None |}.

(** [Math.pow(2, k)] for an integer [k >= 0]. *)
Definition pow2 (k : Z) : Q := inject_Z (2 ^ k).

Definition generateSDFTex (texture : RenderTexture) : M RenderTexture :=
  let width := tex_width texture in
  let height := tex_height texture in
  let numPasses := ceil_log2 (Z.max width height) in
  jfaComputeVar ← new_GPUComputeVariable (jfaOptions texture);
  fillTextureFrom jfaComputeVar texture;;
  setDependencies jfaComputeVar [jfaComputeVar];;
  compute jfaComputeVar;;
  setUniform jfaComputeVar "uFirst" (UNum 0);;
  forM_ (seqZ 0 numPasses) (λ i,
    let stepSize := pow2 (numPasses - 1 - i) in
    setUniform jfaComputeVar "uStepSize" (UNum stepSize);;
    compute jfaComputeVar);;
  destroy jfaComputeVar;;
  finalization ← new_GPUComputeVariable (finalizationOptions texture);
  setDependencies finalization [jfaComputeVar];;
  computeOnce finalization;;
  jfa ← getVar jfaComputeVar;
  match getCurrentTexture jfa with
  | None => throw typeError
  | Some t => texture_destroy t
  end;;
  fin ← getVar finalization;
  match getCurrentTexture fin with
  | None => throw typeError
  | Some t => mret t
  end.

(** ** Auxiliary definitions for the proofs *)

(** What [ensureTextures] does to the record of the variable, and to the
    texture allocator. *)
Definition ensured (x : GPUComputeVariable) (n : nat) : GPUComputeVariable * nat :=
  let '(ping, n) :=
    match pingTexture x with
    | Some p => (p, n)
    | None => (mkTex n (width x) (height x), S n)
    end in
  let '(pong, n) :=
    match pongTexture x with
    | Some q => (q, n)
    | None => if needsPingPong x then (mkTex n (width x) (height x), S n)
              else (ping, n)
    end in
  (set_pongTexture (Some pong) (set_pingTexture (Some ping) x), n).


(** Concatenation of a list of strings. *)
Definition sconcat (l : list string) : string := foldr String.append "" l.

(** The declarations the assembly is specified to generate, as pairs of a
    GLSL type and a name: a [sampler2D] for each dependency and each static
    sampler whose name the body does not declare, then a uniform of the
    mapped type for each scalar or vector uniform the body does not
    declare. *)
Definition generatedDeclarations (this : GPUComputeVariable) (depNames : list string)
  : list (string * string) :=
  ((λ n, ("sampler2D", n)) <$>
     filter (λ n, isUniformDeclared (fragmentShader this) n = false)
       (depNames ++ (samplers this).*1))
  ++ omap (λ p, if isUniformDeclared (fragmentShader this) p.1 then None
                else (λ ty, (ty, p.1)) <$> PIXI_TO_GLSL_TYPE (u_type p.2))
       (uniforms this).

Definition declarationText (d : string * string) : string :=
  "uniform " +:+ d.1 +:+ " " +:+ d.2 +:+ ";" +:+ nl.

(** The code the assembly is specified to inject. *)
Definition generatedCode (this : GPUComputeVariable) (depNames : list string)
  : string :=
  resolutionDefine this
  +:+ sconcat (declarationText <$> generatedDeclarations this depNames).

(** The body [body] declares a uniform [n]: somewhere, not right after a
    word character, it holds the word [uniform], white space, a type word,
    white space, the name, and then, between optional white space, an
    optional array suffix in brackets and a semicolon.  This is the language
    of the regular expression of [isUniformDeclared], written out. *)
Definition declares (body n : string) : Prop :=
  ∃ pre ws1 ty ws2 ws3 arr ws4 post,
    body = pre +:+ "uniform" +:+ ws1 +:+ ty +:+ ws2 +:+ n +:+ ws3 +:+ arr
           +:+ ws4 +:+ ";" +:+ post
    ∧ endsWithWord pre = false
    ∧ ws1 ≠ "" ∧ all_chars is_space ws1 = true
    ∧ ty ≠ "" ∧ all_chars is_word ty = true
    ∧ ws2 ≠ "" ∧ all_chars is_space ws2 = true
    ∧ all_chars is_space ws3 = true
    ∧ (arr = "" ∨ ∃ inner, arr = "[" +:+ inner +:+ "]"
                           ∧ all_chars not_bracket inner = true)
    ∧ all_chars is_space ws4 = true.

(** The text after the name: white space, an optional array suffix, white
    space and a semicolon. *)
Definition declarationEnd (r5 : string) : Prop :=
  ∃ ws3 arr ws4 post,
    r5 = ws3 +:+ arr +:+ ws4 +:+ ";" +:+ post
    ∧ all_chars is_space ws3 = true
    ∧ (arr = "" ∨ ∃ inner, arr = "[" +:+ inner +:+ "]"
                           ∧ all_chars not_bracket inner = true)
    ∧ all_chars is_space ws4 = true.

(** The names that [createShader] looks for in the body, in the order of
    its three loops. *)
Definition listedNames (this : GPUComputeVariable) (depNames : list string)
  : list string :=
  depNames ++ (samplers this).*1 ++ (uniforms this).*1.

(** The sizes for which [toFixed1] is the text of [toFixed(1)]. *)
Definition printableSize (this : GPUComputeVariable) : Prop :=
  Z.abs (width this) < 10 ^ 21 ∧ Z.abs (height this) < 10 ^ 21.

(** The number of times [n] occurs in [l]. *)
Definition occurrences (n : string) (l : list string) : nat :=
  length (filter (λ m, m = n) l).

(** Every uniform that needs a declaration has a known kind. *)
Definition uniformKindsKnown (this : GPUComputeVariable) : Prop :=
  Forall (λ p, isUniformDeclared (fragmentShader this) p.1 = false →
               is_Some (PIXI_TO_GLSL_TYPE (u_type p.2)))
    (uniforms this).

(** Example: a ping-pong variable, before and after [init()]. *)
Definition exampleOptions : GPUComputeVariableOptions :=
  {| o_width := 2; o_height := 2; o_name := "state";
     o_fragmentShader := "#version 300 es" +:+ nl
                         +:+ "uniform sampler2D state;" +:+ nl +:+ "void main() {}";
     o_uniforms := Some [("uDt", mkUniform (UNum 1) "f32")];
     o_samplers := Some [("uNoise", mkTex 0 4 4)];
     o_initialTexture := None |}.

Definition exampleFresh : World :=
  exec (_ ← RenderTexture_create 4 4;
        v ← new_GPUComputeVariable exampleOptions;
        setDependencies v [v]) emptyWorld.

Definition exampleInitialized : World := exec (init 0%nat) exampleFresh.

Definition exampleVar (s : World) : GPUComputeVariable :=
  default (newVariable exampleOptions) (vars s !! 0%nat).

(** A record without its shader bindings ([shader], [paramsUniforms]), and
    a world without the bindings of the variable [v]. *)
Definition core (x : GPUComputeVariable) : GPUComputeVariable :=
  set_shader None (set_paramsUniforms None x).

Definition coreAt (v : VarId) (s : World) : World :=
  set_vars (alter core v (vars s)) s.

(** The dependency lists of the variables of a world. *)
Definition depsMap (s : World) : gmap VarId (list VarId) :=
  dependencies <$> vars s.

(** [m] never changes the projection [F] of the world, whatever its outcome. *)
Definition stable {T A} (F : World → T) (m : M A) : Prop :=
  ∀ s, F (m s).2 = F s.

(** What [createShader] does to the record when it succeeds. *)
Definition createdShader (x : GPUComputeVariable) (fragment : string)
    (resources : gmap string nat) : GPUComputeVariable :=
  let x' := set_mesh (Some FullscreenMesh)
              (set_shader
                 (Some (mkShader fragment (bindSamplers (samplers x) resources))) x) in
  if hasUniforms x
  then set_paramsUniforms
         (Some (list_to_map ((λ p, (p.1, u_value p.2)) <$> uniforms x))) x'
  else x'.

(** What [init] does to the record before it creates the shader. *)
Definition preInit (v : VarId) (x : GPUComputeVariable) (n : nat)
  : GPUComputeVariable * nat :=
  ensured (set_needsPingPong (bool_decide (v ∈ dependencies x)) x) n.

(** The world in which [init] creates the shader. *)
Definition preInitWorld (v : VarId) (x : GPUComputeVariable) (s : World) : World :=
  set_nextTex (preInit v x (nextTex s)).2
    (set_vars (<[v := (preInit v x (nextTex s)).1]> (vars s)) s).

(** The three loops of [compute] that refresh the bindings. *)
Definition refreshBindings (v : VarId) (this : GPUComputeVariable) : M unit :=
  updateDependencies v (dependencies this);;
  updateSamplers v this;;
  updateUniforms v this.

(** ** Life cycles *)



(** The calls of a variable that was not seeded. *)
Inductive LifeCall :=
| CallSetDeps (deps : list VarId)
| CallInit
| CallCompute.

Definition lifeCall (v : VarId) (c : LifeCall) : M unit :=
  match c with
  | CallSetDeps deps => setDependencies v deps
  | CallInit => init v
  | CallCompute => compute v
  end.

(** Runs the calls in order; an error thrown by a call is caught by the
    caller, which goes on with the next call. *)
Definition runCalls {C} (call : C → M unit) (cs : list C) (s : World) : World :=
  foldl (λ s c, exec (call c) s) s cs.





(** The wiring of a record erased. *)
Definition unwire (x : GPUComputeVariable) : GPUComputeVariable :=
  set_dependents ∅ (set_dependencies [] x).

Definition unwireW (s : World) : World := set_vars (unwire <$> vars s) s.


(** Example: the same variable, constructed and seeded by a list of calls. *)
Definition exampleBase : World := exec (RenderTexture_create 4 4) emptyWorld.



(** A variable that was not seeded by [fillTexture] or [fillTextureFrom] and
    does not depend on itself has at most one backing texture; [unseeded]
    tells that it was given no initial texture either. *)
Definition singleTexture (unseeded : Prop) (v : VarId) (s : World) : Prop :=
  ∃ x, vars s !! v = Some x ∧ (v ∉ dependencies x)
       ∧ (pongTexture x = None ∨ pongTexture x = pingTexture x)
       ∧ (initialized x = true → is_Some (pongTexture x))
       ∧ (unseeded → pingTexture x = pongTexture x).

(** Example: a variable without self-dependency that is seeded with data
    and then initialised. *)
Definition exampleFilled : World :=
  exec (v ← new_GPUComputeVariable exampleOptions;
        (fillTexture v (replicate 16 0%Q);;
         setDependencies v [];;
         init v;;
         compute v)) exampleBase.

(** The dependencies of [x] exist and have a current texture. *)
Definition dependenciesReady (s : World) (x : GPUComputeVariable) : Prop :=
  ∀ d, d ∈ dependencies x →
       ∃ y t, vars s !! d = Some y ∧ getCurrentTexture y = Some t.

(** The key caches of [x] name entries of its tables. *)
Definition keysPresent (x : GPUComputeVariable) : Prop :=
  (∀ key, key ∈ samplerKeys x → is_Some (lookupKey key (samplers x)))
  ∧ (∀ key, key ∈ uniformKeys x → is_Some (lookupKey key (uniforms x))).

(** The values that [updateUniforms] pushes into the uniform group. *)
Definition pushedParams (x : GPUComputeVariable) (keys : list string)
    (ps : gmap string UniformValue) : gmap string UniformValue :=
  foldl (λ ps key, match lookupKey key (uniforms x) with
                   | Some d => <[key := u_value d]> ps
                   | None => ps
                   end) ps keys.

(** The texture that [destroyTextures] destroys: none for a variable
    without ping-pong or when the alternate buffer is the external ping
    texture; the alternate buffer otherwise. *)
Definition releasedTexture (x : GPUComputeVariable) : result (option RenderTexture) :=
  if needsPingPong x then
    if match getAlternateTexture x, pingTexture x with
       | Some a, Some p => same_texture a p
       | None, None => true
       | _, _ => false
       end && externalPingTexture x
    then Ok None
    else match getAlternateTexture x with
         | None => Throw typeError
         | Some a => Ok (Some a)
         end
  else Ok None.

(** The record of [w] during [destroy] of [v], compared with the record
    [y0] it had when the loop over the dependencies [deps] started: only the
    dependents and the [texturesDestroyed] flag change; [v] is removed from
    the dependents of the dependencies; the flag is set only for a destroyed
    variable whose dependents have become empty. *)
Definition releasedVar (v : VarId) (deps : list VarId) (w : VarId)
    (y0 y : GPUComputeVariable) : Prop :=
  (w ∉ deps → w ≠ v → y = y0)
  ∧ ∃ D b,
      y = set_texturesDestroyed b (set_dependents D y0)
      ∧ (D = dependents y0 ∨ (w ∈ deps ∧ D = dependents y0 ∖ {[v]}))
      ∧ (b = texturesDestroyed y0
         ∨ (texturesDestroyed y0 = false ∧ b = true ∧ destroyed y0 = true ∧ D = ∅)).

Definition released (v : VarId) (deps : list VarId) (s0 s : World) : Prop :=
  nextVar s = nextVar s0 ∧ nextTex s = nextTex s0 ∧ trace s = trace s0
  ∧ (∀ w, option_Forall2 (releasedVar v deps w) (vars s0 !! w) (vars s !! w))
  ∧ (∀ t, t ∈ destroyedTex s ↔
          t ∈ destroyedTex s0
          ∨ ∃ w y0 y a, vars s0 !! w = Some y0 ∧ vars s !! w = Some y
                        ∧ texturesDestroyed y0 = false
                        ∧ texturesDestroyed y = true
                        ∧ releasedTexture y0 = Ok (Some a) ∧ tex_id a = t).

(** The world in which [destroy] starts its loop. *)
Definition markDestroyed (v : VarId) (x : GPUComputeVariable) (s : World) : World :=
  set_vars (<[v := set_shader None (set_mesh None (set_destroyed true x))]> (vars s)) s.

(** Every variable that lists [w] among its dependencies is registered in
    the dependents of [w] (the bookkeeping of [setDependencies]). *)
Definition wired (s : World) : Prop :=
  ∀ u z w, vars s !! u = Some z → w ∈ dependencies z →
           ∃ y, vars s !! w = Some y ∧ u ∈ dependents y.

(** Example: a variable [0] without self-dependency and a variable [1] that
    reads it; both are initialised, then destroyed, the dependency first. *)
Definition plainOptions (n : string) : GPUComputeVariableOptions :=
  {| o_width := 2; o_height := 2; o_name := n;
     o_fragmentShader := "void main() {}";
     o_uniforms := None; o_samplers := None; o_initialTexture := None |}.

Definition exampleChain : M unit :=
  v ← new_GPUComputeVariable (plainOptions "source");
  w ← new_GPUComputeVariable (plainOptions "reader");
  (setDependencies w [v];; init v;; init w;; compute v;; compute w;;
   destroy v;; destroy w).

(** Example: a variable [0] that is given the texture [0], initialised and
    destroyed while variable [1] still reads it, then given the texture [1],
    initialised again with a self-dependency and unwired; at last the reader
    is destroyed. *)
Definition exampleRevival : M unit :=
  t1 ← RenderTexture_create 2 2;
  t2 ← RenderTexture_create 2 2;
  v ← new_GPUComputeVariable (plainOptions "source");
  w ← new_GPUComputeVariable (plainOptions "reader");
  (setInitialTexture v t1;; setDependencies w [v];; init v;; init w;;
   destroy v;;
   setInitialTexture v t2;; setDependencies v [v];; init v;;
   setDependencies v [];; destroy w).

(** The chain example just before and after the last [destroy]. *)
Definition exampleBeforeLast : World :=
  exec (v ← new_GPUComputeVariable (plainOptions "source");
        w ← new_GPUComputeVariable (plainOptions "reader");
        (setDependencies w [v];; init v;; init w;; compute v;; compute w;;
         destroy v)) exampleBase.

Definition exampleAfterLast : World := exec (destroy 1%nat) exampleBeforeLast.

Definition varAt (v : VarId) (s : World) : GPUComputeVariable :=
  default (newVariable (plainOptions "")) (vars s !! v).

(** A check of [wired] by computation. *)
Definition wiredb (s : World) : bool :=
  forallb (λ p, forallb (λ w, match vars s !! w with
                              | Some y => bool_decide (p.1 ∈ dependents y)
                              | None => false
                              end) (dependencies p.2))
    (map_to_list (vars s)).

(** Example: a variable [2] that reads two variables of the same name. *)
Definition exampleTwins : World :=
  exec (a ← new_GPUComputeVariable (plainOptions "twin");
        b ← new_GPUComputeVariable (plainOptions "twin");
        c ← new_GPUComputeVariable (plainOptions "reader");
        (setDependencies c [a; b];; init a;; init b;; init c)) emptyWorld.

(** ** The particle simulation shader

    [main()] of [simulation.shader], with GLSL floats read as real numbers
    and a sampler as the function from a coordinate to the texel it
    returns.  The reading is exact where the shader computes with integers
    held in floats, as for the linear index of a particle, as long as they
    stay below [2^24]; the theorems that compare such an index with an
    integer computed elsewhere bound the size of the texture.  The helpers [simToUv] and [sampleSdf] are those of
    [simSpaceConversion.shader] and [sampleSdf.shader]. *)
Module SimulationShader.

Local Open Scope R_scope.

Record vec2 := mkVec2 { v2x : R; v2y : R }.
Record vec3 := mkVec3 { v3x : R; v3y : R; v3z : R }.
Record vec4 := mkVec4 { v4x : R; v4y : R; v4z : R; v4w : R }.

Definition sampler2D := vec2 → vec4.

Definition vadd (a b : vec2) : vec2 := mkVec2 (v2x a + v2x b) (v2y a + v2y b).
Definition vscale (a : vec2) (k : R) : vec2 := mkVec2 (v2x a * k) (v2y a * k).
Definition vdiv (a : vec2) (k : R) : vec2 := mkVec2 (v2x a / k) (v2y a / k).
Definition vmul (a b : vec2) : vec2 := mkVec2 (v2x a * v2x b) (v2y a * v2y b).
Definition vquot (a b : vec2) : vec2 := mkVec2 (v2x a / v2x b) (v2y a / v2y b).
Definition dot (a b : vec2) : R := v2x a * v2x b + v2y a * v2y b.
Definition length2 (a : vec2) : R := sqrt (dot a a).
Definition zero2 : vec2 := mkVec2 0 0.
Definition floorR (x : R) : R := IZR (Int_part x).
Definition vfloor (a : vec2) : vec2 := mkVec2 (floorR (v2x a)) (floorR (v2y a)).

(** [int(x)]: conversion to integer, towards zero. *)
Definition toInt (x : R) : Z :=
  if Rle_dec 0 x then Int_part x else (- Int_part (- x))%Z.

Definition clamp (x lo hi : R) : R := Rmin (Rmax x lo) hi.

Definition smoothstep (edge0 edge1 x : R) : R :=
  let t := clamp ((x - edge0) / (edge1 - edge0)) 0 1 in
  t * t * (3 - 2 * t).

Definition mix (a b : vec2) (t : R) : vec2 :=
  vadd (vscale a (1 - t)) (vscale b t).

Record Uniforms := mkUniforms {
  uTexSize : vec2;
  dt : R;
  uPhase : R;
  stiffness : R;
  damping : R;
  globalDamping : R;
  massMultiplier : R;
  orbitMultiplier : R;
  orbitOffset : R;
  sdfResolutionMultiplier : R;
  tangentialNoiseAmplitude : R;
  uTangentialDamping : R;
  uS : R;
  uSimResolution : vec2
}.

Record Samplers := mkSamplers {
  uParticlesState : sampler2D;
  uAttributes : sampler2D;
  uNoise : sampler2D;
  uSdf0 : sampler2D;
  uSdf1 : sampler2D;
  uSdf2 : sampler2D;
  uSdf3 : sampler2D
}.

Definition simToPx (u : Uniforms) (sim : vec2) : vec2 :=
  vadd (vscale sim (uS u)) (vscale (uSimResolution u) 0.5).
Definition pxToUv (u : Uniforms) (px : vec2) : vec2 := vquot px (uSimResolution u).
Definition simToUv (u : Uniforms) (sim : vec2) : vec2 := pxToUv u (simToPx u sim).

Definition xyz (c : vec4) : vec3 := mkVec3 (v4x c) (v4y c) (v4z c).

Definition sampleSdf (t : Samplers) (index : Z) (uv : vec2) : vec3 :=
  if (index =? 0)%Z then xyz (uSdf0 t uv)
  else if (index =? 1)%Z then xyz (uSdf1 t uv)
  else if (index =? 2)%Z then xyz (uSdf2 t uv)
  else xyz (uSdf3 t uv).

(** The values computed before the force block. *)
Record Locals := mkLocals {
  position : vec2;
  velocity : vec2;
  initEnd : R;
  sdfIndex : Z;
  sdfUv : vec2;
  sdfDistSim : R;
  targetOrbit : R;
  mass : R;
  gradientDir : vec2;
  tangentDir : vec2;
  dtSec : R
}.

Definition prologue (u : Uniforms) (t : Samplers) (vUV : vec2) : Locals :=
  let movement := uParticlesState t vUV in
  let position := mkVec2 (v4x movement) (v4y movement) in
  let velocity := mkVec2 (v4z movement) (v4w movement) in
  let attributes := uAttributes t vUV in
  let initEnd := v4y attributes in
  let orbit := v4z attributes in
  let massAttr := v4w attributes in
  let particleIndex := vfloor (vmul vUV (uTexSize u)) in
  let linearIndex :=
    toInt (v2y particleIndex * v2x (uTexSize u) + v2x particleIndex) in
  let sdfIndex := (linearIndex - Z.quot linearIndex 4 * 4)%Z in
  let sdfUv := simToUv u position in
  let sdfData := sampleSdf t sdfIndex sdfUv in
  let gradient := mkVec2 (v3x sdfData) (v3y sdfData) in
  let sdfDistPx := v3z sdfData in
  let sdfDistSim := sdfDistPx / (sdfResolutionMultiplier u * uS u) in
  let targetOrbit := orbitMultiplier u * (orbit + orbitOffset u) in
  let mass := Rmax (Rmax (massMultiplier u * massAttr) 0.05) 0.0001 in
  let gradLen := length2 gradient in
  let gradientDir :=
    if Rlt_dec 0.0001 gradLen then vdiv gradient gradLen else zero2 in
  let tangentDir := mkVec2 (- v2y gradientDir) (v2x gradientDir) in
  let dtSec := dt u / 1000 in
  mkLocals position velocity initEnd sdfIndex sdfUv sdfDistSim targetOrbit
    mass gradientDir tangentDir dtSec.

(** [F_total] after the force block. *)
Definition F_total (u : Uniforms) (t : Samplers) (l : Locals) : vec2 :=
  if Rle_dec (initEnd l) (uPhase u) then
    let tangentialNoiseMagnitude :=
      (v4x (uNoise t (vadd (vscale (sdfUv l) 5) (mkVec2 0 (dtSec l * 0.1)))) * 2 - 1)
      * tangentialNoiseAmplitude u in
    let F_spring :=
      vscale (gradientDir l) ((targetOrbit l - sdfDistSim l) * stiffness u) in
    let F_spring :=
      vadd F_spring
        (vscale (mkVec2 (v2y F_spring) (- v2x F_spring)) tangentialNoiseMagnitude) in
    let tangentForceSign :=
      if ((sdfIndex l =? 2) || (sdfIndex l =? 0))%Z then -1 else 1 in
    let F_tangent :=
      vscale (vscale (mkVec2 (v2y (gradientDir l)) (- v2x (gradientDir l))) 0.01)
        tangentForceSign in
    let F_result :=
      mix F_spring F_tangent
        (smoothstep 0.003 0.001 (Rabs (sdfDistSim l - targetOrbit l))) in
    let velAlongGradient := dot (velocity l) (gradientDir l) in
    let velAlongTangent := dot (velocity l) (tangentDir l) in
    let F_dampTangent :=
      vscale (tangentDir l) (- uTangentialDamping u * velAlongTangent) in
    let F_damp := vscale (gradientDir l) (- damping u * velAlongGradient) in
    vadd (vadd F_result F_damp) F_dampTangent
  else zero2.

(** The Euler step and the output colour. *)
Definition integrate (u : Uniforms) (l : Locals) (force : vec2) : vec4 :=
  let acceleration := vdiv force (mass l) in
  let velocity := vadd (velocity l) (vscale acceleration (dtSec l)) in
  let velocity := vscale velocity (exp (- globalDamping u * dtSec l)) in
  let position := vadd (position l) (vscale velocity (dtSec l)) in
  mkVec4 (v2x position) (v2y position) (v2x velocity) (v2y velocity).

Definition main (u : Uniforms) (t : Samplers) (vUV : vec2) : vec4 :=
  let l := prologue u t vUV in
  integrate u l (F_total u t l).

(** A particle still waiting for its birth, used as an example. *)
Definition constSampler (c : vec4) : sampler2D := λ _, c.

Definition exampleUniforms : Uniforms :=
  mkUniforms (mkVec2 256 256) 16 0 3 1.5 0 0.2 1 0 1 0.1 0.1 1080 (mkVec2 1920 1080).

Definition exampleSamplers : Samplers :=
  mkSamplers (constSampler (mkVec4 0.25 0.5 0 0)) (constSampler (mkVec4 0.4 0.5 0.3 0.7))
    (constSampler (mkVec4 0 0 0 0)) (constSampler (mkVec4 1 0 5 0))
    (constSampler (mkVec4 1 0 5 0)) (constSampler (mkVec4 1 0 5 0))
    (constSampler (mkVec4 1 0 5 0)).

End SimulationShader.

(** * Further components of the application *)

(** ** Coordinate conversions of [simSpaceConversion.shader]

    [simToPx], [pxToUv] and [simToUv] are defined with the simulation
    shader above; these are the three remaining conversions. *)
Module SimSpaceConversion.

Import SimulationShader.
Local Open Scope R_scope.

Definition vsub (a b : vec2) : vec2 := mkVec2 (v2x a - v2x b) (v2y a - v2y b).

Definition pxToSim (u : Uniforms) (px : vec2) : vec2 :=
  vdiv (vsub px (vscale (uSimResolution u) 0.5)) (uS u).
Definition uvToPx (u : Uniforms) (uv : vec2) : vec2 := vmul uv (uSimResolution u).
Definition uvToSim (u : Uniforms) (uv : vec2) : vec2 := pxToSim u (uvToPx u uv).

End SimSpaceConversion.

(** ** The application context ([context.ts])

    [createAppContext] captures the size of the screen when it is called;
    the closure [pxToSim] reads the size the screen has when the closure is
    called.  JavaScript numbers are read as real numbers. *)
Module AppContext.

Local Open Scope R_scope.

Record Resolution := mkResolution { res_width : R; res_height : R }.

Record AppContext := mkAppContext {
  baseResolution : Resolution;
  ctx_s : R
}.

Definition createAppContext (screen : Resolution) : AppContext :=
  let baseResolution := mkResolution (res_width screen) (res_height screen) in
  let s := res_width baseResolution in
  mkAppContext baseResolution s.

(** [ctx.pxToSim(x, y)], called while the screen has the size [screen]. *)
Definition pxToSim (ctx : AppContext) (screen : Resolution) (x y : R) : R * R :=
  let scale := res_width screen / res_width (baseResolution ctx) in
  let xSim := (x - res_width screen / 2) / scale / ctx_s ctx in
  let ySim := (y - res_height screen / 2) / scale / ctx_s ctx in
  (xSim, ySim).

(** The uniforms [createParticlesSimulationRunner] derives from its
    [resolution] option: [uSimResolution] and [uS]. *)
Definition simulationUniforms (resolution : Resolution)
    (u : SimulationShader.Uniforms) : SimulationShader.Uniforms :=
  SimulationShader.mkUniforms
    (SimulationShader.uTexSize u) (SimulationShader.dt u)
    (SimulationShader.uPhase u) (SimulationShader.stiffness u)
    (SimulationShader.damping u) (SimulationShader.globalDamping u)
    (SimulationShader.massMultiplier u) (SimulationShader.orbitMultiplier u)
    (SimulationShader.orbitOffset u) (SimulationShader.sdfResolutionMultiplier u)
    (SimulationShader.tangentialNoiseAmplitude u)
    (SimulationShader.uTangentialDamping u)
    (res_width resolution)
    (SimulationShader.mkVec2 (res_width resolution) (res_height resolution)).

End AppContext.

(** ** The size of the particle textures ([particlesSimulation.ts])

    [Math.ceil(Math.sqrt(n))] and [Math.ceil(Math.log2(m))] are read on the
    integers.  This is what the code computes on doubles for counts up to
    [2^52]: every such count is a double, the rounded square root of a
    count that is no square stays strictly between the two neighbouring
    integers, and the logarithm of a side that is no power of two is far
    from an integer.  Beyond that the rounding of [Math.sqrt] can lose a
    unit (at [2^52 + 1] the code finds the side [2^26]), and the function
    below no longer is the code.  For [n = 0] JavaScript computes
    [Math.pow(2, -Infinity) = 0]; for a negative count the sizes are [NaN],
    which [None] stands for. *)
Definition calculateOptimalTextureSize (particleCount : Z) : option (Z * Z) :=
  if particleCount <? 0 then None
  else
    let minSide := Z.sqrt_up particleCount in
    let size := if minSide =? 0 then 0 else 2 ^ ceil_log2 minSide in
    Some (size, size).

(** ** The mouse interaction shader ([mouseBounce.shader])

    With the conventions of the simulation shader: floats are real
    numbers, a sampler is a function of the coordinate. *)
Module MouseBounceShader.

Import SimulationShader SimSpaceConversion.
Local Open Scope R_scope.

Definition MIN_PARTICLE_MASS : R := 0.3.

Record Uniforms := mkUniforms {
  uMassMultiplier : R;
  uForceAmplitude : R;
  uDampAmplitude : R;
  uGlobalDamping : R;
  dt : R;
  uMousePos : vec2;
  uMouseForceRadius : R;
  uMouseForceAmplitude : R;
  uMouseForcePow : R;
  uPhase : R
}.

Record Samplers := mkSamplers {
  uParticlesState : sampler2D;
  uBounceMovement : sampler2D;
  uAttributes : sampler2D
}.

(** [pow(x, y)]: GLSL leaves the result undefined for [x < 0], and for
    [x = 0] with [y <= 0]; the model gives [0] there. *)
Definition pow (x y : R) : R := if Rlt_dec 0 x then Rpower x y else 0.

Definition xy (c : vec4) : vec2 := mkVec2 (v4x c) (v4y c).
Definition zw (c : vec4) : vec2 := mkVec2 (v4z c) (v4w c).
Definition vec4_of (a b : vec2) : vec4 := mkVec4 (v2x a) (v2y a) (v2x b) (v2y b).

(** The position and the velocity after the integration step. *)
Definition bounce (u : Uniforms) (t : Samplers) (vUV : vec2) : vec2 * vec2 :=
  let particleStateReference := uParticlesState t vUV in
  let particleMass := Rmax (v4w (uAttributes t vUV)) MIN_PARTICLE_MASS in
  let eqilibriumPos := xy particleStateReference in
  let particleState := uBounceMovement t vUV in
  let particlePos := xy particleState in
  let particleVel := zw particleState in
  let toEquilibrium := vsub eqilibriumPos particlePos in
  let distToEquilibrium := length2 toEquilibrium in
  let n_toEquilibrium := vdiv toEquilibrium (Rmax distToEquilibrium 0.000001) in
  let F_equilibrium := vscale toEquilibrium (uForceAmplitude u) in
  let F_damp :=
    vscale (vscale n_toEquilibrium (dot particleVel n_toEquilibrium))
      (- uDampAmplitude u) in
  let toMouse := vsub (uMousePos u) particlePos in
  let distToMouse := length2 toMouse in
  let n_toMouse := vdiv toMouse (Rmax distToMouse 0.000001) in
  let mouseForceMagnitude :=
    uMouseForceAmplitude u
    * pow (Rmax 0 (1 - distToMouse / uMouseForceRadius u)) (uMouseForcePow u) in
  let F_mouse := vscale n_toMouse (- mouseForceMagnitude) in
  let F_total := vadd (vadd F_equilibrium F_damp) F_mouse in
  let acceleration := vdiv F_total (particleMass * uMassMultiplier u) in
  let dtSec := dt u / 1000 in
  let particleVel := vadd particleVel (vscale acceleration dtSec) in
  let particleVel := vscale particleVel (exp (- uGlobalDamping u * dtSec)) in
  let particlePos := vadd particlePos (vscale particleVel dtSec) in
  (particlePos, particleVel).

Definition main (u : Uniforms) (t : Samplers) (vUV : vec2) : vec4 :=
  let particleStateReference := uParticlesState t vUV in
  if Rlt_dec (uPhase u) 3 then
    vec4_of (xy particleStateReference) (zw particleStateReference)
  else
    let '(particlePos, particleVel) := bounce u t vUV in
    let finalPos :=
      mix (xy particleStateReference) particlePos (clamp (uPhase u - 3) 0 1) in
    let finalVel :=
      mix (zw particleStateReference) particleVel (clamp (uPhase u - 3) 0 1) in
    vec4_of finalPos finalVel.

End MouseBounceShader.

(** ** The finalisation and sign shaders of [generateSDFTex.ts] *)
Module SdfShaders.

Import SimulationShader SimSpaceConversion.
Local Open Scope R_scope.

Definition MAX_DIST : R := 10000000000.
Definition EPSILON : R := 0.0001.

Definition vneg (a : vec2) : vec2 := mkVec2 (- v2x a) (- v2y a).

(** [main()] of [jfaFinalizeUnsignedFragment]; [jfa] is the sampler of the
    dependency, [uTexelSize] the uniform. *)
Definition jfaFinalize (jfa : sampler2D) (uTexelSize : vec2) (vUV : vec2) : vec4 :=
  let encoded := jfa vUV in
  let currentPos := vquot vUV uTexelSize in
  let '(gradient, dist) :=
    if Rlt_dec 0.5 (v4z encoded) then
      let seedPos := mkVec2 (v4x encoded) (v4y encoded) in
      let diff := vsub currentPos seedPos in
      let dist := length2 diff in
      (if Rlt_dec EPSILON dist then vdiv diff dist else zero2, dist)
    else (zero2, MAX_DIST) in
  mkVec4 (v2x gradient) (v2y gradient) dist 0.

(** [main()] of [applySignFragment]. *)
Definition applySign (uSDF uMask : sampler2D) (vUV : vec2) : vec4 :=
  let sdfData := uSDF vUV in
  let gradient := mkVec2 (v4x sdfData) (v4y sdfData) in
  let dist := v4z sdfData in
  let maskValue := v4x (uMask vUV) in
  let '(dist, gradient) :=
    if Rlt_dec 0.5 maskValue then (- dist, vneg gradient) else (dist, gradient) in
  mkVec4 (v2x gradient) (v2y gradient) dist 0.

(** The first pass of [jfaFragment] ([uFirst > 0.5]). *)
Definition jfaSeed (uTex : sampler2D) (uTexelSize : vec2) (vUV : vec2) : vec4 :=
  let currentValue := uTex vUV in
  if Rle_dec 0.5 (v4x currentValue)
  then let p := vquot vUV uTexelSize in mkVec4 (v2x p) (v2y p) 1 1
  else mkVec4 0 0 0 1.

End SdfShaders.

(** ** The layout of the letters ([generateTextMask.ts])

    The arithmetic of [generateTextMask]: the widths that
    [measureText] reports at the reference size are the function
    [measure]; a texture is described by the letter drawn on its canvas,
    where and at which font size.  JavaScript numbers are real numbers. *)
Module TextMask.

Local Open Scope R_scope.

Record TextMaskOptions := mkTextMaskOptions {
  text : list ascii;
  resolution_width : R;
  resolution_height : R;
  textWidth : R;
  spacingPercent : R
}.

Record LetterTexture := mkLetterTexture {
  canvas_width : R;
  canvas_height : R;
  font_size : R;
  letter : ascii;
  letter_x : R;
  letter_y : R
}.

Record TextMaskResult := mkTextMaskResult {
  textures : list LetterTexture;
  fontSize : R;
  letterSpacing : R
}.

Definition referenceFontSize : R := 100.

(** The sum of a list of numbers (used to state the layout). *)
Definition sumR (l : list R) : R := fold_right Rplus 0 l.

(** [totalRefWidth] after the measuring loop. *)
Definition totalRefWidth (refCharWidths : list R) : R :=
  fold_left Rplus refCharWidths 0.

(** [charPositions], built by the loop that advances [currentX]. *)
Fixpoint charPositions (currentX : R) (charWidths : list R) (spacing : R) : list R :=
  match charWidths with
  | [] => []
  | w :: ws => currentX :: charPositions (currentX + (w + spacing)) ws spacing
  end.

Definition charWidths (measure : ascii → R) (o : TextMaskOptions) : list R :=
  let refCharWidths := map measure (text o) in
  let totalLettersWidth := textWidth o * (1 - spacingPercent o) in
  let scaleFactor := totalLettersWidth / totalRefWidth refCharWidths in
  map (λ w, w * scaleFactor) refCharWidths.

Definition generateTextMask (measure : ascii → R) (o : TextMaskOptions)
  : TextMaskResult :=
  let chars := text o in
  if (length chars =? 0)%nat then mkTextMaskResult [] 0 0
  else
    let refCharWidths := map measure chars in
    let totalSpacingWidth := textWidth o * spacingPercent o in
    let totalLettersWidth := textWidth o * (1 - spacingPercent o) in
    let numSpaces := if (1 <? length chars)%nat then (length chars - 1)%nat else 0%nat in
    let letterSpacing :=
      if (0 <? numSpaces)%nat then totalSpacingWidth / INR numSpaces else 0 in
    let scaleFactor := totalLettersWidth / totalRefWidth refCharWidths in
    let charHeight := referenceFontSize * scaleFactor in
    let charWidths := map (λ w, w * scaleFactor) refCharWidths in
    let actualTotalWidth := totalLettersWidth + totalSpacingWidth in
    let startX := (resolution_width o - actualTotalWidth) / 2 in
    let centerY := resolution_height o / 2 in
    let positions := charPositions startX charWidths letterSpacing in
    mkTextMaskResult
      (map (λ p, mkLetterTexture (resolution_width o) (resolution_height o)
                   charHeight p.1 p.2 centerY)
         (zip chars positions))
      charHeight letterSpacing.

(** Example: two letters of the same width. *)
Definition exampleMeasure (c : ascii) : R := 50.

Definition exampleText : TextMaskOptions :=
  mkTextMaskOptions ["A"; "B"]%char 100 50 80 0.25.

Definition noLetter : LetterTexture := mkLetterTexture 0 0 0 "A"%char 0 0.

End TextMask.

(** ** The float texture format ([floatTextureFormat.ts])

    The module keeps [colorBufferFloatSupported] between the calls; a
    renderer is described by whether its context has the extension
    [EXT_color_buffer_float]. *)
Module FloatTextureFormat.

Record WebGLRenderer := mkRenderer { hasColorBufferFloat : bool }.

Inductive TEXTURE_FORMATS := rgba32float | rgba16float.

Definition supportsColorBufferFloat (renderer : WebGLRenderer)
    (colorBufferFloatSupported : option bool) : bool * option bool :=
  match colorBufferFloatSupported with
  | Some b => (b, colorBufferFloatSupported)
  | None =>
      let b := hasColorBufferFloat renderer in
      (b, Some b)
  end.

Definition getFloatTextureFormat (renderer : WebGLRenderer)
    (cache : option bool) : TEXTURE_FORMATS * option bool :=
  let '(b, cache) := supportsColorBufferFloat renderer cache in
  (if b then rgba32float else rgba16float, cache).

(** The formats returned by successive calls, from a given cache. *)
Fixpoint formats (renderers : list WebGLRenderer) (cache : option bool)
  : list TEXTURE_FORMATS :=
  match renderers with
  | [] => []
  | r :: rs =>
      let '(f, cache) := getFloatTextureFormat r cache in
      f :: formats rs cache
  end.

End FloatTextureFormat.

(** ** The wiring of the dependency graph *)

(** The two fields that [setDependencies] and [destroy] maintain. *)
Definition wiringOf (x : GPUComputeVariable) : list VarId * gset VarId :=
  (dependencies x, dependents x).

Definition wiring (s : World) : gmap VarId (list VarId * gset VarId) * nat :=
  (wiringOf <$> vars s, nextVar s).

(** The [dependents] sets are the inverse of the [dependencies] lists: [u]
    lists [w] among its dependencies exactly when [w] has [u] among its
    dependents. *)
Definition linked (s : World) : Prop :=
  ∀ u w, (∃ z, vars s !! u = Some z ∧ w ∈ dependencies z)
         ↔ (∃ y, vars s !! w = Some y ∧ u ∈ dependents y).

(** The invariant of the heap: the graph is linked and the identities in
    use are below the next one to be allocated. *)
Definition wellWired (s : World) : Prop :=
  linked s ∧ ∀ v, is_Some (vars s !! v) → (v < nextVar s)%nat.

(** The methods of a variable, as a caller invokes them. *)
Inductive MethodCall :=
| DoFillTexture (data : Float32Array)
| DoFillTextureFrom (source : RenderTexture)
| DoSetInitialTexture (texture : RenderTexture)
| DoSetDependencies (deps : list VarId)
| DoInit
| DoCompute
| DoComputeOnce
| DoSetUniform (key : string) (value : UniformValue)
| DoDestroy.

Definition methodCall (v : VarId) (c : MethodCall) : M unit :=
  match c with
  | DoFillTexture data => fillTexture v data
  | DoFillTextureFrom source => fillTextureFrom v source
  | DoSetInitialTexture texture => setInitialTexture v texture
  | DoSetDependencies deps => setDependencies v deps
  | DoInit => init v
  | DoCompute => compute v
  | DoComputeOnce => computeOnce v
  | DoSetUniform key value => setUniform v key value
  | DoDestroy => destroy v
  end.

(** The variables named by a call exist (they are objects). *)
Definition callTargetsExist (s : World) (c : MethodCall) : Prop :=
  match c with
  | DoSetDependencies deps => ∀ d, d ∈ deps → is_Some (vars s !! d)
  | _ => True
  end.

(** The calls that run [destroy], which can stop half-way by an error. *)
Definition callDestroys (c : MethodCall) : bool :=
  match c with
  | DoComputeOnce | DoDestroy => true
  | _ => false
  end.

(** ** One-shot computations *)

(** The part of a record that is fixed at construction, with the
    dependency list. *)
Definition staticOf (x : GPUComputeVariable) :=
  (name x, width x, height x, fragmentShader x, uniforms x, samplers x,
   hasUniforms x, uniformKeys x, hasSamplers x, samplerKeys x, dependencies x).

(** [destroyTextures] of the record does not read a missing buffer. *)
Definition releasable (x : GPUComputeVariable) : Prop :=
  ∃ t, releasedTexture x = Ok t.

(** What [init()] and [compute()] of another variable need from a
    dependency [y], and what the [destroy()] of that variable needs. *)
Definition readyDependency (y : GPUComputeVariable) : Prop :=
  is_Some (getCurrentTexture y) ∧ releasable y.

(** The variable [x] of identity [v] can run [computeOnce()]. *)
Definition oneShotReady (s : World) (v : VarId) (x : GPUComputeVariable) : Prop :=
  initialized x = false ∧ destroyed x = false
  ∧ (currentIndex x = 0 ∨ currentIndex x = 1)
  ∧ uniformKindsKnown x ∧ keysPresent x
  ∧ ∀ d, d ∈ dependencies x → d ≠ v →
         ∃ y, vars s !! d = Some y ∧ readyDependency y.

(** Example: the example variable, just constructed. *)
Definition exampleNew : World :=
  exec (new_GPUComputeVariable exampleOptions) exampleBase.

(** ** The bindings of a pass *)

(** [resources[key] = source] for each pair of a list, in order. *)
Definition bindAll (l : list (string * nat)) (r : gmap string nat) : gmap string nat :=
  foldl (λ r p, <[p.1 := p.2]> r) r l.

(** The binding that the first loop of [compute] writes for the dependency
    [d]: its name and its current texture. *)
Definition depBinding (s : World) (d : VarId) : option (string * nat) :=
  y ← vars s !! d; t ← getCurrentTexture y; Some (name y, tex_id t).

Definition depBindings (s : World) (deps : list VarId) (r : gmap string nat)
  : gmap string nat :=
  bindAll (omap (depBinding s) deps) r.

(** The binding that the second loop writes for a sampler key. *)
Definition samplerBinding (x : GPUComputeVariable) (key : string)
  : option (string * nat) :=
  (λ t, (key, tex_id t)) <$> lookupKey key (samplers x).

Definition samplerBindings (x : GPUComputeVariable) (r : gmap string nat)
  : gmap string nat :=
  if hasSamplers x then bindAll (omap (samplerBinding x) (samplerKeys x)) r else r.

(** The resources and the uniform group that the shader of [x] sees in
    the next pass. *)
Definition passResources (s : World) (x : GPUComputeVariable) : gmap string nat :=
  samplerBindings x
    (depBindings s (dependencies x) (from_option sh_resources ∅ (shader x))).

Definition passParams (x : GPUComputeVariable) : option (gmap string UniformValue) :=
  if hasUniforms x
  then pushedParams x (uniformKeys x) <$> paramsUniforms x
  else paramsUniforms x.

(** The variable [x] can run a pass in the world [s]. *)
Definition passReady (s : World) (x : GPUComputeVariable) : Prop :=
  initialized x = true ∧ is_Some (shader x) ∧ dependenciesReady s x
  ∧ keysPresent x ∧ (hasUniforms x = true → is_Some (paramsUniforms x)).

(** ** Errors of the initialisation *)

(** The message of [createShader] for the uniform [key] of unknown type. *)
Definition unknownTypeMessage (x : GPUComputeVariable) (key : string)
    (d : UniformData) : string :=
  errPrefix x +:+ "Unknown uniform type " +:+ dquote +:+ u_type d +:+ dquote
  +:+ " for " +:+ dquote +:+ key +:+ dquote.

(** The names that [createShader] of [x] pastes into regular expressions
    are word names: the keys of its samplers and uniforms and the names of
    its dependencies. *)
Definition wordNames (s : World) (x : GPUComputeVariable) : Prop :=
  Forall wordName ((samplers x).*1 ++ (uniforms x).*1)
  ∧ ∀ d y, d ∈ dependencies x → vars s !! d = Some y → wordName (name y).

(** A uniform that needs a declaration and has no GLSL type. *)
Definition untypedUniform (x : GPUComputeVariable) (p : string * UniformData)
  : Prop :=
  isUniformDeclared (fragmentShader x) p.1 = false
  ∧ PIXI_TO_GLSL_TYPE (u_type p.2) = None.

(** Example: a variable with a uniform of a type that has no GLSL name. *)
Definition untypedOptions : GPUComputeVariableOptions :=
  {| o_width := 2; o_height := 2; o_name := "state";
     o_fragmentShader := "void main() {}";
     o_uniforms := Some [("uCount", mkUniform (UNum 1) "u32")];
     o_samplers := None; o_initialTexture := None |}.

Definition exampleUntyped : World :=
  exec (new_GPUComputeVariable untypedOptions) emptyWorld.

(** Example: a simulation variable [0] and a variable [1] that reads it and
    itself, both initialised. *)
Definition exampleFrame : World :=
  exec (sim ← new_GPUComputeVariable (plainOptions "uParticlesState");
        mouse ← new_GPUComputeVariable (plainOptions "uBounceMovement");
        (setDependencies sim [sim];; init sim;;
         setDependencies mouse [sim; mouse];; init mouse)) emptyWorld.

(** A variable that is initialised and has both buffers. *)
Definition running (x : GPUComputeVariable) : Prop :=
  initialized x = true ∧ is_Some (shader x) ∧ keysPresent x
  ∧ (hasUniforms x = true → is_Some (paramsUniforms x))
  ∧ is_Some (pingTexture x) ∧ is_Some (pongTexture x)
  ∧ (currentIndex x = 0 ∨ currentIndex x = 1).

(** The record of a variable after a pass with the given shader source and
    resources. *)
Definition afterPass (x : GPUComputeVariable) (fragment : string)
    (resources : gmap string nat) : GPUComputeVariable :=
  set_currentIndex (1 - currentIndex x)
    (set_paramsUniforms (passParams x)
       (set_shader (Some (mkShader fragment resources)) x)).








(** ** The two compute variables of the application *)

Module Runners.

(** The options of [createParticlesSimulationRunner]; [sdfTextures] holds
    the four elements of the array that the function reads, and the
    optional numbers are [None] when left out.  The renderer and the
    texture format play no part in the model. *)
Record ParticlesSimulationRunnerOptions := mkSimulationOptions {
  massMultiplier : Q;
  orbitMultiplier : Q;
  sdfTextures : RenderTexture * RenderTexture * RenderTexture * RenderTexture;
  movementTexture : RenderTexture;
  attributesTexture : RenderTexture;
  sdfResolutionMultiplier : Q;
  orbitOffset : Q;
  resolution : Q * Q;
  textureSize : Z * Z;
  stiffness : option Q;
  damping : option Q;
  globalDamping : option Q;
  tangentialDamping : option Q;
  noiseTexture : RenderTexture;
  tangentialNoiseAmplitude : option Q
}.

Definition f32 (x : Q) : UniformData := mkUniform (UNum x) "f32".
Definition vec2f32 (x y : Q) : UniformData := mkUniform (UVec [x; y]) "vec2<f32>".

Definition simulationOptions (simulationFragmentShader : string)
    (options : ParticlesSimulationRunnerOptions) : GPUComputeVariableOptions :=
  let '(sdf0, sdf1, sdf2, sdf3) := sdfTextures options in
  {| o_name := "uParticlesState";
     o_width := (textureSize options).1;
     o_height := (textureSize options).2;
     o_fragmentShader := simulationFragmentShader;
     o_uniforms := Some [
       ("dt", f32 0);
       ("uPhase", f32 0);
       ("stiffness", f32 (default (5 # 2)%Q (stiffness options)));
       ("damping", f32 (default (3 # 2)%Q (damping options)));
       ("globalDamping", f32 (default 0%Q (globalDamping options)));
       ("massMultiplier", f32 (massMultiplier options));
       ("orbitMultiplier", f32 (orbitMultiplier options));
       ("orbitOffset", f32 (orbitOffset options));
       ("sdfResolutionMultiplier", f32 (sdfResolutionMultiplier options));
       ("uSimResolution", vec2f32 (resolution options).1 (resolution options).2);
       ("uS", f32 (resolution options).1);
       ("uTexSize", vec2f32 (inject_Z (textureSize options).1)
                            (inject_Z (textureSize options).2));
       ("uTangentialDamping", f32 (default (1 # 10)%Q (tangentialDamping options)));
       ("tangentialNoiseAmplitude",
        f32 (default (1 # 10)%Q (tangentialNoiseAmplitude options)))];
     o_samplers := Some [
       ("uNoise", noiseTexture options);
       ("uAttributes", attributesTexture options);
       ("uSdf0", sdf0); ("uSdf1", sdf1); ("uSdf2", sdf2); ("uSdf3", sdf3)];
     o_initialTexture := None |}.

(** [createParticlesSimulationRunner(options)]; the source of the
    simulation shader is a parameter. *)
Definition createParticlesSimulationRunner (simulationFragmentShader : string)
    (options : ParticlesSimulationRunnerOptions) : M VarId :=
  simulation ← new_GPUComputeVariable
                  (simulationOptions simulationFragmentShader options);
  setInitialTexture simulation (movementTexture options);;
  setDependencies simulation [simulation];;
  init simulation;;
  mret simulation.




(** Example: a start-up with particle textures of 2 by 2 texels. *)
Definition exampleSimulationOptions : ParticlesSimulationRunnerOptions :=
  {| massMultiplier := 1%Q; orbitMultiplier := (1 # 10)%Q;
     sdfTextures := (mkTex 2 8 8, mkTex 3 8 8, mkTex 4 8 8, mkTex 5 8 8);
     movementTexture := mkTex 0 2 2; attributesTexture := mkTex 1 2 2;
     sdfResolutionMultiplier := (1 # 2)%Q; orbitOffset := 0%Q;
     resolution := (16%Q, 9%Q); textureSize := (2, 2);
     stiffness := None; damping := None; globalDamping := None;
     tangentialDamping := None; noiseTexture := mkTex 6 4 4;
     tangentialNoiseAmplitude := None |}.

Definition exampleStart : World :=
  set_nextTex 7%nat emptyWorld.


End Runners.

(** ** The fullscreen triangle of [renderToRt] *)

Module RenderToRt.

Local Open Scope R_scope.

(** The two buffers of [fullscreenTriangleGeometry]. *)
Definition aPosition : list R := [-1; -1; 3; -1; -1; 3].
Definition aUV : list R := [0; 0; 2; 0; 0; 2].

(** The attribute of the vertex [i] in a buffer of format [float32x2]. *)
Definition float32x2 (buffer : list R) (i : nat) : R * R :=
  (nth (2 * i) buffer 0, nth (2 * i + 1) buffer 0).

(** [fullscreenVertexShader]: [gl_Position] and the varying [vUV]. *)
Definition fullscreenVertexShader (aPosition aUV : R * R)
  : (R * R * R * R) * (R * R) :=
  ((aPosition.1, aPosition.2, 0, 1), aUV).

(** The outputs of the shader for the vertex [i] of the triangle. *)
Definition vertex (i : nat) : (R * R * R * R) * (R * R) :=
  fullscreenVertexShader (float32x2 aPosition i) (float32x2 aUV i).

Definition position (i : nat) : R * R :=
  let '(x, y, _, _) := (vertex i).1 in (x, y).

Definition vUV (i : nat) : R * R := (vertex i).2.

(** The value inside the triangle of a quantity given at its three
    vertices, at the barycentric weights [w0], [w1], [w2]. *)
Definition interpolate (w0 w1 w2 : R) (f : nat → R * R) : R * R :=
  (w0 * (f 0%nat).1 + w1 * (f 1%nat).1 + w2 * (f 2%nat).1,
   w0 * (f 0%nat).2 + w1 * (f 1%nat).2 + w2 * (f 2%nat).2).

End RenderToRt.

(** ** The particle vertex shader *)

Module ParticleVertexShader.

Import SimulationShader.
Local Open Scope R_scope.

(** The first statements of [main()]: the texel of the instance. *)
Definition texel (uParticleTexSize : vec2) (gl_InstanceID : Z) : Z * Z :=
  let instanceID := gl_InstanceID in
  let texWidth := toInt (v2x uParticleTexSize) in
  (Z.rem instanceID texWidth, Z.quot instanceID texWidth).

(** [particleUV], the coordinate at which the movement and the attributes
    of the instance are read. *)
Definition particleUV (uParticleTexSize : vec2) (gl_InstanceID : Z) : vec2 :=
  let '(x, y) := texel uParticleTexSize gl_InstanceID in
  vquot (vadd (mkVec2 (IZR x) (IZR y)) (mkVec2 0.5 0.5)) uParticleTexSize.

(** [instanceID % 4], the index of [uShakeAmplitude] and of [sampleSdf]. *)
Definition letter (gl_InstanceID : Z) : Z := Z.rem gl_InstanceID 4.

End ParticleVertexShader.

(** ** The particles renderer *)

Module ParticlesRenderer.

(** A texture source bound to the shader: the target of the renderer or a
    texture of the simulation. *)
Inductive Source :=
| TargetSource (id : nat)
| TextureSource (id : nat).

Record Target := mkTarget {
  target_id : nat;
  target_width : Q;
  target_height : Q
}.

(** A call of [renderer.render]: the target, whether it was alive, and
    what the mesh was drawn with. *)
Record Render := mkRender {
  r_target : Target;
  r_alive : bool;
  r_instanceCount : Z;
  r_movement : Source;
  r_attributes : Source;
  r_particleTexSize : Z * Z
}.

(** The textures created for renderers and the calls of [render]. *)
Record Pixi := mkPixi {
  nextTarget : nat;
  destroyedTargets : gset nat;
  rendered : list Render
}.

(** The fields of the class that its methods read or write;
    [instanceCount] is [quadGeometry.instanceCount], and the uniforms and
    resources are those of [particleShader]. *)
Record ParticlesRenderer := mkRenderer {
  width : Q;
  height : Q;
  targetTexture : Target;
  instanceCount : Z;
  currentInstanceCount : Z;
  uMovementTexture : Source;
  uAttributesTexture : Source;
  uParticleTexSize : Z * Z;
  uResolution : Q * Q;
  uTime : Q
}.

Definition RenderTexture_create (width height : Q) (g : Pixi) : Target * Pixi :=
  (mkTarget (nextTarget g) width height,
   mkPixi (S (nextTarget g)) (destroyedTargets g) (rendered g)).

Definition texture_destroy (t : Target) (g : Pixi) : Pixi :=
  mkPixi (nextTarget g) ({[target_id t]} ∪ destroyedTargets g) (rendered g).

(** [new ParticlesRenderer({ width, height, ... })]. *)
Definition new (width height : Q) (g : Pixi) : ParticlesRenderer * Pixi :=
  let '(targetTexture, g) := RenderTexture_create width height g in
  (mkRenderer width height targetTexture 0 0
     (TargetSource (target_id targetTexture))
     (TargetSource (target_id targetTexture))
     (1, 1) (width, height) 0%Q, g).

Definition updateOutputSize (width' height' : Q)
    (st : ParticlesRenderer * Pixi) : ParticlesRenderer * Pixi :=
  let '(this, g) := st in
  if Qeq_bool (width this) width' && Qeq_bool (height this) height' then (this, g)
  else
    let g := texture_destroy (targetTexture this) g in
    let '(targetTexture, g) := RenderTexture_create width' height' g in
    (mkRenderer width' height' targetTexture (instanceCount this)
       (currentInstanceCount this) (uMovementTexture this)
       (uAttributesTexture this) (uParticleTexSize this) (width', height')
       (uTime this), g).

Definition draw (movementTexture attributesTexture : RenderTexture) (uTime' : Q)
    (st : ParticlesRenderer * Pixi) : ParticlesRenderer * Pixi :=
  let '(this, g) := st in
  let texWidth := tex_width movementTexture in
  let texHeight := tex_height movementTexture in
  let particleCount := texWidth * texHeight in
  let changed := negb (currentInstanceCount this =? particleCount) in
  let this :=
    mkRenderer (width this) (height this) (targetTexture this)
      (if changed then particleCount else instanceCount this)
      (if changed then particleCount else currentInstanceCount this)
      (TextureSource (tex_id movementTexture))
      (TextureSource (tex_id attributesTexture))
      (texWidth, texHeight) (uResolution this) uTime' in
  (this,
   mkPixi (nextTarget g) (destroyedTargets g)
     (rendered g
      ++ [mkRender (targetTexture this)
            (bool_decide (target_id (targetTexture this) ∉ destroyedTargets g))
            (instanceCount this) (uMovementTexture this)
            (uAttributesTexture this) (uParticleTexSize this)])).

Definition getTexture (this : ParticlesRenderer) : Target := targetTexture this.

Definition getSize (this : ParticlesRenderer) : Q * Q := (width this, height this).

(** The calls of a client between construction and destruction. *)
Inductive Call :=
| CallUpdateOutputSize (width height : Q)
| CallDraw (movementTexture attributesTexture : RenderTexture) (uTime : Q).

Definition call (c : Call) (st : ParticlesRenderer * Pixi)
  : ParticlesRenderer * Pixi :=
  match c with
  | CallUpdateOutputSize w h => updateOutputSize w h st
  | CallDraw m a t => draw m a t st
  end.

Definition calls (l : list Call) (st : ParticlesRenderer * Pixi)
  : ParticlesRenderer * Pixi :=
  foldl (λ st c, call c st) st l.

(** What holds of a renderer made in the world [g0], between its calls:
    its target is alive and has the size that [getSize] and the uniform
    [uResolution] tell, the instance count of the geometry is the cached
    one, every other target made since [g0] is destroyed, none made
    before is, and every pass since [g0] went to a target that was alive,
    with one instance per texel of the movement texture it read. *)
Definition coherent (g0 : Pixi) (st : ParticlesRenderer * Pixi) : Prop :=
  let '(this, g) := st in
  target_id (targetTexture this) ∉ destroyedTargets g
  ∧ (nextTarget g0 <= target_id (targetTexture this) < nextTarget g)%nat
  ∧ (target_width (targetTexture this), target_height (targetTexture this))
    = getSize this
  ∧ uResolution this = getSize this
  ∧ instanceCount this = currentInstanceCount this
  ∧ (∀ i, (nextTarget g0 <= i < nextTarget g)%nat →
          i ≠ target_id (targetTexture this) → i ∈ destroyedTargets g)
  ∧ (∀ i, i ∈ destroyedTargets g →
          i ∈ destroyedTargets g0 ∨ (nextTarget g0 <= i < nextTarget g)%nat)
  ∧ ∃ passes,
      rendered g = rendered g0 ++ passes
      ∧ Forall (λ r, r_alive r = true
                     ∧ r_instanceCount r
                       = (r_particleTexSize r).1 * (r_particleTexSize r).2)
          passes.

End ParticlesRenderer.

(** * Properties *)

(** ** Strings *)

Lemma sapp_cons (c : ascii) (a b : string) : String c a +:+ b = String c (a +:+ b).
Proof. done. Qed.

Lemma sapp_nil_l (s : string) : "" +:+ s = s.
Proof. done. Qed.

Lemma sapp_nil_r (s : string) : s +:+ "" = s.
Proof. induction s as [|c s IH]; [done|]. by rewrite sapp_cons, IH. Qed.

Lemma sapp_assoc (a b c : string) : (a +:+ b) +:+ c = a +:+ (b +:+ c).
Proof. induction a as [|x a IH]; [done|]. by rewrite !sapp_cons, IH. Qed.

Lemma contains_app_r (n a b : string) : contains n b → contains n (a +:+ b).
Proof.
  intros (pre & post & ->). exists (a +:+ pre), post.
  by rewrite sapp_assoc.
Qed.

Lemma contains_app_l (n a b : string) : contains n a → contains n (a +:+ b).
Proof.
  intros (pre & post & ->). exists pre, (post +:+ b).
  by rewrite !sapp_assoc.
Qed.

Lemma contains_here (n b : string) : contains n (n +:+ b).
Proof. by exists "", b. Qed.

Lemma errPrefix_contains (this : GPUComputeVariable) (rest : string) :
  contains (name this) (errPrefix this +:+ rest).
Proof.
  unfold errPrefix. apply contains_app_l.
  do 2 apply contains_app_r. apply contains_here.
Qed.

(** ** The monad *)

Lemma bind_Ok {A B} (m : M A) (k : A → M B) s a s' :
  m s = (Ok a, s') → (m ≫= k) s = k a s'.
Proof. intros H. unfold mbind, M_bind. by rewrite H. Qed.

Lemma bind_Throw {A B} (m : M A) (k : A → M B) s e s' :
  m s = (Throw e, s') → (m ≫= k) s = (Throw e, s').
Proof. intros H. unfold mbind, M_bind. by rewrite H. Qed.

Lemma getVar_Some v s x : vars s !! v = Some x → getVar v s = (Ok x, s).
Proof. intros H. unfold getVar. by rewrite H. Qed.

(** ** C8: seeding errors *)

(** C8. Seeding a variable whose [initialized] flag is set (the state
    [init()] leaves it in) throws an error naming the variable, for each of
    [fillTexture], [fillTextureFrom] and [setInitialTexture]; [fillTexture]
    also throws when the buffer length is not [width*height*4], and
    [setInitialTexture] when the texture's width or height differs from the
    variable's.  Every such throw leaves the world unchanged. *)
Theorem seeding_errors (s : World) (v : VarId) (this : GPUComputeVariable)
    (Hthis : vars s !! v = Some this) :
  (∀ s0, init v s0 = (Ok tt, s) → initialized this = true) ∧
  (initialized this = true →
     (∀ data, ∃ msg, fillTexture v data s = (Throw msg, s)
                     ∧ contains (name this) msg) ∧
     (∀ source, ∃ msg, fillTextureFrom v source s = (Throw msg, s)
                       ∧ contains (name this) msg) ∧
     (∀ texture, ∃ msg, setInitialTexture v texture s = (Throw msg, s)
                        ∧ contains (name this) msg)) ∧
  (∀ data, Z.of_nat (length data) ≠ width this * height this * 4 →
     ∃ msg, fillTexture v data s = (Throw msg, s) ∧ contains (name this) msg) ∧
  (∀ texture,
     tex_width texture ≠ width this ∨ tex_height texture ≠ height this →
     ∃ msg, setInitialTexture v texture s = (Throw msg, s)
            ∧ contains (name this) msg).
Proof.
  split; [|split; [|split]].
  - intros s0 Hinit. unfold init in Hinit.
    unfold mbind, M_bind in Hinit.
    destruct (getVar v s0) as [[x|e] s1] eqn:Hg; [|done].
    destruct (initialized x); [done|].
    unfold modifyVar at 1 in Hinit.
    destruct (ensureTextures v _) as [[[]|e] s2]; [|done].
    destruct (createShader v s2) as [[[]|e] s3]; [|done].
    unfold modifyVar in Hinit. simplify_eq/=.
    rewrite lookup_alter_eq in Hthis.
    destruct (vars s3 !! v); by simplify_eq/=.
  - intros Hinit. repeat split.
    + intros data. unfold fillTexture.
      rewrite (bind_Ok _ _ _ _ _ (getVar_Some _ _ _ Hthis)), Hinit.
      case_bool_decide; eexists; (split; [done|apply errPrefix_contains]).
    + intros source. unfold fillTextureFrom.
      rewrite (bind_Ok _ _ _ _ _ (getVar_Some _ _ _ Hthis)), Hinit.
      eexists; (split; [done|apply errPrefix_contains]).
    + intros texture. unfold setInitialTexture.
      rewrite (bind_Ok _ _ _ _ _ (getVar_Some _ _ _ Hthis)), Hinit.
      eexists; (split; [done|apply errPrefix_contains]).
  - intros data Hlen. unfold fillTexture.
    rewrite (bind_Ok _ _ _ _ _ (getVar_Some _ _ _ Hthis)).
    rewrite bool_decide_eq_true_2 by done.
    eexists; (split; [done|apply errPrefix_contains]).
  - intros texture Hdim. unfold setInitialTexture.
    rewrite (bind_Ok _ _ _ _ _ (getVar_Some _ _ _ Hthis)).
    destruct (initialized this).
    + eexists; (split; [done|apply errPrefix_contains]).
    + assert (bool_decide (tex_width texture ≠ width this)
              || bool_decide (tex_height texture ≠ height this) = true) as ->.
      { destruct Hdim; [rewrite bool_decide_eq_true_2 by done; done|].
        rewrite (bool_decide_eq_true_2 (tex_height _ ≠ _)) by done.
        by rewrite orb_true_r. }
      eexists; (split; [done|apply errPrefix_contains]).
Qed.

(** ** Facts about the heap *)

Lemma alter_known {A} (f : A → A) (m : gmap VarId A) (v : VarId) (x : A) :
  m !! v = Some x → alter f v m = <[v := f x]> m.
Proof.
  intros H. apply map_eq. intros w. destruct (decide (v = w)) as [->|Hne].
  - by rewrite lookup_alter_eq, lookup_insert_eq, H.
  - by rewrite lookup_alter_ne, lookup_insert_ne.
Qed.

Lemma modifyVar_known v f s x :
  vars s !! v = Some x →
  modifyVar v f s = (Ok tt, set_vars (<[v := f x]> (vars s)) s).
Proof. intros H. unfold modifyVar. by rewrite (alter_known _ _ _ _ H). Qed.

Lemma set_vars_insert_insert v (x y : GPUComputeVariable) m s :
  set_vars (<[v := y]> (vars (set_vars (<[v := x]> m) s))) (set_vars (<[v := x]> m) s)
  = set_vars (<[v := y]> m) s.
Proof. unfold set_vars. simpl. by rewrite insert_insert_eq. Qed.

Lemma set_pingTexture_id x p : pingTexture x = Some p → set_pingTexture (Some p) x = x.
Proof. intros H. destruct x; simpl in *; by subst. Qed.

Lemma set_pongTexture_id x p : pongTexture x = Some p → set_pongTexture (Some p) x = x.
Proof. intros H. destruct x; simpl in *; by subst. Qed.

Lemma world_eq s s' :
  vars s = vars s' → nextVar s = nextVar s' → nextTex s = nextTex s' →
  destroyedTex s = destroyedTex s' → trace s = trace s' → s = s'.
Proof. destruct s, s'; simpl; by intros -> -> -> -> ->. Qed.

Lemma ensureTextures_run v s x :
  vars s !! v = Some x →
  ensureTextures v s
  = (Ok tt, set_nextTex (ensured x (nextTex s)).2
              (set_vars (<[v := (ensured x (nextTex s)).1]> (vars s)) s)).
Proof.
  intros Hv. unfold ensureTextures, ensured.
  rewrite (bind_Ok _ _ _ _ _ (getVar_Some _ _ _ Hv)).
  destruct (pingTexture x) as [p|] eqn:Hp.
  - unfold mbind at 1, M_bind at 1, mret, M_ret.
    rewrite (bind_Ok _ _ _ _ _ (getVar_Some _ _ _ Hv)).
    destruct (pongTexture x) as [q|] eqn:Hq.
    + f_equal. apply world_eq; simpl; try done.
      rewrite set_pingTexture_id, set_pongTexture_id by done.
      by rewrite insert_id.
    + destruct (needsPingPong x) eqn:Hn.
      * unfold createTexture, RenderTexture_create, mbind, M_bind.
        unfold modifyVar. simpl. f_equal. apply world_eq; simpl; try done.
        rewrite (alter_known _ _ _ _ Hv).
        by rewrite set_pingTexture_id by done.
      * rewrite (modifyVar_known _ _ _ _ Hv). f_equal.
        apply world_eq; simpl; try done.
        by rewrite set_pingTexture_id, Hp by done.
  - unfold createTexture, RenderTexture_create.
    unfold mbind, M_bind, modifyVar, getVar. simpl.
    rewrite lookup_alter_eq, Hv. simpl.
    destruct (pongTexture x) as [q|] eqn:Hq; simpl.
    + f_equal. apply world_eq; simpl; try done.
      rewrite (alter_known _ _ _ _ Hv).
      f_equal. destruct x; simpl in *; by subst.
    + destruct (needsPingPong x) eqn:Hn; simpl.
      * f_equal. apply world_eq; simpl; try done.
        rewrite (alter_known _ _ _ _ Hv).
        rewrite (alter_known _ _ _ (set_pingTexture _ x)) by apply lookup_insert_eq.
        by rewrite insert_insert_eq.
      * f_equal. apply world_eq; simpl; try done.
        rewrite (alter_known _ _ _ _ Hv).
        rewrite (alter_known _ _ _ (set_pingTexture _ x)) by apply lookup_insert_eq.
        by rewrite insert_insert_eq.
Qed.

(** ** C5: the force gate of the simulation pass *)

(** C5. In the simulation pass a particle whose [initEnd] exceeds [uPhase]
    receives the total force zero; if moreover its stored velocity is zero,
    the pass writes back exactly the state it read (position and velocity
    unchanged). *)
Theorem inert_particle_fixed_point
    (u : SimulationShader.Uniforms) (t : SimulationShader.Samplers)
    (vUV : SimulationShader.vec2) :
  let l := SimulationShader.prologue u t vUV in
  (SimulationShader.initEnd l > SimulationShader.uPhase u)%R →
  SimulationShader.F_total u t l = SimulationShader.zero2 ∧
  (SimulationShader.velocity l = SimulationShader.zero2 →
   SimulationShader.main u t vUV = SimulationShader.uParticlesState t vUV).
Proof.
  intros l Hgate.
  assert (SimulationShader.F_total u t l = SimulationShader.zero2) as HF.
  { unfold SimulationShader.F_total.
    destruct (Rle_dec (SimulationShader.initEnd l) (SimulationShader.uPhase u));
      [lra|done]. }
  split; [done|]. intros Hvel.
  unfold SimulationShader.main. fold l. rewrite HF.
  unfold SimulationShader.integrate. rewrite Hvel.
  subst l. unfold SimulationShader.prologue in *. simpl in *.
  destruct (SimulationShader.uParticlesState t vUV) as [px py vx vy].
  simpl in *. unfold SimulationShader.zero2 in Hvel.
  injection Hvel as -> ->.
  unfold Rdiv. f_equal; ring.
Qed.

Lemma inert_particle_fixed_point_witness :
  SimulationShader.F_total SimulationShader.exampleUniforms
    SimulationShader.exampleSamplers
    (SimulationShader.prologue SimulationShader.exampleUniforms
       SimulationShader.exampleSamplers (SimulationShader.mkVec2 0 0))
  = SimulationShader.zero2
  ∧ SimulationShader.main SimulationShader.exampleUniforms
      SimulationShader.exampleSamplers (SimulationShader.mkVec2 0 0)
    = SimulationShader.mkVec4 0.25 0.5 0 0.
Proof.
  pose proof (inert_particle_fixed_point SimulationShader.exampleUniforms
                SimulationShader.exampleSamplers (SimulationShader.mkVec2 0 0)) as H.
  simpl in H.
  destruct H as [HF Hmain]; [lra|].
  split; [exact HF|]. apply Hmain. reflexivity.
Defined.

Lemma seeding_errors_witness :
  (∃ msg, fillTexture 0%nat [] exampleInitialized = (Throw msg, exampleInitialized)
          ∧ contains "state" msg) ∧
  (∃ msg, fillTextureFrom 0%nat (mkTex 0 4 4) exampleInitialized
          = (Throw msg, exampleInitialized) ∧ contains "state" msg) ∧
  (∃ msg, setInitialTexture 0%nat (mkTex 0 4 4) exampleInitialized
          = (Throw msg, exampleInitialized) ∧ contains "state" msg) ∧
  (∃ msg, fillTexture 0%nat [1%Q] exampleFresh = (Throw msg, exampleFresh)
          ∧ contains "state" msg) ∧
  (∃ msg, setInitialTexture 0%nat (mkTex 0 4 4) exampleFresh
          = (Throw msg, exampleFresh) ∧ contains "state" msg).
Proof.
  assert (vars exampleInitialized !! 0%nat = Some (exampleVar exampleInitialized))
    as Hi by (vm_compute; reflexivity).
  assert (vars exampleFresh !! 0%nat = Some (exampleVar exampleFresh))
    as Hf by (vm_compute; reflexivity).
  destruct (seeding_errors _ _ _ Hi) as (Hinit & Hafter & _ & _).
  destruct (seeding_errors _ _ _ Hf) as (_ & _ & Hlen & Hdim).
  assert (initialized (exampleVar exampleInitialized) = true) as Hflag.
  { apply (Hinit exampleFresh). vm_compute. reflexivity. }
  destruct (Hafter Hflag) as (H1 & H2 & H3).
  repeat split.
  - apply (H1 []).
  - apply (H2 (mkTex 0 4 4)).
  - apply (H3 (mkTex 0 4 4)).
  - apply (Hlen [1%Q]). vm_compute. discriminate.
  - apply (Hdim (mkTex 0 4 4)). left. vm_compute. discriminate.
Defined.

(** ** C7: shader assembly *)

Lemma span_spec p s a b :
  span p s = (a, b) →
  s = a +:+ b ∧ all_chars p a = true
  ∧ match b with String c _ => p c = false | "" => True end.
Proof.
  revert a b. induction s as [|c s IH]; intros a b H; simpl in H.
  - by simplify_eq.
  - destruct (p c) eqn:Hc.
    + destruct (span p s) as [a' b'] eqn:Hs. simplify_eq.
      destruct (IH _ _ eq_refl) as (-> & Ha & Hb).
      split; [done|]. split; [|done]. simpl. by rewrite Hc, Ha.
    + simplify_eq. by rewrite Hc.
Qed.

Lemma span_unique p a b :
  all_chars p a = true →
  match b with String c _ => p c = false | "" => True end →
  span p (a +:+ b) = (a, b).
Proof.
  intros Ha Hb. induction a as [|c a IH]; simpl in *.
  - rewrite sapp_nil_l. destruct b as [|c b]; [done|]. simpl. by rewrite Hb.
  - apply andb_true_iff in Ha as [Hc Ha]. by rewrite Hc, (IH Ha).
Qed.

Lemma strip_prefix_app p r : strip_prefix p (p +:+ r) = Some r.
Proof.
  induction p as [|c p IH]; [by destruct r|].
  rewrite sapp_cons. simpl. by rewrite Ascii.eqb_refl.
Qed.

Lemma strip_prefix_Some p s r : strip_prefix p s = Some r → s = p +:+ r.
Proof.
  revert s. induction p as [|c p IH]; intros s H.
  - destruct s; by simplify_eq/=.
  - destruct s as [|c' s]; [done|]. simpl in H.
    destruct (Ascii.eqb c c') eqn:Hc; [|done].
    apply Ascii.eqb_eq in Hc as ->. by rewrite (IH _ H).
Qed.

Lemma split_line_app l rest :
  all_chars not_newline l = true → split_line (l +:+ nl +:+ rest) = Some (l, rest).
Proof.
  intros Hl. induction l as [|c l IH]; [done|].
  simpl in Hl. apply andb_true_iff in Hl as [Hc Hl].
  rewrite sapp_cons. simpl. unfold not_newline in Hc.
  apply negb_true_iff in Hc. by rewrite Hc, (IH Hl).
Qed.

Lemma split_line_Some s l rest :
  split_line s = Some (l, rest) →
  s = l +:+ nl +:+ rest ∧ all_chars not_newline l = true.
Proof.
  revert l. induction s as [|c s IH]; intros l H; [done|]. simpl in H.
  destruct (Ascii.eqb c "010") eqn:Hc.
  - apply Ascii.eqb_eq in Hc as ->. by simplify_eq.
  - destruct (split_line s) as [[l' rest']|]; [|done]. simplify_eq.
    destruct (IH _ eq_refl) as [-> Hl]. split; [done|].
    simpl. unfold not_newline at 1. by rewrite Hc.
Qed.

(** The regular expression of the preamble matches exactly the bodies that
    start with white space, "#version" and the rest of that line. *)
Lemma matchVersion_Some shader preamble rest :
  matchVersion shader = Some (preamble, rest) ↔
  ∃ ws line, all_chars is_space ws = true ∧ all_chars not_newline line = true
             ∧ preamble = ws +:+ "#version" +:+ line +:+ nl
             ∧ shader = preamble +:+ rest.
Proof.
  unfold matchVersion. split.
  - destruct (span is_space shader) as [ws r] eqn:Hs.
    apply span_spec in Hs as (-> & Hws & _).
    destruct (strip_prefix "#version" r) as [r'|] eqn:Hr; [|done].
    apply strip_prefix_Some in Hr as ->.
    destruct (split_line r') as [[l rest']|] eqn:Hl; [|done].
    apply split_line_Some in Hl as [-> Hl]. intros ?; simplify_eq.
    exists ws, l. repeat split; try done. by rewrite !sapp_assoc.
  - intros (ws & line & Hws & Hline & -> & ->).
    replace ((ws +:+ "#version" +:+ line +:+ nl) +:+ rest)
      with (ws +:+ ("#version" +:+ line +:+ nl +:+ rest))
      by (by rewrite !sapp_assoc).
    rewrite span_unique by done.
    rewrite (strip_prefix_app "#version").
    by rewrite (split_line_app _ _ Hline).
Qed.

Lemma sconcat_app l1 l2 : sconcat (l1 ++ l2) = sconcat l1 +:+ sconcat l2.
Proof.
  induction l1 as [|a l1 IH]; [done|].
  simpl. by rewrite IH, sapp_assoc.
Qed.

Lemma declareSamplers_spec src names acc :
  declareSamplers src names acc
  = acc +:+ sconcat (declarationText <$>
                       ((λ n, ("sampler2D", n)) <$>
                          filter (λ n, isUniformDeclared src n = false) names)).
Proof.
  revert acc. induction names as [|n names IH]; intros acc; simpl.
  - by rewrite sapp_nil_r.
  - rewrite filter_cons. destruct (isUniformDeclared src n) eqn:Hn.
    + rewrite decide_False by done. apply IH.
    + rewrite decide_True by done. rewrite IH. simpl.
      by rewrite sapp_assoc.
Qed.

Lemma declareUniforms_spec this us acc :
  Forall (λ p, isUniformDeclared (fragmentShader this) p.1 = false →
               is_Some (PIXI_TO_GLSL_TYPE (u_type p.2))) us →
  declareUniforms this us acc
  = Ok (acc +:+ sconcat (declarationText <$>
          omap (λ p, if isUniformDeclared (fragmentShader this) p.1 then None
                     else (λ ty, (ty, p.1)) <$> PIXI_TO_GLSL_TYPE (u_type p.2)) us)).
Proof.
  intros H. revert acc. induction H as [|[key d] us Hp _ IH]; intros acc; simpl.
  - by rewrite sapp_nil_r.
  - destruct (isUniformDeclared (fragmentShader this) key) eqn:Hk; [apply IH|].
    destruct (Hp Hk) as [ty Hty]. simpl in Hty. rewrite Hty. simpl.
    rewrite IH. by rewrite sapp_assoc.
Qed.

Lemma declareUniforms_Ok this us acc r :
  declareUniforms this us acc = Ok r →
  Forall (λ p, isUniformDeclared (fragmentShader this) p.1 = false →
               is_Some (PIXI_TO_GLSL_TYPE (u_type p.2))) us.
Proof.
  revert acc. induction us as [|[key d] us IH]; intros acc H; [constructor|].
  simpl in H. destruct (isUniformDeclared (fragmentShader this) key) eqn:Hk.
  - constructor; [by simpl; rewrite Hk|by eapply IH].
  - destruct (PIXI_TO_GLSL_TYPE (u_type d)) eqn:Hty; [|done].
    constructor; [by simpl; rewrite Hty|by eapply IH].
Qed.

Lemma fullFragmentShader_spec this depNames :
  uniformKindsKnown this →
  fullFragmentShader this depNames
  = Ok (injectShaderCode (fragmentShader this) (generatedCode this depNames)).
Proof.
  intros H. unfold fullFragmentShader, generatedCode, generatedDeclarations.
  rewrite (declareUniforms_spec _ _ _ H).
  rewrite !declareSamplers_spec. do 2 f_equal.
  rewrite filter_app, !fmap_app, !sconcat_app.
  by rewrite !sapp_assoc.
Qed.

Lemma generatedDeclarations_names this depNames :
  (generatedDeclarations this depNames).*2
  `sublist_of` depNames ++ (samplers this).*1 ++ (uniforms this).*1.
Proof.
  unfold generatedDeclarations. rewrite fmap_app, (assoc_L (++)).
  apply sublist_app.
  - assert (∀ l : list string, ((λ n, ("sampler2D", n)) <$> l).*2 = l) as ->.
    { induction l as [|n l IH]; [done|]. rewrite !fmap_cons. simpl. by f_equal. }
    apply sublist_filter.
  - induction (uniforms this) as [|[key d] us IH]; [done|]. simpl.
    destruct (isUniformDeclared (fragmentShader this) key);
      [by apply sublist_cons|].
    destruct (PIXI_TO_GLSL_TYPE (u_type d)); simpl;
      [by apply sublist_skip|by apply sublist_cons].
Qed.

Lemma generatedDeclarations_undeclared this depNames d :
  d ∈ generatedDeclarations this depNames →
  isUniformDeclared (fragmentShader this) d.2 = false.
Proof.
  unfold generatedDeclarations. rewrite elem_of_app. intros [H|H].
  - apply list_elem_of_fmap in H as (n & -> & Hn).
    by apply list_elem_of_filter in Hn as [Hn _].
  - apply list_elem_of_omap in H as ([key u] & _ & Hd). simpl in Hd.
    destruct (isUniformDeclared (fragmentShader this) key) eqn:Hk; [done|].
    destruct (PIXI_TO_GLSL_TYPE (u_type u)); by simplify_eq/=.
Qed.


(** *** The test for a declaration and the text of the body *)

Lemma is_word_not_space c : is_word c = true → is_space c = false.
Proof. destruct c as [[] [] [] [] [] [] [] []]; by vm_compute. Qed.

Lemma is_space_not_word c : is_space c = true → is_word c = false.
Proof.
  intros H. destruct (is_word c) eqn:Hw; [|done].
  by rewrite (is_word_not_space _ Hw) in H.
Qed.

Lemma all_chars_app p a b :
  all_chars p (a +:+ b) = all_chars p a && all_chars p b.
Proof.
  induction a as [|c a IH]; [by rewrite sapp_nil_l|].
  rewrite sapp_cons. simpl. by rewrite IH, andb_assoc.
Qed.

Lemma skip_bracket_spec r r' :
  skip_bracket r = Some r' ↔
  ∃ inner, r = inner +:+ "]" +:+ r' ∧ all_chars not_bracket inner = true.
Proof.
  split.
  - revert r'. induction r as [|c r IH]; intros r' H; [done|]. simpl in H.
    destruct (Ascii.eqb c "]") eqn:Hc.
    + apply Ascii.eqb_eq in Hc as ->. simplify_eq. by exists "".
    + destruct (IH _ H) as (inner & -> & Hin). exists (String c inner).
      split; [done|]. simpl. unfold not_bracket at 1. by rewrite Hc.
  - intros (inner & -> & Hin). induction inner as [|c inner IH]; [done|].
    simpl in Hin. apply andb_true_iff in Hin as [Hc Hin].
    rewrite sapp_cons. simpl. unfold not_bracket in Hc.
    apply negb_true_iff in Hc. rewrite Hc. by apply IH.
Qed.

Lemma span_space_word ws w r :
  all_chars is_space ws = true → all_chars is_word w = true → w ≠ "" →
  span is_space (ws +:+ w +:+ r) = (ws, w +:+ r).
Proof.
  intros Hws Hw Hne. apply span_unique; [done|].
  destruct w as [|c w]; [done|]. rewrite sapp_cons.
  simpl in Hw. apply andb_true_iff in Hw as [Hc _].
  by apply is_word_not_space.
Qed.

Lemma span_word_space w ws r :
  all_chars is_word w = true → all_chars is_space ws = true → ws ≠ "" →
  span is_word (w +:+ ws +:+ r) = (w, ws +:+ r).
Proof.
  intros Hw Hws Hne. apply span_unique; [done|].
  destruct ws as [|c ws]; [done|]. rewrite sapp_cons.
  simpl in Hws. apply andb_true_iff in Hws as [Hc _].
  by apply is_space_not_word.
Qed.

Lemma declarationEnd_spec r5 :
  match skip_array (span is_space r5).2 with
  | None => false
  | Some r7 => match (span is_space r7).2 with
               | String c _ => Ascii.eqb c ";"
               | "" => false
               end
  end = true ↔ declarationEnd r5.
Proof.
  split.
  - destruct (span is_space r5) as [ws3 r6] eqn:H3.
    apply span_spec in H3 as (-> & Hws3 & Hr6). simpl.
    destruct (skip_array r6) as [r7|] eqn:Ha; [|done].
    destruct (span is_space r7) as [ws4 r8] eqn:H4.
    apply span_spec in H4 as (-> & Hws4 & _). simpl.
    destruct r8 as [|c post]; [done|]. intros Hc.
    apply Ascii.eqb_eq in Hc as ->.
    unfold skip_array in Ha. destruct r6 as [|c r]; [|].
    + injection Ha as Ha. by destruct ws4.
    + destruct (Ascii.eqb c "[") eqn:Hc.
      * apply Ascii.eqb_eq in Hc as ->.
        apply skip_bracket_spec in Ha as (inner & -> & Hin).
        exists ws3, ("[" +:+ inner +:+ "]"), ws4, post.
        split_and!; try done; [|right; by exists inner].
        f_equal. by rewrite !sapp_assoc.
      * injection Ha as Ha. rewrite Ha.
        exists ws3, "", ws4, post. split_and!; try done. by left.
  - intros (ws3 & arr & ws4 & post & -> & Hws3 & Harr & Hws4).
    destruct Harr as [->|(inner & -> & Hin)].
    + rewrite sapp_nil_l.
      replace (ws3 +:+ ws4 +:+ ";" +:+ post)
        with ((ws3 +:+ ws4) +:+ ";" +:+ post) by (by rewrite !sapp_assoc).
      rewrite span_unique; [|by rewrite all_chars_app, Hws3, Hws4|done].
      simpl. done.
    + replace (ws3 +:+ ("[" +:+ inner +:+ "]") +:+ ws4 +:+ ";" +:+ post)
        with (ws3 +:+ String "[" (inner +:+ "]" +:+ (ws4 +:+ ";" +:+ post)))
        by (by rewrite !sapp_assoc).
      rewrite span_unique by done. simpl.
      assert (skip_bracket (inner +:+ "]" +:+ (ws4 +:+ ";" +:+ post))
              = Some (ws4 +:+ ";" +:+ post)) as ->.
      { apply skip_bracket_spec. by exists inner. }
      rewrite span_unique by done. done.
Qed.

Lemma matchDeclAt_spec n s :
  wordName n →
  matchDeclAt n s = true ↔
  ∃ ws1 ty ws2 r5,
    s = "uniform" +:+ ws1 +:+ ty +:+ ws2 +:+ n +:+ r5
    ∧ ws1 ≠ "" ∧ all_chars is_space ws1 = true
    ∧ ty ≠ "" ∧ all_chars is_word ty = true
    ∧ ws2 ≠ "" ∧ all_chars is_space ws2 = true
    ∧ declarationEnd r5.
Proof.
  intros [Hne Hn]. unfold matchDeclAt. split.
  - destruct (strip_prefix "uniform" s) as [r1|] eqn:H0; [|done].
    apply strip_prefix_Some in H0 as ->.
    destruct (span is_space r1) as [ws1 r2] eqn:H1.
    apply span_spec in H1 as (-> & Hws1 & _).
    destruct (span is_word r2) as [ty r3] eqn:H2.
    apply span_spec in H2 as (-> & Hty & _).
    destruct (span is_space r3) as [ws2 r4] eqn:H3.
    apply span_spec in H3 as (-> & Hws2 & _).
    destruct ws1 as [|c1 ws1]; [done|]. destruct ty as [|c2 ty]; [done|].
    destruct ws2 as [|c3 ws2]; [done|].
    destruct (strip_prefix n r4) as [r5|] eqn:H4; [|done].
    apply strip_prefix_Some in H4 as ->.
    intros H. apply declarationEnd_spec in H.
    exists (String c1 ws1), (String c2 ty), (String c3 ws2), r5.
    split_and!; done.
  - intros (ws1 & ty & ws2 & r5 & -> & Hn1 & Hws1 & Hn2 & Hty & Hn3 & Hws2 & Hend).
    rewrite (strip_prefix_app "uniform").
    rewrite span_space_word by done.
    rewrite span_word_space by done.
    rewrite span_space_word by done.
    destruct ws1 as [|c1 ws1]; [done|]. destruct ty as [|c2 ty]; [done|].
    destruct ws2 as [|c3 ws2]; [done|].
    rewrite strip_prefix_app. by apply declarationEnd_spec.
Qed.

Lemma searchDecl_spec n prev s :
  searchDecl n prev s = true ↔
  ∃ pre suf, s = pre +:+ suf ∧ matchDeclAt n suf = true
             ∧ (if pre is "" then prev = false else endsWithWord pre = false).
Proof.
  split.
  - revert prev. induction s as [|c s IH]; intros prev H.
    + simpl in H. rewrite orb_false_r in H.
      apply andb_true_iff in H as [Hp Hm]. apply negb_true_iff in Hp.
      by exists "", "".
    + simpl in H. apply orb_true_iff in H as [H|H].
      * apply andb_true_iff in H as [Hp Hm]. apply negb_true_iff in Hp.
        by exists "", (String c s).
      * destruct (IH _ H) as (pre & suf & -> & Hm & Hpre).
        exists (String c pre), suf. split_and!; [done|done|].
        destruct pre; done.
  - intros (pre & suf & -> & Hm & Hpre). revert prev Hpre.
    induction pre as [|c pre IH]; intros prev Hpre.
    + rewrite sapp_nil_l. destruct suf; simpl; rewrite Hpre, Hm; done.
    + rewrite sapp_cons. simpl. apply orb_true_iff. right. apply IH.
      destruct pre; done.
Qed.

(** The test of [isUniformDeclared] holds exactly of the bodies that
    declare the name. *)
Lemma isUniformDeclared_spec body n :
  wordName n → isUniformDeclared body n = true ↔ declares body n.
Proof.
  intros Hn. unfold isUniformDeclared. rewrite searchDecl_spec. split.
  - intros (pre & suf & -> & Hm & Hpre).
    apply (matchDeclAt_spec _ _ Hn) in Hm
      as (ws1 & ty & ws2 & r5 & -> & ? & ? & ? & ? & ? & ?
          & (ws3 & arr & ws4 & post & -> & ? & ? & ?)).
    exists pre, ws1, ty, ws2, ws3, arr, ws4, post. split_and!; try done.
    by destruct pre.
  - intros (pre & ws1 & ty & ws2 & ws3 & arr & ws4 & post & -> & Hpre & ?
            & ? & ? & ? & ? & ? & ? & ? & ?).
    exists pre, ("uniform" +:+ ws1 +:+ ty +:+ ws2 +:+ n +:+ ws3 +:+ arr
                 +:+ ws4 +:+ ";" +:+ post).
    split_and!; [done| |by destruct pre].
    apply (matchDeclAt_spec _ _ Hn).
    exists ws1, ty, ws2, (ws3 +:+ arr +:+ ws4 +:+ ";" +:+ post).
    split_and!; try done. by exists ws3, arr, ws4, post.
Qed.

Lemma sampler_names (l : list string) : ((λ n, ("sampler2D", n)) <$> l).*2 = l.
Proof. induction l as [|n l IH]; [done|]. rewrite !fmap_cons. simpl. by f_equal. Qed.

(** When the assembly succeeds, the declared names are the listed names
    that fail the test, in their order and with their repetitions. *)
Lemma generatedDeclarations_filter this depNames :
  uniformKindsKnown this →
  (generatedDeclarations this depNames).*2
  = filter (λ n, isUniformDeclared (fragmentShader this) n = false)
      (listedNames this depNames).
Proof.
  intros Hk. unfold generatedDeclarations, listedNames.
  rewrite fmap_app, sampler_names, (assoc_L (++)), (filter_app _ (_ ++ _)).
  f_equal. unfold uniformKindsKnown in Hk.
  induction Hk as [|[key d] us Hp _ IH]; [done|]. simpl in *.
  rewrite filter_cons. simpl.
  destruct (isUniformDeclared (fragmentShader this) key) eqn:Hd.
  - by rewrite decide_False by done.
  - rewrite decide_True by done. destruct (Hp eq_refl) as [ty ->]. simpl.
    by f_equal.
Qed.

Lemma occurrences_filter (P : string → Prop) `{∀ x, Decision (P x)} n l :
  P n → occurrences n (filter P l) = occurrences n l.
Proof.
  intros Hn. unfold occurrences. induction l as [|m l IH]; [done|].
  rewrite !filter_cons. destruct (decide (P m)) as [Hm|Hm].
  - rewrite filter_cons. destruct (decide (m = n)); simpl; by rewrite IH.
  - rewrite IH. destruct (decide (m = n)) as [->|]; done.
Qed.

Lemma occurrences_sublist n l1 l2 :
  l1 `sublist_of` l2 → n ∉ l2 → occurrences n l1 = occurrences n l2.
Proof.
  intros Hsub Hn. unfold occurrences.
  assert (∀ l, n ∉ l → filter (λ m, m = n) l = []) as Hnil.
  { intros l Hl. induction l as [|m l IH]; [done|].
    apply not_elem_of_cons in Hl as [Hm Hl]. rewrite filter_cons.
    rewrite decide_False by done. by apply IH. }
  rewrite (Hnil l2 Hn), (Hnil l1); [done|].
  intros Hin. apply Hn. by eapply elem_of_sublist.
Qed.

(** A check of [wordName] by computation. *)
Lemma wordNames_check (l : list string) :
  forallb (λ n, negb (String.eqb n "") && all_chars is_word n) l = true →
  Forall wordName l.
Proof.
  induction l as [|n l IH]; intros Hl; [constructor|]. simpl in Hl.
  apply andb_true_iff in Hl as [Hn Hl]. apply andb_true_iff in Hn as [Hne Hw].
  constructor; [|by apply IH]. split; [|done]. by intros ->.
Qed.

(** C7, corrected.  For names that are identifiers and sizes that print
    in fixed notation.  The test for a declaration holds exactly of the
    bodies that declare the name; the assembly succeeds exactly when every
    uniform that needs a declaration has a known kind, and the fragment is
    then the body with the generated code injected: the resolution
    constant followed by the declarations.  A name that the body declares
    gets no declaration; a name that it does not declare gets one
    declaration for each time it is listed (as the name of a dependency,
    as a static sampler or as a uniform), in the order of the lists, so
    that names listed once are declared at most once.  The code is placed
    right after the leading "#version" line when the body has one and in
    front of the body otherwise. *)
Theorem shader_assembly (this : GPUComputeVariable) (depNames : list string) :
  let body := fragmentShader this in
  let names := listedNames this depNames in
  let decls := generatedDeclarations this depNames in
  let code := generatedCode this depNames in
  Forall wordName names → printableSize this →
  (∀ n, n ∈ names → isUniformDeclared body n = true ↔ declares body n) ∧
  (uniformKindsKnown this ↔
   fullFragmentShader this depNames = Ok (injectShaderCode body code)) ∧
  (∀ fragment, fullFragmentShader this depNames = Ok fragment →
               fragment = injectShaderCode body code) ∧
  (∀ d, d ∈ decls → d.2 ∈ names ∧ ¬ declares body d.2) ∧
  (uniformKindsKnown this →
   ∀ n, ¬ declares body n → occurrences n decls.*2 = occurrences n names) ∧
  decls.*2 `sublist_of` names ∧
  (NoDup names → NoDup decls.*2) ∧
  (∀ ws line rest,
     all_chars is_space ws = true → all_chars not_newline line = true →
     body = ws +:+ "#version" +:+ line +:+ nl +:+ rest →
     injectShaderCode body code
     = ws +:+ "#version" +:+ line +:+ nl +:+ code +:+ rest) ∧
  ((∀ ws line rest,
      all_chars is_space ws = true → all_chars not_newline line = true →
      body ≠ ws +:+ "#version" +:+ line +:+ nl +:+ rest) →
   injectShaderCode body code = code +:+ body).
Proof.
  intros body names decls code Hnames _.
  assert (∀ n, n ∈ names → isUniformDeclared body n = true ↔ declares body n)
    as Htest.
  { intros n Hn. apply isUniformDeclared_spec.
    by apply (proj1 (Forall_forall _ _) Hnames). }
  assert (∀ fragment, fullFragmentShader this depNames = Ok fragment →
                      uniformKindsKnown this) as Hknown.
  { intros fragment H. unfold fullFragmentShader in H.
    destruct (declareUniforms this (uniforms this) "") eqn:Hu; [|done].
    by eapply declareUniforms_Ok. }
  assert (decls.*2 `sublist_of` names) as Hsub
    by apply generatedDeclarations_names.
  split_and!.
  - exact Htest.
  - split; [apply fullFragmentShader_spec|apply Hknown].
  - intros fragment H.
    rewrite (fullFragmentShader_spec _ _ (Hknown _ H)) in H. by simplify_eq.
  - intros d Hd.
    assert (d.2 ∈ names) as Hin.
    { eapply elem_of_sublist; [|exact Hsub]. apply list_elem_of_fmap. by exists d. }
    split; [done|]. intros Hdecl. apply (Htest _ Hin) in Hdecl.
    pose proof (generatedDeclarations_undeclared _ _ _ Hd) as Hun.
    fold body in Hun. congruence.
  - intros Hk n Hn. destruct (decide (n ∈ names)) as [Hin|Hout].
    + unfold decls. rewrite (generatedDeclarations_filter _ _ Hk).
      apply (occurrences_filter (λ n, isUniformDeclared body n = false)).
      destruct (isUniformDeclared body n) eqn:Hd; [|done].
      destruct Hn. by apply (Htest _ Hin).
    + by apply occurrences_sublist.
  - exact Hsub.
  - intros Hnd. by eapply sublist_NoDup.
  - intros ws line rest Hws Hline Hbody. unfold injectShaderCode.
    assert (matchVersion body = Some (ws +:+ "#version" +:+ line +:+ nl, rest))
      as ->.
    { apply matchVersion_Some. exists ws, line. repeat split; try done.
      rewrite Hbody. by rewrite !sapp_assoc. }
    by rewrite !sapp_assoc.
  - intros Hno. unfold injectShaderCode.
    destruct (matchVersion body) as [[preamble rest]|] eqn:Hm; [|done].
    apply matchVersion_Some in Hm as (ws & line & Hws & Hline & -> & Hbody).
    destruct (Hno ws line rest Hws Hline). rewrite Hbody.
    by rewrite !sapp_assoc.
Qed.

Lemma shader_assembly_witness :
  let this := exampleVar exampleFresh in
  let jfa := newVariable (jfaOptions (mkTex 0 4 2)) in
  declares (fragmentShader this) "state"
  ∧ ¬ declares (fragmentShader this) "uNoise"
  ∧ fullFragmentShader this ["state"]
    = Ok ("#version 300 es" +:+ nl
          +:+ "#define resolution vec2(2.0, 2.0)" +:+ nl
          +:+ "uniform sampler2D uNoise;" +:+ nl
          +:+ "uniform float uDt;" +:+ nl
          +:+ "uniform sampler2D state;" +:+ nl +:+ "void main() {}")
  ∧ occurrences "uNoise" (generatedDeclarations this ["state"]).*2 = 1%nat
  ∧ occurrences "state" (generatedDeclarations this ["state"]).*2 = 0%nat
  ∧ injectShaderCode (fragmentShader jfa) (generatedCode jfa ["jfa"])
    = generatedCode jfa ["jfa"] +:+ fragmentShader jfa.
Proof.
  intros this jfa.
  assert (uniformKindsKnown this) as Hk.
  { unfold uniformKindsKnown. repeat constructor. intros _. vm_compute. eauto. }
  destruct (shader_assembly this ["state"])
    as (Htest & Hok & _ & _ & Hcount & _ & _ & _ & _).
  { apply wordNames_check. vm_compute. reflexivity. }
  { split; vm_compute; reflexivity. }
  destruct (shader_assembly jfa ["jfa"]) as (_ & _ & _ & _ & _ & _ & _ & _ & Hnover).
  { apply wordNames_check. vm_compute. reflexivity. }
  { split; vm_compute; reflexivity. }
  assert (¬ declares (fragmentShader this) "uNoise") as Hnoise.
  { intros Hd. apply Htest in Hd; [|vm_compute; set_solver].
    vm_compute in Hd. discriminate. }
  split_and!.
  - apply Htest; [vm_compute; set_solver|]. vm_compute. reflexivity.
  - exact Hnoise.
  - rewrite (proj1 Hok Hk). vm_compute. reflexivity.
  - rewrite (Hcount Hk "uNoise" Hnoise). vm_compute. reflexivity.
  - vm_compute. reflexivity.
  - apply Hnover. intros ws line rest Hws Hline Heq.
    assert (matchVersion (fragmentShader jfa)
            = Some (ws +:+ "#version" +:+ line +:+ nl, rest)) as Hm.
    { apply matchVersion_Some. exists ws, line. repeat split; try done.
      rewrite Heq. by rewrite !sapp_assoc. }
    vm_compute in Hm. discriminate.
Defined.

(** C7 as stated fails: two dependencies of the same name, which the body
    does not declare, get two declarations of that name. *)
Lemma shader_assembly_counterexample :
  let reader := varAt 2%nat exampleTwins in
  let assembled := "#define resolution vec2(2.0, 2.0)" +:+ nl
                   +:+ "uniform sampler2D twin;" +:+ nl
                   +:+ "uniform sampler2D twin;" +:+ nl +:+ "void main() {}" in
  outcome (depNames (dependencies reader)) exampleTwins = Ok ["twin"; "twin"]
  ∧ isUniformDeclared (fragmentShader reader) "twin" = false
  ∧ fullFragmentShader reader ["twin"; "twin"] = Ok assembled
  ∧ sh_fragment <$> shader reader
    = Some ("#define resolution vec2(2.0, 2.0)" +:+ nl
            +:+ "uniform sampler2D twin;" +:+ nl
            +:+ "uniform sampler2D twin;" +:+ nl +:+ "void main() {}")
  ∧ occurrences "twin" (generatedDeclarations reader ["twin"; "twin"]).*2 = 2%nat.
Proof. vm_compute. repeat split. Qed.

(** ** Frame rules *)

Section stable.
Context {T : Type} (F : World → T).

Lemma stable_ret {A} (a : A) : stable F (mret a : M A).
Proof. done. Qed.

Lemma stable_throw {A} e : stable F (throw e : M A).
Proof. done. Qed.

Lemma stable_getVar v : stable F (getVar v).
Proof. intros s. unfold getVar. by destruct (vars s !! v). Qed.

Lemma stable_bind {A B} (m : M A) (k : A → M B) :
  stable F m → (∀ a, stable F (k a)) → stable F (m ≫= k).
Proof.
  intros Hm Hk s. unfold mbind, M_bind.
  specialize (Hm s). destruct (m s) as [[a|e] s']; simpl in *.
  - by rewrite Hk.
  - done.
Qed.

Lemma stable_forM {A} (l : list A) (f : A → M unit) :
  (∀ a, stable F (f a)) → stable F (forM_ l f).
Proof.
  intros Hf. induction l as [|a l IH]; simpl.
  - apply stable_ret.
  - apply stable_bind; [apply Hf|intros _; apply IH].
Qed.

Lemma stable_run {A} (m : M A) s r s' : stable F m → m s = (r, s') → F s' = F s.
Proof. intros H Hm. specialize (H s). by rewrite Hm in H. Qed.
End stable.

Lemma alter_alter_same (f g : GPUComputeVariable → GPUComputeVariable) v
    (m : gmap VarId GPUComputeVariable) :
  (∀ x, g (f x) = g x) → alter g v (alter f v m) = alter g v m.
Proof.
  intros H. apply map_eq. intros w. destruct (decide (v = w)) as [->|Hne].
  - rewrite !lookup_alter_eq. destruct (m !! w); simpl; by rewrite ?H.
  - by rewrite !lookup_alter_ne.
Qed.

Lemma coreAt_modifyVar v f :
  (∀ x, core (f x) = core x) → stable (coreAt v) (modifyVar v f).
Proof.
  intros H s. unfold modifyVar, coreAt. simpl.
  by rewrite (alter_alter_same f core v _ H).
Qed.

Lemma core_set_shader a x : core (set_shader a x) = core x.
Proof. by destruct x. Qed.
Lemma core_set_paramsUniforms a x : core (set_paramsUniforms a x) = core x.
Proof. by destruct x. Qed.

Lemma core_eq x x' :
  core x' = core x →
  x' = set_paramsUniforms (paramsUniforms x') (set_shader (shader x') x).
Proof. destruct x, x'. unfold core. simpl. intros H. by simplify_eq. Qed.

Lemma coreAt_setResource v key src : stable (coreAt v) (setResource v key src).
Proof. apply coreAt_modifyVar. intros x. apply core_set_shader. Qed.

Lemma coreAt_setParam v key val : stable (coreAt v) (setParam v key val).
Proof. apply coreAt_modifyVar. intros x. apply core_set_paramsUniforms. Qed.

Lemma coreAt_updateDependencies v deps : stable (coreAt v) (updateDependencies v deps).
Proof.
  apply stable_forM. intros d. apply stable_bind; [apply stable_getVar|].
  intros dep. destruct (getCurrentTexture dep);
    [apply coreAt_setResource|apply stable_throw].
Qed.

Lemma coreAt_updateSamplers v this : stable (coreAt v) (updateSamplers v this).
Proof.
  unfold updateSamplers. destruct (hasSamplers this); [|apply stable_ret].
  apply stable_forM. intros key.
  destruct (lookupKey key (samplers this));
    [apply coreAt_setResource|apply stable_throw].
Qed.

Lemma coreAt_updateUniforms v this : stable (coreAt v) (updateUniforms v this).
Proof.
  unfold updateUniforms. destruct (hasUniforms this); [|apply stable_ret].
  destruct (paramsUniforms this); [|apply stable_throw].
  apply stable_forM. intros key.
  destruct (lookupKey key (uniforms this));
    [apply coreAt_setParam|apply stable_throw].
Qed.

(** Two worlds that differ in the bindings of [v] only. *)
Lemma coreAt_inv v s s' x :
  coreAt v s' = coreAt v s → vars s !! v = Some x →
  ∃ sh pu, s' = set_vars (<[v := set_paramsUniforms pu (set_shader sh x)]> (vars s)) s.
Proof.
  intros H Hv. unfold coreAt in H.
  assert (alter core v (vars s') = alter core v (vars s)) as Hm
    by (by apply (f_equal vars) in H).
  assert (∃ x', vars s' !! v = Some x' ∧ core x' = core x) as (x' & Hv' & Hc).
  { pose proof (f_equal (λ m, m !! v) Hm) as Hl. simpl in Hl.
    rewrite !lookup_alter_eq, Hv in Hl.
    destruct (vars s' !! v) as [x'|]; simpl in Hl; [|done].
    exists x'. split; [done|]. congruence. }
  exists (shader x'), (paramsUniforms x').
  apply world_eq; simpl.
  - rewrite <-(core_eq _ _ Hc). apply map_eq. intros w.
    destruct (decide (v = w)) as [->|Hne].
    + by rewrite lookup_insert_eq.
    + rewrite lookup_insert_ne by done.
      pose proof (f_equal (λ m, m !! w) Hm) as Hl. simpl in Hl.
      by rewrite !lookup_alter_ne in Hl.
  - by apply (f_equal nextVar) in H.
  - by apply (f_equal nextTex) in H.
  - by apply (f_equal destroyedTex) in H.
  - by apply (f_equal trace) in H.
Qed.

Lemma depNames_state deps : stable (λ s, s) (depNames deps).
Proof.
  induction deps as [|d deps IH]; simpl; [apply stable_ret|].
  apply stable_bind; [apply stable_getVar|]. intros x.
  apply stable_bind; [apply IH|]. intros ns. apply stable_ret.
Qed.

Lemma bindDependencies_state deps res : stable (λ s, s) (bindDependencies deps res).
Proof.
  revert res. induction deps as [|d deps IH]; intros res; simpl; [apply stable_ret|].
  apply stable_bind; [apply stable_getVar|]. intros x.
  destruct (getCurrentTexture x); [apply IH|apply stable_throw].
Qed.

Lemma createShader_run v s x :
  vars s !! v = Some x →
  createShader v s =
  match (depNames (dependencies x) s).1 with
  | Throw e => (Throw e, s)
  | Ok names =>
      match fullFragmentShader x names with
      | Throw e => (Throw e, s)
      | Ok fragment =>
          match (bindDependencies (dependencies x) ∅ s).1 with
          | Throw e => (Throw e, s)
          | Ok res =>
              (Ok tt, set_vars (<[v := createdShader x fragment res]> (vars s)) s)
          end
      end
  end.
Proof.
  intros Hv. unfold createShader.
  rewrite (bind_Ok _ _ _ _ _ (getVar_Some _ _ _ Hv)).
  pose proof (depNames_state (dependencies x) s) as Hn. simpl in Hn.
  destruct (depNames (dependencies x) s) as [[names|e] s1] eqn:Hdn;
    simpl in Hn; subst s1.
  2: { by rewrite (bind_Throw _ _ _ _ _ Hdn). }
  rewrite (bind_Ok _ _ _ _ _ Hdn). simpl.
  destruct (fullFragmentShader x names) as [fragment|e]; [|done].
  pose proof (bindDependencies_state (dependencies x) ∅ s) as Hb. simpl in Hb.
  destruct (bindDependencies (dependencies x) ∅ s) as [[res|e] s1] eqn:Hbd;
    simpl in Hb; subst s1.
  2: { by rewrite (bind_Throw _ _ _ _ _ Hbd). }
  rewrite (bind_Ok _ _ _ _ _ Hbd). simpl.
  unfold createdShader, mbind, M_bind, modifyVar. simpl.
  rewrite (alter_known _ _ _ _ Hv).
  rewrite (alter_known _ (<[v:=_]> _) v _ (lookup_insert_eq _ _ _)).
  rewrite insert_insert_eq.
  destruct (hasUniforms x); simpl; [|done].
  rewrite (alter_known _ (<[v:=_]> _) v _ (lookup_insert_eq _ _ _)).
  by rewrite insert_insert_eq.
Qed.


(** ** [init] and [compute] *)

Lemma init_initialized v s x :
  vars s !! v = Some x → initialized x = true →
  init v s = (Throw (errPrefix x +:+ "Already initialized."), s).
Proof.
  intros Hv Hi. unfold init.
  by rewrite (bind_Ok _ _ _ _ _ (getVar_Some _ _ _ Hv)), Hi.
Qed.

Lemma init_run v s x :
  vars s !! v = Some x → initialized x = false →
  init v s =
  match createShader v (preInitWorld v x s) with
  | (Ok _, s2) => (Ok tt, set_vars (alter (set_initialized true) v (vars s2)) s2)
  | (Throw e, s2) => (Throw e, s2)
  end.
Proof.
  intros Hv Hi. unfold init.
  rewrite (bind_Ok _ _ _ _ _ (getVar_Some _ _ _ Hv)), Hi.
  rewrite (bind_Ok _ _ _ _ _ (modifyVar_known _ _ _ _ Hv)).
  erewrite bind_Ok; last first.
  { apply ensureTextures_run. simpl. apply lookup_insert_eq. }
  simpl. rewrite insert_insert_eq.
  unfold mbind, M_bind.
  change (set_nextTex _ _) with (preInitWorld v x s).
  destruct (createShader v (preInitWorld v x s)) as [[[]|e] s2]; done.
Qed.

Lemma init_spec v s x r s' :
  vars s !! v = Some x → initialized x = false → init v s = (r, s') →
  match r with
  | Ok _ =>
      ∃ fragment res,
        s' = set_nextTex (preInit v x (nextTex s)).2
               (set_vars (<[v := set_initialized true
                                    (createdShader (preInit v x (nextTex s)).1
                                       fragment res)]> (vars s)) s)
  | Throw _ => s' = preInitWorld v x s
  end.
Proof.
  intros Hv Hi Hr. rewrite (init_run _ _ _ Hv Hi) in Hr.
  assert (vars (preInitWorld v x s) !! v = Some (preInit v x (nextTex s)).1) as Hv1
    by apply lookup_insert_eq.
  rewrite (createShader_run _ _ _ Hv1) in Hr.
  destruct (depNames _ _).1; [|by simplify_eq].
  destruct (fullFragmentShader _ _) as [fragment|]; [|by simplify_eq].
  destruct (bindDependencies _ _ _).1 as [res|]; [|by simplify_eq].
  simplify_eq. exists fragment, res.
  apply world_eq; simpl; try done.
  rewrite (alter_known _ _ _ _ (lookup_insert_eq _ _ _)).
  by rewrite !insert_insert_eq.
Qed.

Lemma renderPass_run v s x :
  vars s !! v = Some x →
  renderPass v s
  = (Ok tt,
     set_vars (<[v := set_currentIndex (1 - currentIndex x) x]> (vars s))
       (set_trace (trace s ++ [EvPass v (getAlternateTexture x)
                                 (from_option sh_resources ∅ (shader x))
                                 (default ∅ (paramsUniforms x))]) s)).
Proof.
  intros Hv. unfold renderPass.
  rewrite (bind_Ok _ _ _ _ _ (getVar_Some _ _ _ Hv)).
  unfold mbind, M_bind, logEvent, modifyVar. simpl.
  by rewrite (alter_known _ _ _ _ Hv).
Qed.

Lemma coreAt_refreshBindings v this : stable (coreAt v) (refreshBindings v this).
Proof.
  apply stable_bind; [apply coreAt_updateDependencies|]. intros _.
  apply stable_bind; [apply coreAt_updateSamplers|]. intros _.
  apply coreAt_updateUniforms.
Qed.

Lemma compute_initialized_unfold v s x :
  vars s !! v = Some x → initialized x = true →
  compute v s =
  match shader x with
  | None => (Throw typeError, s)
  | Some _ => (refreshBindings v x;; renderPass v) s
  end.
Proof.
  intros Hv Hi. unfold compute.
  rewrite (bind_Ok _ _ _ _ _ (getVar_Some _ _ _ Hv)), Hi.
  unfold mbind at 1, M_bind at 1, mret at 1, M_ret at 1.
  rewrite (bind_Ok _ _ _ _ _ (getVar_Some _ _ _ Hv)).
  destruct (shader x); [|done].
  unfold refreshBindings, mbind, M_bind.
  destruct (updateDependencies v (dependencies x) s) as [[[]|e] s1]; [|done].
  destruct (updateSamplers v x s1) as [[[]|e] s2]; [|done].
  by destruct (updateUniforms v x s2) as [[[]|e] s3].
Qed.

(** A pass of an initialised variable: when it returns, the bindings of the
    variable were refreshed, the pass was rendered into the alternate buffer
    and the index was flipped; when it throws, only bindings changed. *)
Lemma compute_initialized v s x r s' :
  vars s !! v = Some x → initialized x = true → compute v s = (r, s') →
  match r with
  | Ok _ =>
      ∃ sh pu,
        s' = set_vars
               (<[v := set_currentIndex (1 - currentIndex x)
                         (set_paramsUniforms pu (set_shader sh x))]> (vars s))
               (set_trace (trace s ++ [EvPass v (getAlternateTexture x)
                                         (from_option sh_resources ∅ sh)
                                         (default ∅ pu)]) s)
  | Throw _ =>
      ∃ sh pu,
        s' = set_vars (<[v := set_paramsUniforms pu (set_shader sh x)]> (vars s)) s
  end.
Proof.
  intros Hv Hi Hr. rewrite (compute_initialized_unfold _ _ _ Hv Hi) in Hr.
  destruct (shader x) as [sh0|] eqn:Hsh.
  2: { simplify_eq. exists None, (paramsUniforms x).
       apply world_eq; simpl; try done. symmetry. apply insert_id.
       rewrite Hv. f_equal. destruct x; simpl in *; by subst. }
  unfold mbind, M_bind in Hr.
  destruct (refreshBindings v x s) as [[[]|e] s1] eqn:Hb.
  - pose proof (stable_run _ _ _ _ _ (coreAt_refreshBindings v x) Hb) as Hc.
    destruct (coreAt_inv _ _ _ _ Hc Hv) as (sh & pu & ->).
    rewrite (renderPass_run _ _ _ (lookup_insert_eq _ _ _)) in Hr.
    simplify_eq. exists sh, pu. apply world_eq; simpl; try done.
    by rewrite insert_insert_eq.
  - simplify_eq.
    pose proof (stable_run _ _ _ _ _ (coreAt_refreshBindings v x) Hb) as Hc.
    apply (coreAt_inv _ _ _ _ Hc Hv).
Qed.

Lemma compute_uninitialized v s x :
  vars s !! v = Some x → initialized x = false →
  compute v s =
  match init v s with
  | (Ok _, s1) => compute v s1
  | (Throw e, s1) => (Throw e, s1)
  end.
Proof.
  intros Hv Hi. unfold compute at 1.
  rewrite (bind_Ok _ _ _ _ _ (getVar_Some _ _ _ Hv)), Hi.
  unfold mbind at 1, M_bind at 1.
  destruct (init v s) as [[[]|e] s1] eqn:Hinit; [|done].
  destruct (init_spec _ _ _ _ _ Hv Hi Hinit) as (fragment & res & ->).
  set (x1 := set_initialized true _).
  set (s1 := set_nextTex _ _).
  assert (vars s1 !! v = Some x1) as Hv1 by apply lookup_insert_eq.
  rewrite (compute_initialized_unfold v s1 x1 Hv1 eq_refl).
  rewrite (bind_Ok _ _ _ _ _ (getVar_Some _ _ _ Hv1)).
  destruct (shader x1); [|done].
  unfold refreshBindings, mbind, M_bind.
  destruct (updateDependencies v (dependencies x1) s1) as [[[]|e] s2]; [|done].
  destruct (updateSamplers v x1 s2) as [[[]|e] s3]; [|done].
  by destruct (updateUniforms v x1 s3) as [[[]|e] s4].
Qed.

(** ** C1: ping-pong *)

Lemma createdShader_core x fragment res :
  pingTexture (createdShader x fragment res) = pingTexture x
  ∧ pongTexture (createdShader x fragment res) = pongTexture x
  ∧ currentIndex (createdShader x fragment res) = currentIndex x
  ∧ dependencies (createdShader x fragment res) = dependencies x
  ∧ initialized (createdShader x fragment res) = initialized x.
Proof. unfold createdShader. by destruct (hasUniforms x). Qed.


Lemma flip_textures x :
  currentIndex x = 0 ∨ currentIndex x = 1 →
  ∀ x', pingTexture x' = pingTexture x → pongTexture x' = pongTexture x →
        currentIndex x' = 1 - currentIndex x →
        getCurrentTexture x' = getAlternateTexture x
        ∧ getAlternateTexture x' = getCurrentTexture x.
Proof.
  intros Hi x' Hp Hq Hc. unfold getCurrentTexture, getAlternateTexture.
  rewrite Hp, Hq, Hc. destruct Hi as [-> | ->]; done.
Qed.





Lemma setInitialTexture_exec v texture s x :
  vars s !! v = Some x → initialized x = false →
  exec (setInitialTexture v texture) s = s
  ∨ exec (setInitialTexture v texture) s
    = set_vars (<[v := set_externalPingTexture true
                          (set_pingTexture (Some texture) x)]> (vars s)) s.
Proof.
  intros Hv Hi. unfold exec, setInitialTexture.
  rewrite (bind_Ok _ _ _ _ _ (getVar_Some _ _ _ Hv)), Hi.
  destruct (_ || _); [by left|]. right.
  unfold mbind, M_bind, modifyVar. simpl.
  rewrite (alter_known _ _ _ _ Hv).
  rewrite (alter_known _ _ _ _ (lookup_insert_eq _ _ _)).
  by rewrite insert_insert_eq.
Qed.



(** ** Wiring *)

Lemma unwireW_modifyVar v f :
  (∀ x, unwire (f x) = unwire x) → stable unwireW (modifyVar v f).
Proof.
  intros H s. unfold modifyVar, unwireW. simpl. apply world_eq; simpl; try done.
  apply map_eq. intros w. rewrite !lookup_fmap.
  destruct (decide (v = w)) as [->|Hne].
  - rewrite lookup_alter_eq. destruct (vars s !! w); simpl; by rewrite ?H.
  - by rewrite lookup_alter_ne.
Qed.

Lemma unwire_set_dependents a x : unwire (set_dependents a x) = unwire x.
Proof. by destruct x. Qed.
Lemma unwire_set_dependencies a x : unwire (set_dependencies a x) = unwire x.
Proof. by destruct x. Qed.

Lemma unwireW_setDependencies v deps : stable unwireW (setDependencies v deps).
Proof.
  apply stable_bind; [apply stable_getVar|]. intros this.
  apply stable_bind.
  { apply stable_forM. intros d. apply unwireW_modifyVar.
    intros x. apply unwire_set_dependents. }
  intros _. apply stable_bind.
  { apply unwireW_modifyVar. intros x. apply unwire_set_dependencies. }
  intros _. apply stable_forM. intros d. apply unwireW_modifyVar.
  intros x. apply unwire_set_dependents.
Qed.

Lemma unwireW_inv s s' v x :
  unwireW s' = unwireW s → vars s !! v = Some x →
  nextTex s' = nextTex s ∧ trace s' = trace s ∧ destroyedTex s' = destroyedTex s
  ∧ ∃ x', vars s' !! v = Some x' ∧ unwire x' = unwire x.
Proof.
  intros H Hv.
  split; [by apply (f_equal nextTex) in H|].
  split; [by apply (f_equal trace) in H|].
  split; [by apply (f_equal destroyedTex) in H|].
  apply (f_equal (λ s, vars s !! v)) in H. simpl in H.
  rewrite !lookup_fmap, Hv in H.
  destruct (vars s' !! v) as [x'|]; simpl in H; [|done].
  exists x'. split; [done|congruence].
Qed.

Lemma unwire_fields x x' :
  unwire x' = unwire x →
  pingTexture x' = pingTexture x ∧ pongTexture x' = pongTexture x
  ∧ currentIndex x' = currentIndex x ∧ initialized x' = initialized x
  ∧ needsPingPong x' = needsPingPong x ∧ destroyed x' = destroyed x
  ∧ texturesDestroyed x' = texturesDestroyed x
  ∧ externalPingTexture x' = externalPingTexture x.
Proof. destruct x, x'. unfold unwire. simpl. intros H. by simplify_eq. Qed.



Lemma run_eq {A} (m : M A) s a : outcome m s = Ok a → m s = (Ok a, exec m s).
Proof. unfold outcome, exec. destruct (m s) as [r s']. simpl. by intros ->. Qed.

Lemma exec_bind_ret {A} (m : M unit) (a : A) s :
  exec (m;; mret a) s = exec m s.
Proof. unfold exec, mbind, M_bind. by destruct (m s) as [[[]|e] s']. Qed.










(** ** C3: variables without self-dependency *)

Lemma depsMap_modifyVar v f :
  (∀ x, dependencies (f x) = dependencies x) → stable depsMap (modifyVar v f).
Proof.
  intros H s. unfold modifyVar, depsMap. simpl.
  apply map_eq. intros w. rewrite !lookup_fmap.
  destruct (decide (v = w)) as [->|Hne].
  - rewrite lookup_alter_eq. destruct (vars s !! w); simpl; by rewrite ?H.
  - by rewrite lookup_alter_ne.
Qed.

Lemma forM_modifyVar_Ok {A} (l : list A) (w : A → VarId)
    (f : A → GPUComputeVariable → GPUComputeVariable) s :
  ∃ s', forM_ l (λ a, modifyVar (w a) (f a)) s = (Ok tt, s').
Proof.
  revert s. induction l as [|a l IH]; intros s; simpl; [by eexists|].
  unfold mbind, M_bind, modifyVar at 1. simpl. apply IH.
Qed.

Lemma setDependencies_deps v deps s x :
  vars s !! v = Some x →
  ∃ x', vars (exec (setDependencies v deps) s) !! v = Some x'
        ∧ dependencies x' = deps ∧ unwire x' = unwire x.
Proof.
  intros Hv.
  pose proof (unwireW_setDependencies v deps s) as Hst.
  destruct (unwireW_inv _ _ _ _ Hst Hv) as (_ & _ & _ & x' & Hv' & Hu).
  exists x'. split; [done|]. split; [|done].
  assert (depsMap (exec (setDependencies v deps) s) !! v = Some deps) as Hd.
  { unfold exec, setDependencies.
    rewrite (bind_Ok _ _ _ _ _ (getVar_Some _ _ _ Hv)).
    set (unreg := forM_ (dependencies x) _).
    assert (stable depsMap unreg) as Hunreg.
    { apply stable_forM. intros d. by apply depsMap_modifyVar. }
    unfold mbind at 1, M_bind at 1.
    pose proof (Hunreg s) as Hs1.
    destruct (forM_modifyVar_Ok (dependencies x) (λ d, d)
                (λ _ d, set_dependents (dependents d ∖ {[v]}) d) s) as [s1 Hrun].
    fold unreg in Hrun. rewrite Hrun in Hs1 |- *. simpl in Hs1.
    assert (∃ x1, vars s1 !! v = Some x1) as [x1 Hv1].
    { apply (f_equal (λ m, m !! v)) in Hs1. unfold depsMap in Hs1.
      rewrite !lookup_fmap, Hv in Hs1.
      destruct (vars s1 !! v); [eauto|done]. }
    rewrite (bind_Ok _ _ _ _ _ (modifyVar_known _ _ _ _ Hv1)).
    set (reg := forM_ deps _).
    assert (stable depsMap reg) as Hreg.
    { apply stable_forM. intros d. by apply depsMap_modifyVar. }
    rewrite Hreg. unfold depsMap. simpl.
    by rewrite lookup_fmap, lookup_insert_eq. }
  unfold depsMap, exec in Hd. rewrite lookup_fmap, Hv' in Hd. by simplify_eq/=.
Qed.

Lemma singleTexture_same U v s s' x x' :
  singleTexture U v s → vars s !! v = Some x → vars s' !! v = Some x' →
  pingTexture x' = pingTexture x → pongTexture x' = pongTexture x →
  dependencies x' = dependencies x → initialized x' = initialized x →
  singleTexture U v s'.
Proof.
  intros (x0 & Hv0 & H) Hv Hv' Hp Hq Hd Hi. simplify_eq.
  exists x'. rewrite Hp, Hq, Hd, Hi. done.
Qed.

Lemma singleTexture_setDependencies U v s deps :
  v ∉ deps → singleTexture U v s →
  singleTexture U v (exec (setDependencies v deps) s).
Proof.
  intros Hdeps (x & Hv & Hself & Hone & Hinit & Hun).
  destruct (setDependencies_deps v deps s x Hv) as (x' & Hv' & Hd & Hu).
  destruct (unwire_fields _ _ Hu) as (Hp & Hq & _ & Hi & _).
  exists x'. rewrite Hp, Hq, Hd, Hi. done.
Qed.

Lemma singleTexture_preInit U v s x (f : GPUComputeVariable → GPUComputeVariable) :
  vars s !! v = Some x → v ∉ dependencies x →
  pongTexture x = None ∨ pongTexture x = pingTexture x →
  (U → pingTexture x = pongTexture x) →
  (∀ y, pingTexture (f y) = pingTexture y ∧ pongTexture (f y) = pongTexture y
        ∧ dependencies (f y) = dependencies y) →
  singleTexture U v
    (set_nextTex (preInit v x (nextTex s)).2
       (set_vars (<[v := f (preInit v x (nextTex s)).1]> (vars s)) s)).
Proof.
  intros Hv Hself Hone Hun Hf.
  eexists. split; [apply lookup_insert_eq|].
  destruct (Hf (preInit v x (nextTex s)).1) as (-> & -> & ->).
  unfold preInit, ensured. simpl. rewrite bool_decide_eq_false_2 by done.
  destruct (pingTexture x) as [p|] eqn:Hp, (pongTexture x) as [q|] eqn:Hq;
    simpl; rewrite ?Hp, ?Hq; simpl.
  - destruct Hone as [|Hone]; [done|]. eauto 10.
  - eauto 10.
  - by destruct Hone.
  - eauto 10.
Qed.

Lemma singleTexture_init U v s :
  singleTexture U v s → singleTexture U v (exec (init v) s).
Proof.
  intros Hs. pose proof Hs as (x & Hv & Hself & Hone & Hinit & Hun).
  unfold exec. destruct (initialized x) eqn:Hi.
  - by rewrite (init_initialized _ _ _ Hv Hi).
  - destruct (init v s) as [r s'] eqn:Hrun.
    pose proof (init_spec _ _ _ _ _ Hv Hi Hrun) as Hspec.
    destruct r as [[]|e]; simpl.
    + destruct Hspec as (fragment & res & ->).
      apply (singleTexture_preInit U v s x
               (λ y, set_initialized true (createdShader y fragment res)));
        try done.
      intros y. simpl.
      by destruct (createdShader_core y fragment res) as (-> & -> & _ & -> & _).
    + subst s'. by apply (singleTexture_preInit U v s x (λ y, y)).
Qed.

Lemma singleTexture_compute_initialized U v s x :
  singleTexture U v s → vars s !! v = Some x → initialized x = true →
  singleTexture U v (exec (compute v) s).
Proof.
  intros Hs Hv Hi. unfold exec.
  destruct (compute v s) as [r s'] eqn:Hrun.
  pose proof (compute_initialized _ _ _ _ _ Hv Hi Hrun) as Hspec.
  destruct r as [[]|e]; destruct Hspec as (sh & pu & ->); simpl;
    (eapply (singleTexture_same U v s _ x);
     [done|done|apply lookup_insert_eq|done..]).
Qed.

Lemma singleTexture_compute U v s :
  singleTexture U v s → singleTexture U v (exec (compute v) s).
Proof.
  intros Hs. pose proof Hs as (x & Hv & _).
  destruct (initialized x) eqn:Hi.
  - by eapply singleTexture_compute_initialized.
  - pose proof (singleTexture_init U v s Hs) as Hs1. unfold exec in *.
    rewrite (compute_uninitialized _ _ _ Hv Hi).
    destruct (init v s) as [[[]|e] s1] eqn:Hrun; [|done].
    destruct (init_spec _ _ _ _ _ Hv Hi Hrun) as (fragment & res & Heq).
    simpl in Hs1.
    eapply (singleTexture_compute_initialized U v s1); [done| |].
    + rewrite Heq. apply lookup_insert_eq.
    + done.
Qed.

Lemma singleTexture_new s o :
  singleTexture (o_initialTexture o = None) (nextVar s)
    (exec (new_GPUComputeVariable o) s).
Proof.
  set (s0 := set_nextVar (S (nextVar s))
               (set_vars (<[nextVar s := newVariable o]> (vars s)) s)).
  assert (vars s0 !! nextVar s = Some (newVariable o)) as Hv0
    by apply lookup_insert_eq.
  unfold exec, new_GPUComputeVariable. fold s0.
  destruct (o_initialTexture o) as [t|] eqn:Ht; simpl.
  - change ((setInitialTexture (nextVar s) t;; mret (nextVar s)) s0).2
      with (exec (setInitialTexture (nextVar s) t;; mret (nextVar s)) s0).
    rewrite exec_bind_ret.
    destruct (setInitialTexture_exec (nextVar s) t s0 _ Hv0 eq_refl) as [-> | ->].
    + exists (newVariable o). split; [done|]. simpl.
      split_and!; [set_solver|by left|done|done].
    + eexists. split; [apply lookup_insert_eq|]. simpl.
      split_and!; [set_solver|by left|done|done].
  - exists (newVariable o). split; [done|]. simpl.
    split_and!; [set_solver|by left|done|done].
Qed.

(** C3, amended. A variable that is not seeded with [fillTexture] or
    [fillTextureFrom] and whose dependency lists never include itself has at
    most one backing texture at every point of any sequence of
    [setDependencies], [init] and [compute] calls (the pong buffer is unset
    or is the ping buffer); once it is initialised, [getCurrentTexture()]
    and [getAlternateTexture()] return the same texture, and they are equal
    throughout when the variable was constructed without an initial
    texture. *)
Theorem single_texture_unseeded (s : World) (o : GPUComputeVariableOptions)
    (cs : list LifeCall) :
  let v := nextVar s in
  Forall (λ c, ∀ deps, c = CallSetDeps deps → v ∉ deps) cs →
  ∃ x, vars (runCalls (lifeCall v) cs (exec (new_GPUComputeVariable o) s)) !! v
       = Some x
       ∧ (pongTexture x = None ∨ pongTexture x = pingTexture x)
       ∧ (initialized x = true →
          ∃ t, getCurrentTexture x = Some t ∧ getAlternateTexture x = Some t)
       ∧ (o_initialTexture o = None →
          getCurrentTexture x = getAlternateTexture x).
Proof.
  intros v Hcs.
  assert (singleTexture (o_initialTexture o = None) v
            (runCalls (lifeCall v) cs (exec (new_GPUComputeVariable o) s))) as Hs.
  { pose proof (singleTexture_new s o) as H0. fold v in H0.
    revert H0. generalize (exec (new_GPUComputeVariable o) s).
    induction Hcs as [|c cs Hc _ IH]; intros s0 H0; [done|].
    simpl. apply IH. destruct c as [deps| |]; simpl.
    - apply singleTexture_setDependencies; [by apply Hc|done].
    - by apply singleTexture_init.
    - by apply singleTexture_compute. }
  destruct Hs as (x & Hv & _ & Hone & Hinit & Hun).
  exists x. split; [done|]. split; [done|]. split.
  - intros Hi. destruct (Hinit Hi) as [t Ht].
    destruct Hone as [Hone|Hone]; [by rewrite Hone in Ht|].
    exists t. unfold getCurrentTexture, getAlternateTexture.
    rewrite <-Hone, Ht. by case_bool_decide.
  - intros Ho. unfold getCurrentTexture, getAlternateTexture.
    rewrite (Hun Ho). by case_bool_decide.
Qed.

Lemma single_texture_unseeded_witness :
  ∃ x, vars (runCalls (lifeCall 0%nat)
               [CallSetDeps []; CallInit; CallCompute; CallCompute]
               (exec (new_GPUComputeVariable exampleOptions) exampleBase)) !! 0%nat
       = Some x
       ∧ (pongTexture x = None ∨ pongTexture x = pingTexture x)
       ∧ (initialized x = true →
          ∃ t, getCurrentTexture x = Some t ∧ getAlternateTexture x = Some t)
       ∧ (o_initialTexture exampleOptions = None →
          getCurrentTexture x = getAlternateTexture x).
Proof.
  apply (single_texture_unseeded exampleBase exampleOptions).
  repeat constructor; intros deps [= <-]. apply not_elem_of_nil.
Defined.

(** C3 as stated fails: a variable without self-dependency that is seeded
    with [fillTexture] before [init()] has two backing textures. *)
Lemma single_texture_counterexample :
  vars exampleFilled !! 0%nat = Some (exampleVar exampleFilled)
  ∧ dependencies (exampleVar exampleFilled) = []
  ∧ getCurrentTexture (exampleVar exampleFilled) = Some (mkTex 2 2 2)
  ∧ getAlternateTexture (exampleVar exampleFilled) = Some (mkTex 1 2 2)
  ∧ getCurrentTexture (exampleVar exampleFilled)
    ≠ getAlternateTexture (exampleVar exampleFilled).
Proof. vm_compute. repeat split; discriminate. Qed.

(** ** Passes that succeed *)

Lemma forM_Ok_inv {A} (Inv : World → Prop) (l : list A) (f : A → M unit) s :
  (∀ a s0, a ∈ l → Inv s0 → ∃ s', f a s0 = (Ok tt, s') ∧ Inv s') →
  Inv s → ∃ s', forM_ l f s = (Ok tt, s') ∧ Inv s'.
Proof.
  revert s. induction l as [|a l IH]; intros s Hf Hs; simpl.
  - by exists s.
  - destruct (Hf a s (list_elem_of_here _ _) Hs) as (s1 & Hrun & Hs1).
    rewrite (bind_Ok _ _ _ _ _ Hrun). apply IH; [|done].
    intros b s0 Hb. apply Hf. by apply list_elem_of_further.
Qed.

Lemma coreAt_lookup_ne v s s' w :
  coreAt v s' = coreAt v s → w ≠ v → vars s' !! w = vars s !! w.
Proof.
  intros H Hne. apply (f_equal (λ s, vars s !! w)) in H. simpl in H.
  by rewrite !lookup_alter_ne in H.
Qed.

Lemma coreAt_lookup v s s' x :
  coreAt v s' = coreAt v s → vars s !! v = Some x →
  ∃ x', vars s' !! v = Some x' ∧ core x' = core x.
Proof.
  intros H Hv. apply (f_equal (λ s, vars s !! v)) in H. simpl in H.
  rewrite !lookup_alter_eq, Hv in H.
  destruct (vars s' !! v) as [x'|]; simpl in H; [|done].
  exists x'. split; [done|congruence].
Qed.

Lemma core_fields x x' :
  core x' = core x →
  name x' = name x ∧ getCurrentTexture x' = getCurrentTexture x.
Proof.
  destruct x, x'. unfold core, getCurrentTexture. simpl. intros H. by simplify_eq.
Qed.

Lemma updateDependencies_Ok v s x deps :
  vars s !! v = Some x →
  (∀ d, d ∈ deps → ∃ y t, vars s !! d = Some y ∧ getCurrentTexture y = Some t) →
  ∃ s', updateDependencies v deps s = (Ok tt, s') ∧ coreAt v s' = coreAt v s.
Proof.
  intros Hv Hdeps. apply forM_Ok_inv; [|done].
  intros d s0 Hd Hs0.
  destruct (Hdeps d Hd) as (y & t & Hy & Ht).
  assert (∃ y0, vars s0 !! d = Some y0 ∧ name y0 = name y
                ∧ getCurrentTexture y0 = Some t) as (y0 & Hy0 & Hn0 & Ht0).
  { destruct (decide (d = v)) as [->|Hne].
    - assert (y = x) as -> by congruence.
      destruct (coreAt_lookup _ _ _ _ Hs0 Hv) as (x' & Hx' & Hc).
      destruct (core_fields _ _ Hc) as [Hn Hg]. exists x'. by rewrite Hn, Hg.
    - exists y. by rewrite (coreAt_lookup_ne _ _ _ _ Hs0 Hne). }
  rewrite (bind_Ok _ _ _ _ _ (getVar_Some _ _ _ Hy0)), Ht0.
  eexists. split; [done|].
  rewrite <-Hs0. apply (coreAt_setResource v (name y0) (tex_id t) s0).
Qed.

Lemma updateSamplers_Ok v s x :
  keysPresent x →
  ∃ s', updateSamplers v x s = (Ok tt, s') ∧ coreAt v s' = coreAt v s.
Proof.
  intros [Hkeys _]. unfold updateSamplers.
  destruct (hasSamplers x); [|by exists s].
  apply forM_Ok_inv; [|done]. intros key s0 Hk Hs0.
  destruct (Hkeys key Hk) as [t ->].
  eexists. split; [done|]. rewrite <-Hs0. apply (coreAt_setResource v key (tex_id t) s0).
Qed.

Lemma pushUniforms_loop v x keys s y ps :
  (∀ key, key ∈ keys → is_Some (lookupKey key (uniforms x))) →
  vars s !! v = Some y → paramsUniforms y = Some ps →
  forM_ keys (λ key, match lookupKey key (uniforms x) with
                     | None => throw typeError
                     | Some d => setParam v key (u_value d)
                     end) s
  = (Ok tt, set_vars (<[v := set_paramsUniforms (Some (pushedParams x keys ps)) y]>
                        (vars s)) s).
Proof.
  revert s y ps. induction keys as [|key keys IH]; intros s y ps Hkeys Hv Hps.
  - simpl. unfold mret, M_ret. f_equal. apply world_eq; simpl; try done.
    symmetry. apply insert_id. rewrite Hv. f_equal.
    destruct y; simpl in *; by subst.
  - simpl. destruct (Hkeys key (list_elem_of_here _ _)) as [d Hd]. rewrite Hd.
    unfold setParam. rewrite (bind_Ok _ _ _ _ _ (modifyVar_known _ _ _ _ Hv)).
    erewrite IH; [| |apply lookup_insert_eq|by rewrite Hps].
    + f_equal. apply world_eq; simpl; try done.
      rewrite insert_insert_eq. by f_equal.
    + intros k Hk. apply Hkeys. by apply list_elem_of_further.
Qed.

Lemma updateUniforms_Ok v s x y :
  keysPresent x → vars s !! v = Some y →
  (hasUniforms x = true → is_Some (paramsUniforms x)) →
  paramsUniforms y = paramsUniforms x →
  updateUniforms v x s
  = (Ok tt,
     set_vars (<[v := set_paramsUniforms
                        (if hasUniforms x
                         then pushedParams x (uniformKeys x) <$> paramsUniforms x
                         else paramsUniforms x) y]> (vars s)) s).
Proof.
  intros [_ Hkeys] Hv Hsome Hy. unfold updateUniforms.
  destruct (hasUniforms x).
  - destruct (Hsome eq_refl) as [ps Hps]. rewrite Hps.
    apply pushUniforms_loop; [done|done|by rewrite Hy].
  - unfold mret, M_ret. f_equal. apply world_eq; simpl; try done.
    symmetry. apply insert_id. rewrite Hv. f_equal.
    destruct y; simpl in *; by subst.
Qed.

(** A pass of an initialised variable whose dependencies are ready
    succeeds; the uniform group the shader sees holds the current values. *)
Lemma compute_initialized_Ok v s x :
  vars s !! v = Some x → initialized x = true → is_Some (shader x) →
  dependenciesReady s x → keysPresent x →
  (hasUniforms x = true → is_Some (paramsUniforms x)) →
  ∃ sh,
    let pu := if hasUniforms x
              then pushedParams x (uniformKeys x) <$> paramsUniforms x
              else paramsUniforms x in
    compute v s
    = (Ok tt,
       set_vars
         (<[v := set_currentIndex (1 - currentIndex x)
                   (set_paramsUniforms pu (set_shader sh x))]> (vars s))
         (set_trace (trace s ++ [EvPass v (getAlternateTexture x)
                                   (from_option sh_resources ∅ sh)
                                   (default ∅ pu)]) s)).
Proof.
  intros Hv Hi [sh0 Hsh] Hdeps Hkeys Hps.
  rewrite (compute_initialized_unfold _ _ _ Hv Hi), Hsh.
  destruct (updateDependencies_Ok v s x (dependencies x) Hv Hdeps) as (s1 & Hr1 & Hc1).
  destruct (updateSamplers_Ok v s1 x Hkeys) as (s2 & Hr2 & Hc2).
  rewrite Hc1 in Hc2.
  destruct (coreAt_inv _ _ _ _ Hc2 Hv) as (sh & pu & ->).
  set (y := set_paramsUniforms pu (set_shader sh x)) in *.
  assert (pu = paramsUniforms x) as ->.
  { (* the first two loops do not touch the uniform group *)
    clear Hc1 Hc2.
    assert (stable (λ s, paramsUniforms <$> vars s)
              (updateDependencies v (dependencies x);; updateSamplers v x)) as Hst.
    { assert (∀ k src, stable (λ s, paramsUniforms <$> vars s) (setResource v k src))
        as Hres.
      { intros k src s0. unfold setResource, modifyVar. simpl.
        apply map_eq. intros w. rewrite !lookup_fmap.
        destruct (decide (v = w)) as [->|Hne].
        - rewrite lookup_alter_eq. by destruct (vars s0 !! w).
        - by rewrite lookup_alter_ne. }
      apply stable_bind.
      - apply stable_forM. intros d. apply stable_bind; [apply stable_getVar|].
        intros dep. destruct (getCurrentTexture dep); [apply Hres|apply stable_throw].
      - intros _. unfold updateSamplers. destruct (hasSamplers x); [|apply stable_ret].
        apply stable_forM. intros key.
        destruct (lookupKey key (samplers x)); [apply Hres|apply stable_throw]. }
    specialize (Hst s). unfold mbind, M_bind in Hst. rewrite Hr1, Hr2 in Hst.
    simpl in Hst. apply (f_equal (λ m, m !! v)) in Hst.
    rewrite !lookup_fmap, lookup_insert_eq, Hv in Hst. simpl in Hst.
    injection Hst as Hst. by destruct x. }
  exists sh. simpl.
  unfold refreshBindings.
  unfold mbind, M_bind. rewrite Hr1, Hr2.
  rewrite (updateUniforms_Ok v _ x y Hkeys (lookup_insert_eq _ _ _) Hps)
    by (by destruct x).
  rewrite (renderPass_run _ _ _ (lookup_insert_eq _ _ _)).
  f_equal. apply world_eq; simpl; try done.
  rewrite !insert_insert_eq. by f_equal.
Qed.

(** ** Destruction *)

Lemma destroyTextures_run v s x :
  vars s !! v = Some x →
  destroyTextures v s =
  if texturesDestroyed x then (Ok tt, s)
  else match releasedTexture x with
       | Throw e => (Throw e, s)
       | Ok t =>
           (Ok tt,
            set_vars (<[v := set_texturesDestroyed true x]> (vars s))
              (set_destroyedTex
                 (from_option (λ a, {[tex_id a]}) ∅ t ∪ destroyedTex s) s))
       end.
Proof.
  intros Hv. unfold destroyTextures, releasedTexture.
  rewrite (bind_Ok _ _ _ _ _ (getVar_Some _ _ _ Hv)).
  destruct (texturesDestroyed x); [done|].
  assert (∀ s0, vars s0 !! v = Some x → vars s0 = vars s →
            modifyVar v (set_texturesDestroyed true) s0
            = (Ok tt, set_vars (<[v := set_texturesDestroyed true x]> (vars s)) s0))
    as Hmod.
  { intros s0 Hv0 Heq. rewrite (modifyVar_known _ _ _ _ Hv0). by rewrite Heq. }
  destruct (needsPingPong x).
  - destruct (_ && _).
    + unfold mbind, M_bind, mret, M_ret. rewrite (Hmod s Hv eq_refl).
      f_equal. apply world_eq; simpl; try done. by rewrite (left_id_L ∅ (∪)).
    + destruct (getAlternateTexture x) as [a|]; [|done].
      unfold mbind, M_bind, texture_destroy. by rewrite Hmod.
  - unfold mbind, M_bind, mret, M_ret. rewrite (Hmod s Hv eq_refl).
    f_equal. apply world_eq; simpl; try done. by rewrite (left_id_L ∅ (∪)).
Qed.

Lemma releasedTexture_same x b D :
  releasedTexture (set_texturesDestroyed b (set_dependents D x)) = releasedTexture x.
Proof. by destruct x. Qed.

Lemma released_refl v deps s : released v deps s s.
Proof.
  repeat split; try done.
  - intros w. destruct (vars s !! w) as [y|]; constructor.
    split; [done|]. exists (dependents y), (texturesDestroyed y).
    split; [by destruct y|]. split; by left.
  - by left.
  - intros [?|(w & y0 & y & a & H0 & H1 & Hf & Ht & _)]; [done|].
    simplify_eq. congruence.
Qed.

Lemma released_lookup v deps s0 s w y :
  released v deps s0 s → vars s !! w = Some y →
  ∃ y0, vars s0 !! w = Some y0 ∧ releasedVar v deps w y0 y.
Proof.
  intros (_ & _ & _ & Hvars & _) Hw. specialize (Hvars w).
  rewrite Hw in Hvars. inv Hvars. eauto.
Qed.

Lemma released_lookup0 v deps s0 s w y0 :
  released v deps s0 s → vars s0 !! w = Some y0 →
  ∃ y, vars s !! w = Some y ∧ releasedVar v deps w y0 y.
Proof.
  intros (_ & _ & _ & Hvars & _) Hw. specialize (Hvars w).
  rewrite Hw in Hvars. inv Hvars. eauto.
Qed.

(** A change of the record of [w] that keeps the relation with the start of
    the loop, and that destroys the textures [new]. *)
Lemma released_update v deps s0 s w y y' new :
  released v deps s0 s → vars s !! w = Some y →
  (∀ y0, vars s0 !! w = Some y0 → releasedVar v deps w y0 y →
         releasedVar v deps w y0 y'
         ∧ (texturesDestroyed y' = texturesDestroyed y ∧ new = ∅
            ∨ texturesDestroyed y = false ∧ texturesDestroyed y' = true
              ∧ new = from_option (λ a, {[tex_id a]}) ∅
                        (match releasedTexture y0 with Ok t => t | Throw _ => None end)
              ∧ is_Some (match releasedTexture y0 with
                         | Ok t => Some t | Throw _ => None end))) →
  released v deps s0
    (set_vars (<[w := y']> (vars s)) (set_destroyedTex (new ∪ destroyedTex s) s)).
Proof.
  intros Hrel Hw Hy'.
  destruct (released_lookup _ _ _ _ _ _ Hrel Hw) as (y0 & Hw0 & Hry).
  destruct (Hy' y0 Hw0 Hry) as [Hry' Hnew].
  pose proof Hrel as (Hnv & Hnt & Htr & Hvars & Htex).
  split; [done|]. split; [done|]. split; [done|]. split.
  - intros u. simpl. destruct (decide (w = u)) as [<-|Hne].
    + rewrite lookup_insert_eq, Hw0. by constructor.
    + rewrite lookup_insert_ne by done. apply Hvars.
  - intros t. simpl. rewrite elem_of_union, Htex.
    assert (∀ u z0 z a, u ≠ w →
              (vars s0 !! u = Some z0 ∧ <[w:=y']> (vars s) !! u = Some z
               ∧ texturesDestroyed z0 = false ∧ texturesDestroyed z = true
               ∧ releasedTexture z0 = Ok (Some a) ∧ tex_id a = t)
              ↔ (vars s0 !! u = Some z0 ∧ vars s !! u = Some z
                 ∧ texturesDestroyed z0 = false ∧ texturesDestroyed z = true
                 ∧ releasedTexture z0 = Ok (Some a) ∧ tex_id a = t)) as Hother.
    { intros u z0 z a Hne. by rewrite lookup_insert_ne. }
    split.
    + intros [Hin|[Hin|(u & z0 & z & a & Hu)]].
      * destruct Hnew as [[_ ->]|(Hf & Ht & -> & Hsome)]; [set_solver|].
        right. destruct (releasedTexture y0) as [[a|]|] eqn:Hrt;
          simpl in Hin; [|set_solver|set_solver].
        exists w, y0, y', a. rewrite lookup_insert_eq.
        apply elem_of_singleton in Hin.
        destruct Hry as (_ & D & b & -> & _ & Hb). simpl in Hf. subst b.
        destruct Hb as [Hb|(? & ? & _)]; [|done]. done.
      * by left.
      * right. destruct (decide (u = w)) as [->|Hne].
        -- destruct Hu as (Hu0 & Hu1 & Hf0 & Ht1 & Hrt & Hid).
           assert (z0 = y0) as -> by congruence.
           assert (z = y) as -> by congruence.
           exists w, y0, y', a. rewrite lookup_insert_eq.
           destruct Hnew as [[Heq _]|(Hf & _)]; [|congruence].
           rewrite Heq. done.
        -- exists u, z0, z, a. by apply Hother.
    + intros [Hin|(u & z0 & z & a & Hu)]; [by right; left|].
      destruct (decide (u = w)) as [->|Hne].
      * destruct Hu as (Hu0 & Hu1 & Hf0 & Ht1 & Hrt & Hid).
        rewrite lookup_insert_eq in Hu1.
        assert (z0 = y0) as -> by congruence.
        assert (z = y') as -> by congruence.
        destruct Hnew as [[Heq _]|(Hf & Ht & -> & _)].
        -- right. right. exists w, y0, y, a. rewrite <-Heq. done.
        -- left. rewrite Hrt. simpl. set_solver.
      * right. right. exists u, z0, z, a. by apply Hother.
Qed.

Lemma released_update' v deps s0 s s' w y y' new :
  released v deps s0 s → vars s !! w = Some y →
  s' = set_vars (<[w := y']> (vars s)) (set_destroyedTex (new ∪ destroyedTex s) s) →
  (∀ y0, vars s0 !! w = Some y0 → releasedVar v deps w y0 y →
         releasedVar v deps w y0 y'
         ∧ (texturesDestroyed y' = texturesDestroyed y ∧ new = ∅
            ∨ texturesDestroyed y = false ∧ texturesDestroyed y' = true
              ∧ new = from_option (λ a, {[tex_id a]}) ∅
                        (match releasedTexture y0 with Ok t => t | Throw _ => None end)
              ∧ is_Some (match releasedTexture y0 with
                         | Ok t => Some t | Throw _ => None end))) →
  released v deps s0 s'.
Proof. intros Hrel Hw -> Hy'. by eapply released_update. Qed.

(** Removing [v] from the dependents of a dependency. *)
Lemma released_remove v deps s0 s d y :
  released v deps s0 s → d ∈ deps → vars s !! d = Some y →
  released v deps s0
    (set_vars (<[d := set_dependents (dependents y ∖ {[v]}) y]> (vars s)) s).
Proof.
  intros Hrel Hd Hy.
  eapply (released_update' _ _ _ _ _ _ _ _ ∅ Hrel Hy).
  { apply world_eq; simpl; try done. by rewrite (left_id_L ∅ (∪)). }
  intros y0 Hy0 (Hout & D & b & -> & HD & Hb). split; [|by left].
  split; [done|]. exists (D ∖ {[v]}), b. split; [done|]. split.
  - right. split; [done|]. destruct HD as [->|[_ ->]]; set_solver.
  - destruct Hb as [Hb|(? & ? & ? & ->)]; [by left|].
    right. repeat split; try done. set_solver.
Qed.

(** Releasing the textures of a destroyed variable without dependents. *)
Lemma released_destroyTextures v deps s0 s w y s' :
  released v deps s0 s → vars s !! w = Some y → (w ∈ deps ∨ w = v) →
  destroyed y = true → dependents y = ∅ →
  destroyTextures w s = (Ok tt, s') →
  released v deps s0 s'
  ∧ ∃ y', vars s' !! w = Some y' ∧ texturesDestroyed y' = true
          ∧ dependents y' = dependents y ∧ destroyed y' = destroyed y.
Proof.
  intros Hrel Hy Hw Hd Hdep Hrun.
  rewrite (destroyTextures_run _ _ _ Hy) in Hrun.
  destruct (texturesDestroyed y) eqn:Htd.
  { simplify_eq. split; [done|]. by exists y. }
  destruct (releasedTexture y) as [t|] eqn:Hrt; [|done].
  injection Hrun as <-. split.
  - eapply (released_update' _ _ _ _ _ _ _ _ _ Hrel Hy); [done|].
    intros y0 Hy0 (Hout & D & b & -> & HD & Hb).
    rewrite releasedTexture_same in Hrt. simpl in *. subst b.
    destruct Hb as [Hb|(? & ? & _)]; [|done].
    split.
    + split; [intros Hnd Hne; by destruct Hw|].
      exists D, true. split; [done|]. split; [done|]. right. done.
    + right. rewrite Hrt. simpl. eauto.
  - eexists. split; [apply lookup_insert_eq|]. by simpl.
Qed.

Lemma released_releaseDependency v deps s0 s d s' :
  released v deps s0 s → d ∈ deps → releaseDependency v d s = (Ok tt, s') →
  released v deps s0 s'
  ∧ ∃ y', vars s' !! d = Some y' ∧ (v ∉ dependents y')
          ∧ (destroyed y' = true → dependents y' = ∅ → texturesDestroyed y' = true).
Proof.
  intros Hrel Hd Hrun. unfold releaseDependency in Hrun.
  destruct (vars s !! d) as [y|] eqn:Hy.
  2: { unfold mbind, M_bind, modifyVar, getVar in Hrun. simpl in Hrun.
       by rewrite lookup_alter_eq, Hy in Hrun. }
  rewrite (bind_Ok _ _ _ _ _ (modifyVar_known _ _ _ _ Hy)) in Hrun.
  pose proof (released_remove _ _ _ _ _ _ Hrel Hd Hy) as Hrel1.
  set (y1 := set_dependents (dependents y ∖ {[v]}) y) in *.
  set (s1 := set_vars (<[d:=y1]> (vars s)) s) in *.
  assert (vars s1 !! d = Some y1) as Hy1 by apply lookup_insert_eq.
  rewrite (bind_Ok _ _ _ _ _ (getVar_Some _ _ _ Hy1)) in Hrun.
  assert (v ∉ dependents y1) as Hv1 by (unfold y1; simpl; set_solver).
  destruct (destroyed y1 && negb (texturesDestroyed y1)
            && bool_decide (size (dependents y1) = 0%nat)) eqn:Hcond.
  - apply andb_true_iff in Hcond as [Hcond Hsize].
    apply andb_true_iff in Hcond as [Hdes Htd].
    apply bool_decide_eq_true in Hsize. apply size_empty_iff in Hsize.
    apply leibniz_equiv in Hsize.
    destruct (released_destroyTextures _ _ _ _ _ _ _ Hrel1 Hy1 (or_introl Hd)
                Hdes Hsize Hrun) as (Hrel2 & y' & Hy' & Htd' & Hdep' & Hdes').
    split; [done|]. exists y'. rewrite Hdep'. done.
  - injection Hrun as <-. split; [done|]. exists y1. split; [done|].
    split; [done|]. intros Hdes Hdep.
    destruct (texturesDestroyed y1) eqn:Htd; [done|].
    rewrite Hdes, Hdep in Hcond.
    by rewrite (bool_decide_eq_true_2 _ (size_empty (C:=gset nat))) in Hcond.
Qed.

(** What a later part of [destroy] keeps of a record. *)
Lemma releasedVar_later v deps w y1 y' :
  releasedVar v deps w y1 y' → v ∉ dependents y1 →
  (destroyed y1 = true → dependents y1 = ∅ → texturesDestroyed y1 = true) →
  (v ∉ dependents y')
  ∧ (destroyed y' = true → dependents y' = ∅ → texturesDestroyed y' = true).
Proof.
  intros (_ & D & b & -> & HD & Hb) Hv Hrel. simpl.
  assert (D = dependents y1) as ->.
  { destruct HD as [->|[_ ->]]; [done|]. set_solver. }
  split; [done|]. intros Hdes Hdep.
  destruct Hb as [->|(_ & -> & _)]; [auto|done].
Qed.

Lemma released_loop v deps s0 l s s' :
  released v deps s0 s → (∀ d, d ∈ l → d ∈ deps) →
  forM_ l (releaseDependency v) s = (Ok tt, s') →
  released v deps s0 s'.
Proof.
  revert s. induction l as [|d l IH]; intros s Hrel Hl Hrun; simpl in Hrun.
  - by injection Hrun as <-.
  - unfold mbind, M_bind in Hrun.
    destruct (releaseDependency v d s) as [[[]|e] s1] eqn:Hstep; [|done].
    destruct (released_releaseDependency _ _ _ _ _ _ Hrel
                (Hl d (list_elem_of_here _ _)) Hstep) as [Hrel1 _].
    apply (IH s1); [done| |done].
    intros d' Hd'. apply Hl. by apply list_elem_of_further.
Qed.

Lemma released_loop_progress v (deps : list nat) l s s' :
  (∀ d, d ∈ l → d ∈ deps) →
  forM_ l (releaseDependency v) s = (Ok tt, s') →
  ∀ d, d ∈ l →
       ∃ y', vars s' !! d = Some y' ∧ (v ∉ dependents y')
             ∧ (destroyed y' = true → dependents y' = ∅ →
                texturesDestroyed y' = true).
Proof.
  revert s. induction l as [|d0 l IH]; intros s Hl Hrun d Hd; [by inv Hd|].
  simpl in Hrun. unfold mbind, M_bind in Hrun.
  destruct (releaseDependency v d0 s) as [[[]|e] s1] eqn:Hstep; [|done].
  assert (∀ d', d' ∈ l → d' ∈ deps) as Hl'
    by (intros d' Hd'; apply Hl; by apply list_elem_of_further).
  destruct (decide (d ∈ l)) as [Hin|Hnin]; [by apply (IH s1)|].
  assert (d = d0) as -> by (inv Hd; done).
  destruct (released_releaseDependency _ _ _ _ _ _ (released_refl v deps s)
              (Hl d0 (list_elem_of_here _ _)) Hstep) as (_ & y1 & Hy1 & Hv1 & Hp1).
  pose proof (released_loop v deps s1 l s1 s' (released_refl _ _ _) Hl' Hrun) as Hrel.
  destruct (released_lookup0 _ _ _ _ _ _ Hrel Hy1) as (y' & Hy' & Hry).
  exists y'. split; [done|]. by apply (releasedVar_later v deps d0 y1).
Qed.

Lemma destroy_destroyed v s x :
  vars s !! v = Some x → destroyed x = true → destroy v s = (Ok tt, s).
Proof.
  intros Hv Hd. unfold destroy.
  by rewrite (bind_Ok _ _ _ _ _ (getVar_Some _ _ _ Hv)), Hd.
Qed.

(** A call of [destroy] that returns: the variable is marked, the loop
    over its dependencies and the conditional release of its own textures
    stay within [released], and the dependency list and the [initialized]
    flag are reset. *)
Lemma destroy_spec v s x s' :
  vars s !! v = Some x → destroyed x = false → destroy v s = (Ok tt, s') →
  ∃ s2 y2,
    released v (dependencies x) (markDestroyed v x s) s2
    ∧ vars s2 !! v = Some y2
    ∧ s' = set_vars (<[v := set_initialized false (set_dependencies [] y2)]>
                       (vars s2)) s2
    ∧ (∀ d, d ∈ dependencies x →
            ∃ y', vars s2 !! d = Some y' ∧ (v ∉ dependents y')
                  ∧ (destroyed y' = true → dependents y' = ∅ →
                     texturesDestroyed y' = true))
    ∧ (dependents y2 = ∅ → texturesDestroyed y2 = true).
Proof.
  intros Hv Hd Hrun. unfold destroy in Hrun.
  rewrite (bind_Ok _ _ _ _ _ (getVar_Some _ _ _ Hv)), Hd in Hrun.
  assert ((modifyVar v (set_destroyed true);; modifyVar v (set_mesh None);;
           modifyVar v (set_shader None)) s = (Ok tt, markDestroyed v x s)) as Hmark.
  { unfold mbind, M_bind, modifyVar, markDestroyed. simpl. f_equal.
    apply world_eq; simpl; try done.
    rewrite (alter_known _ _ _ _ Hv).
    rewrite (alter_known _ _ _ _ (lookup_insert_eq _ _ _)), insert_insert_eq.
    by rewrite (alter_known _ _ _ _ (lookup_insert_eq _ _ _)), insert_insert_eq. }
  set (s0 := markDestroyed v x s) in *.
  assert (vars s0 !! v = Some (set_shader None (set_mesh None (set_destroyed true x))))
    as Hv0 by apply lookup_insert_eq.
  unfold mbind, M_bind in Hrun, Hmark.
  destruct (modifyVar v (set_destroyed true) s) as [[[]|?] sa]; [|done].
  destruct (modifyVar v (set_mesh None) sa) as [[[]|?] sb]; [|done].
  destruct (modifyVar v (set_shader None) sb) as [[[]|?] sc]; [|done].
  injection Hmark as ->.
  destruct (forM_ (dependencies x) (releaseDependency v) s0)
    as [[[]|?] s1] eqn:Hloop; [|done].
  pose proof (released_loop v (dependencies x) s0 _ s0 s1 (released_refl _ _ _)
                (λ d H, H) Hloop) as Hrel1.
  pose proof (released_loop_progress v (dependencies x) _ s0 s1 (λ d H, H) Hloop)
    as Hprog1.
  destruct (released_lookup0 _ _ _ _ _ _ Hrel1 Hv0) as (y1 & Hy1 & Hry1).
  rewrite (getVar_Some _ _ _ Hy1) in Hrun.
  assert (destroyed y1 = true) as Hdes1.
  { by destruct Hry1 as (_ & D & b & -> & _). }
  assert (∃ s2 y2, released v (dependencies x) s0 s2
                   ∧ released v (dependencies x) s1 s2
                   ∧ vars s2 !! v = Some y2
                   ∧ (dependents y2 = ∅ → texturesDestroyed y2 = true)
                   ∧ (if bool_decide (size (dependents y1) = 0%nat)
                      then destroyTextures v else mret tt) s1 = (Ok tt, s2))
    as (s2 & y2 & Hrel2 & Hrel12 & Hy2 & Hown & Hstep).
  { case_bool_decide as Hsize.
    - apply size_empty_iff, leibniz_equiv in Hsize.
      destruct (destroyTextures v s1) as [[[]|?] s2] eqn:Hdt; [|done].
      destruct (released_destroyTextures _ _ _ _ _ _ _ Hrel1 Hy1 (or_intror eq_refl)
                  Hdes1 Hsize Hdt) as (Hrel2 & y2 & Hy2 & Htd2 & _).
      destruct (released_destroyTextures _ _ _ _ _ _ _ (released_refl v (dependencies x) s1) Hy1
                  (or_intror eq_refl) Hdes1 Hsize Hdt) as (Hrel12 & _).
      exists s2, y2. done.
    - exists s1, y1. split; [done|]. split; [apply released_refl|].
      split; [done|]. split; [|done]. intros Hdep. destruct Hsize.
      rewrite Hdep. apply size_empty. }
  rewrite Hstep in Hrun.
  unfold modifyVar in Hrun. simpl in Hrun. injection Hrun as <-.
  exists s2, y2. split; [done|]. split; [done|]. split.
  { apply world_eq; simpl; try done.
    rewrite (alter_known _ _ _ _ Hy2).
    by rewrite (alter_known _ _ _ _ (lookup_insert_eq _ _ _)), insert_insert_eq. }
  split; [|done]. intros d Hdin.
  destruct (Hprog1 d Hdin) as (y' & Hy' & Hnv & Hp).
  destruct (released_lookup0 _ _ _ _ _ _ Hrel12 Hy') as (y'' & Hy'' & Hry).
  exists y''. split; [done|]. by apply (releasedVar_later v (dependencies x) d y').
Qed.

(** ** C2: release of the textures *)

Lemma releasedTexture_alternate y a :
  releasedTexture y = Ok (Some a) →
  needsPingPong y = true ∧ getAlternateTexture y = Some a
  ∧ (externalPingTexture y = true →
     ∀ p, pingTexture y = Some p → tex_id p ≠ tex_id a).
Proof.
  unfold releasedTexture. destruct (needsPingPong y); [|done].
  destruct (getAlternateTexture y) as [a'|] eqn:Ha.
  - destruct (pingTexture y) as [p|] eqn:Hp.
    + destruct (same_texture a' p && externalPingTexture y) eqn:Hext; [done|].
      intros [= <-]. split; [done|]. split; [done|].
      intros He p' [= <-] Heq. rewrite He, andb_true_r in Hext.
      unfold same_texture in Hext. by rewrite bool_decide_eq_true_2 in Hext.
    + simpl. intros [= <-]. done.
  - destruct (pingTexture y); simpl; [done|].
    by destruct (externalPingTexture y).
Qed.

(** C2, amended. A call of [destroy()] that returns runs the release of the
    textures of a variable only when that variable is destroyed and has no
    dependents left: it releases a dependency only if the dependency was
    already destroyed, it never releases a variable in whose dependents
    another variable is still registered (as every variable that lists it as
    a dependency is), and it does release an already destroyed dependency
    whose last dependent is the variable being destroyed.  The release frees
    the alternate buffer of a ping-pong variable, unless that is the
    external ping texture, and nothing else: the current buffer stays
    alive. *)
Theorem texture_release (s : World) (v : VarId) (x : GPUComputeVariable) (s' : World) :
  vars s !! v = Some x → destroyed x = false → destroy v s = (Ok tt, s') →
  (∀ w y y', vars s !! w = Some y → vars s' !! w = Some y' →
             texturesDestroyed y = false → texturesDestroyed y' = true →
             destroyed y' = true ∧ dependents y' = ∅
             ∧ (w = v ∨ (w ∈ dependencies x ∧ destroyed y = true))) ∧
  (wired s →
   ∀ w y y' u z, vars s !! w = Some y → vars s' !! w = Some y' →
                 vars s !! u = Some z → u ≠ v → w ∈ dependencies z →
                 texturesDestroyed y' = texturesDestroyed y) ∧
  (∀ w y, w ∈ dependencies x → w ≠ v → vars s !! w = Some y →
          destroyed y = true → dependents y ⊆ {[v]} →
          ∃ y', vars s' !! w = Some y' ∧ texturesDestroyed y' = true) ∧
  (∀ t, t ∈ destroyedTex s' ↔
        t ∈ destroyedTex s
        ∨ ∃ w y y' a, vars s !! w = Some y ∧ vars s' !! w = Some y'
                      ∧ texturesDestroyed y = false ∧ texturesDestroyed y' = true
                      ∧ releasedTexture y = Ok (Some a) ∧ tex_id a = t) ∧
  (∀ y a, releasedTexture y = Ok (Some a) →
          needsPingPong y = true ∧ getAlternateTexture y = Some a
          ∧ (externalPingTexture y = true →
             ∀ p, pingTexture y = Some p → tex_id p ≠ tex_id a)).
Proof.
  intros Hv Hd Hrun.
  destruct (destroy_spec _ _ _ _ Hv Hd Hrun)
    as (s2 & y2 & Hrel & Hy2 & -> & Hprog & Hown).
  set (x0 := set_shader None (set_mesh None (set_destroyed true x))) in *.
  (* the records at the start of the loop and at the end of the call *)
  assert (∀ w y, vars s !! w = Some y →
            ∃ y0, vars (markDestroyed v x s) !! w = Some y0
                  ∧ texturesDestroyed y0 = texturesDestroyed y
                  ∧ dependents y0 = dependents y
                  ∧ releasedTexture y0 = releasedTexture y
                  ∧ (w ≠ v → y0 = y) ∧ (w = v → destroyed y0 = true)) as Hstart.
  { intros w y Hw. unfold markDestroyed. simpl.
    destruct (decide (w = v)) as [->|Hne].
    - rewrite lookup_insert_eq. exists x0.
      assert (y = x) as -> by congruence.
      split; [done|]. by destruct x.
    - rewrite lookup_insert_ne by done. exists y. done. }
  assert (∀ w y', <[v:=set_initialized false (set_dependencies [] y2)]> (vars s2) !! w
                  = Some y' →
            ∃ y2', vars s2 !! w = Some y2'
                   ∧ texturesDestroyed y' = texturesDestroyed y2'
                   ∧ dependents y' = dependents y2'
                   ∧ destroyed y' = destroyed y2') as Hend.
  { intros w y' Hw. destruct (decide (w = v)) as [->|Hne].
    - rewrite lookup_insert_eq in Hw. exists y2. by simplify_eq.
    - rewrite lookup_insert_ne in Hw by done. exists y'. done. }
  assert (∀ w y y', vars s !! w = Some y →
            <[v:=set_initialized false (set_dependencies [] y2)]> (vars s2) !! w
            = Some y' →
            ∃ y0 y2', vars (markDestroyed v x s) !! w = Some y0
                      ∧ vars s2 !! w = Some y2'
                      ∧ releasedVar v (dependencies x) w y0 y2'
                      ∧ texturesDestroyed y0 = texturesDestroyed y
                      ∧ dependents y0 = dependents y
                      ∧ (w ≠ v → y0 = y) ∧ (w = v → destroyed y0 = true)
                      ∧ texturesDestroyed y' = texturesDestroyed y2'
                      ∧ dependents y' = dependents y2'
                      ∧ destroyed y' = destroyed y2') as Hboth.
  { intros w y y' Hw Hw'.
    destruct (Hstart w y Hw) as (y0 & Hy0 & ? & ? & ? & ? & ?).
    destruct (Hend w y' Hw') as (y2' & Hy2' & ? & ? & ?).
    destruct (released_lookup0 _ _ _ _ _ _ Hrel Hy0) as (y2'' & Hy2'' & Hry).
    assert (y2'' = y2') as -> by congruence.
    exists y0, y2'. done. }
  simpl. split; [|split; [|split; [|split]]].
  - intros w y y' Hw Hw' Hf Ht.
    destruct (Hboth w y y' Hw Hw')
      as (y0 & y2' & _ & _ & Hry & Htd0 & _ & Hne & Heq & Htd' & Hdep' & Hdes').
    destruct Hry as (Hout & D & b & -> & HD & Hb). simpl in *.
    rewrite Htd0, Hf in Hb. rewrite Ht in Htd'. subst b.
    destruct Hb as [?|(_ & _ & Hdes0 & ->)]; [done|].
    rewrite Hdes', Hdep'. split; [done|]. split; [done|].
    destruct (decide (w = v)) as [|Hwv]; [by left|]. right.
    rewrite (Hne Hwv) in Hdes0. split; [|done].
    destruct HD as [HD|[? _]]; [|done].
    destruct (decide (w ∈ dependencies x)); [done|].
    specialize (Hout ltac:(done) Hwv). rewrite (Hne Hwv) in Hout.
    apply (f_equal texturesDestroyed) in Hout. simpl in Hout. congruence.
  - intros Hwired w y y' u z Hw Hw' Hu Huv Hlist.
    destruct (Hwired u z w Hu Hlist) as (y_ & Hy_ & Hreg).
    assert (y_ = y) as -> by congruence.
    destruct (Hboth w y y' Hw Hw')
      as (y0 & y2' & _ & _ & Hry & Htd0 & Hdep0 & _ & _ & Htd' & _).
    destruct Hry as (_ & D & b & -> & HD & Hb). simpl in *.
    rewrite Htd', <-Htd0.
    destruct Hb as [->|(_ & _ & _ & ->)]; [done|].
    rewrite Hdep0 in HD. destruct HD as [HD|[_ HD]]; set_solver.
  - intros w y Hw Hwv Hy Hdes Hdep.
    destruct (Hprog w Hw) as (y2' & Hy2' & Hnv & Hp).
    exists y2'. rewrite lookup_insert_ne by done. split; [done|].
    destruct (Hstart w y Hy) as (y0 & Hy0 & _ & _ & _ & Hne & _).
    rewrite (Hne Hwv) in Hy0.
    destruct (released_lookup0 _ _ _ _ _ _ Hrel Hy0) as (y2'' & Hy2'' & Hry).
    assert (y2'' = y2') as -> by congruence.
    destruct Hry as (_ & D & b & -> & HD & Hb). simpl in *.
    apply Hp; [done|]. destruct HD as [->|[_ ->]]; set_solver.
  - intros t. destruct Hrel as (_ & _ & _ & _ & Htex). rewrite Htex.
    unfold markDestroyed at 1. simpl.
    split; (intros [Hin|(w & ya & yb & a & Ha & Hb & Hf & Ht & Hrt & Hid)];
            [by left|right]).
    + assert (∃ y, vars s !! w = Some y ∧ texturesDestroyed y = false
                   ∧ releasedTexture y = Ok (Some a)) as (y & Hy & Hfy & Hrty).
      { unfold markDestroyed in Ha. simpl in Ha.
        destruct (decide (w = v)) as [->|Hne].
        - rewrite lookup_insert_eq in Ha. exists x. simplify_eq.
          split; [done|]. split; [done|]. by destruct x.
        - rewrite lookup_insert_ne in Ha by done. by exists ya. }
      destruct (decide (w = v)) as [->|Hne].
      * exists v, y, (set_initialized false (set_dependencies [] y2)), a.
        rewrite lookup_insert_eq. assert (yb = y2) as -> by congruence. done.
      * exists w, y, yb, a. by rewrite lookup_insert_ne.
    + destruct (Hboth w ya yb Ha Hb)
        as (y0 & y2' & Hy0 & Hy2' & _ & Htd0 & _ & _ & _ & Htd' & _).
      destruct (Hstart w ya Ha) as (y0' & Hy0' & _ & _ & Hrt0 & _).
      assert (y0' = y0) as -> by congruence.
      exists w, y0, y2', a. rewrite Hrt0. split_and!; try done; congruence.
  - apply releasedTexture_alternate.
Qed.

Lemma wiredb_spec s : wiredb s = true → wired s.
Proof.
  unfold wiredb. rewrite forallb_forall. intros H u z w Hu Hw.
  assert (In (u, z) (map_to_list (vars s))) as Hin
    by (by apply list_elem_of_In, elem_of_map_to_list).
  specialize (H _ Hin). simpl in H. rewrite forallb_forall in H.
  specialize (H w ltac:(by apply list_elem_of_In)).
  destruct (vars s !! w) as [y|]; [|done].
  exists y. split; [done|]. by apply bool_decide_eq_true in H.
Qed.

Lemma texture_release_witness :
  (∃ y', vars exampleAfterLast !! 0%nat = Some y' ∧ texturesDestroyed y' = true)
  ∧ (∀ t, t ∈ destroyedTex exampleAfterLast ↔
          t ∈ destroyedTex exampleBeforeLast
          ∨ ∃ w y y' a, vars exampleBeforeLast !! w = Some y
                        ∧ vars exampleAfterLast !! w = Some y'
                        ∧ texturesDestroyed y = false ∧ texturesDestroyed y' = true
                        ∧ releasedTexture y = Ok (Some a) ∧ tex_id a = t)
  ∧ texturesDestroyed (varAt 1%nat exampleAfterLast)
    = texturesDestroyed (varAt 1%nat exampleAfterLast).
Proof.
  assert (vars exampleBeforeLast !! 1%nat = Some (varAt 1%nat exampleBeforeLast))
    as Hv by (vm_compute; reflexivity).
  assert (destroyed (varAt 1%nat exampleBeforeLast) = false) as Hd
    by (vm_compute; reflexivity).
  assert (destroy 1%nat exampleBeforeLast = (Ok tt, exampleAfterLast)) as Hrun
    by (unfold exampleAfterLast; apply run_eq; vm_compute; reflexivity).
  destruct (texture_release _ _ _ _ Hv Hd Hrun) as (_ & _ & Hlast & Htex & _).
  split; [|split; [exact Htex|reflexivity]].
  apply (Hlast 0%nat (varAt 0%nat exampleBeforeLast)).
  - vm_compute. apply list_elem_of_here.
  - discriminate.
  - vm_compute. reflexivity.
  - vm_compute. reflexivity.
  - assert (dependents (varAt 0%nat exampleBeforeLast) = {[1%nat]}) as ->
      by (vm_compute; reflexivity).
    done.
Defined.

(** C2 as stated fails: after the last dependent of an already destroyed
    variable is destroyed, the release has run ([texturesDestroyed]), yet the
    backing texture of the variable is still alive; no texture was freed. *)
Lemma texture_release_counterexample :
  let s := exec exampleChain exampleBase in
  outcome exampleChain exampleBase = Ok tt
  ∧ destroyed (varAt 0%nat s) = true ∧ destroyed (varAt 1%nat s) = true
  ∧ dependents (varAt 0%nat s) = ∅
  ∧ texturesDestroyed (varAt 0%nat s) = true
  ∧ getCurrentTexture (varAt 0%nat s) = Some (mkTex 1 2 2)
  ∧ getAlternateTexture (varAt 0%nat s) = Some (mkTex 1 2 2)
  ∧ (1%nat ∉ destroyedTex s) ∧ destroyedTex s = ∅.
Proof.
  assert (destroyedTex (exec exampleChain exampleBase) = ∅) as Hempty
    by (vm_compute; reflexivity).
  cbv zeta. rewrite Hempty. split_and!; try (vm_compute; reflexivity).
  apply not_elem_of_empty.
Qed.

(** ** C9: externally owned textures *)

(** In this sequence of calls, each of which returns, the texture [0] that
    the caller handed to [setInitialTexture] of variable [0] is destroyed by
    the release of that variable, which the [destroy()] of its reader
    triggers. *)
Lemma external_texture_destroyed :
  let s := exec exampleRevival emptyWorld in
  outcome exampleRevival emptyWorld = Ok tt
  ∧ externalPingTexture (varAt 0%nat s) = true
  ∧ pongTexture (varAt 0%nat s) = Some (mkTex 0 2 2)
  ∧ elements (destroyedTex s) = [0%nat]
  ∧ 0%nat ∈ destroyedTex s.
Proof.
  cbv zeta. split_and!; vm_compute; reflexivity.
Qed.

(** * Further properties of the application code *)

(** ** Coordinate conversions *)

Section conversions.
Import SimulationShader SimSpaceConversion.
Local Open Scope R_scope.

Lemma half_eq : 0.5 = 1 / 2.
Proof. lra. Qed.

Lemma vec2_eq (a b : vec2) : v2x a = v2x b → v2y a = v2y b → a = b.
Proof. destruct a, b. simpl. by intros -> ->. Qed.

(** X1. The GLSL conversions between pixels and simulation units are
    inverse to each other whenever the unit size [uS] is not zero. *)
Theorem pxToSim_simToPx_inverse (u : Uniforms) (p : vec2) :
  uS u ≠ 0 →
  pxToSim u (simToPx u p) = p ∧ simToPx u (pxToSim u p) = p.
Proof.
  intros HS. split; apply vec2_eq; simpl.
  all: field.
  all: try split; done.
Qed.

(** X2. So are the conversions between texture coordinates and simulation
    units, whenever moreover the resolution has no zero component; the
    origin of the simulation space is the centre of the texture. *)
Theorem uvToSim_simToUv_inverse (u : Uniforms) (p : vec2) :
  uS u ≠ 0 → v2x (uSimResolution u) ≠ 0 → v2y (uSimResolution u) ≠ 0 →
  uvToSim u (simToUv u p) = p ∧ simToUv u (uvToSim u p) = p
  ∧ simToUv u zero2 = mkVec2 0.5 0.5.
Proof.
  intros HS Hx Hy. split_and!; apply vec2_eq; simpl; rewrite ?half_eq.
  all: field.
  all: try split; done.
Qed.

End conversions.

Lemma pxToSim_simToPx_inverse_witness :
  SimSpaceConversion.pxToSim SimulationShader.exampleUniforms
    (SimulationShader.simToPx SimulationShader.exampleUniforms
       (SimulationShader.mkVec2 0.25 0.5))
  = SimulationShader.mkVec2 0.25 0.5.
Proof.
  apply (pxToSim_simToPx_inverse SimulationShader.exampleUniforms).
  simpl. lra.
Defined.

Lemma uvToSim_simToUv_inverse_witness :
  SimulationShader.simToUv SimulationShader.exampleUniforms
    (SimSpaceConversion.uvToSim SimulationShader.exampleUniforms
       (SimulationShader.mkVec2 0.25 0.5))
  = SimulationShader.mkVec2 0.25 0.5.
Proof.
  apply (uvToSim_simToUv_inverse SimulationShader.exampleUniforms); simpl; lra.
Defined.

Section context.
Import AppContext.
Local Open Scope R_scope.

(** X3. While the screen still has the size it had when the context was
    created, [ctx.pxToSim] computes what the GLSL [pxToSim] computes with
    the uniforms that the simulation derives from the base resolution. *)
Theorem ctx_pxToSim_agrees_with_shader
    (screen : Resolution) (u : SimulationShader.Uniforms) (x y : R) :
  res_width screen ≠ 0 →
  let ctx := createAppContext screen in
  let p := SimSpaceConversion.pxToSim (simulationUniforms (baseResolution ctx) u)
             (SimulationShader.mkVec2 x y) in
  pxToSim ctx screen x y = (SimulationShader.v2x p, SimulationShader.v2y p).
Proof.
  intros HW. simpl. unfold pxToSim. simpl. rewrite half_eq. f_equal.
  all: field.
  all: try split; done.
Qed.

(** X4. The base resolution cancels out of [ctx.pxToSim]: the result is the
    offset from the centre of the current screen, in units of the current
    screen width.  Hence scaling the screen and the pointer by the same
    factor leaves the simulation coordinates unchanged. *)
Theorem ctx_pxToSim_relative_to_screen (base screen : Resolution) (x y k : R) :
  res_width base ≠ 0 → res_width screen ≠ 0 → k ≠ 0 →
  pxToSim (createAppContext base) screen x y
  = ((x - res_width screen / 2) / res_width screen,
     (y - res_height screen / 2) / res_width screen)
  ∧ pxToSim (createAppContext base)
      (mkResolution (k * res_width screen) (k * res_height screen)) (k * x) (k * y)
    = pxToSim (createAppContext base) screen x y.
Proof.
  intros HB HW Hk. unfold pxToSim. simpl.
  split; f_equal.
  all: field.
  all: try split; done.
Qed.

End context.

Lemma ctx_pxToSim_agrees_with_shader_witness :
  AppContext.pxToSim (AppContext.createAppContext (AppContext.mkResolution 1920 1080))
    (AppContext.mkResolution 1920 1080) 960 540 = (0, 0)%R.
Proof.
  rewrite (ctx_pxToSim_agrees_with_shader (AppContext.mkResolution 1920 1080)
             SimulationShader.exampleUniforms 960 540); simpl; [|lra].
  f_equal; lra.
Defined.

Lemma ctx_pxToSim_relative_to_screen_witness :
  AppContext.pxToSim (AppContext.createAppContext (AppContext.mkResolution 1920 1080))
    (AppContext.mkResolution (2 * 800) (2 * 600)) (2 * 400) (2 * 300)
  = AppContext.pxToSim (AppContext.createAppContext (AppContext.mkResolution 1920 1080))
      (AppContext.mkResolution 800 600) 400 300.
Proof.
  apply (ctx_pxToSim_relative_to_screen (AppContext.mkResolution 1920 1080)
           (AppContext.mkResolution 800 600) 400 300 2); simpl; lra.
Defined.

(** ** The mouse interaction shader *)

Section mouse_bounce.
Import SimulationShader SimSpaceConversion MouseBounceShader.
Local Open Scope R_scope.

Lemma vec4_of_xy_zw (c : vec4) : vec4_of (xy c) (zw c) = c.
Proof. by destruct c. Qed.

Lemma clamp_low (x : R) : x <= 0 → clamp x 0 1 = 0.
Proof.
  intros H. unfold clamp. rewrite Rmax_right by done. apply Rmin_left. lra.
Qed.

Lemma clamp_high (x : R) : 1 <= x → clamp x 0 1 = 1.
Proof.
  intros H. unfold clamp. rewrite Rmax_left by lra. apply Rmin_right. done.
Qed.

Lemma mix_0 (a b : vec2) : mix a b 0 = a.
Proof. apply vec2_eq; simpl; ring. Qed.

Lemma mix_1 (a b : vec2) : mix a b 1 = b.
Proof. apply vec2_eq; simpl; ring. Qed.

Lemma length2_zero : length2 zero2 = 0.
Proof.
  unfold length2, dot, zero2. simpl.
  replace (0 * 0 + 0 * 0) with 0 by ring. apply sqrt_0.
Qed.

Lemma main_late (u : Uniforms) (t : Samplers) (vUV : vec2) :
  4 <= uPhase u →
  main u t vUV = vec4_of (bounce u t vUV).1 (bounce u t vUV).2.
Proof.
  intros H. unfold main. destruct (Rlt_dec (uPhase u) 3) as [|Hn]; [lra|].
  destruct (bounce u t vUV) as [p v].
  rewrite clamp_high by lra. by rewrite !mix_1.
Qed.

(** X5. The phases of the mouse layer: up to phase 3 (included) the pass
    copies the state of the main simulation; from phase 4 on its output is
    the integrated bounce state alone, in which the main simulation
    enters only through its position. *)
Theorem mouse_bounce_phases (u : Uniforms) (t : Samplers) (vUV : vec2) :
  (uPhase u <= 3 → main u t vUV = uParticlesState t vUV)
  ∧ (4 <= uPhase u →
     main u t vUV = vec4_of (bounce u t vUV).1 (bounce u t vUV).2
     ∧ ∀ vel : vec2,
         let t' := mkSamplers
                     (λ p, vec4_of (xy (uParticlesState t p)) vel)
                     (uBounceMovement t) (uAttributes t) in
         main u t' vUV = main u t vUV).
Proof.
  split.
  - intros H. unfold main. destruct (Rlt_dec (uPhase u) 3) as [|Hn].
    + apply vec4_of_xy_zw.
    + destruct (bounce u t vUV) as [p v].
      rewrite clamp_low by lra. rewrite !mix_0. apply vec4_of_xy_zw.
  - intros H. split; [by apply main_late|].
    intros vel t'. rewrite !main_late by done. done.
Qed.

(** X6. Rest state of the mouse layer: a particle of the layer that sits on
    its equilibrium position with velocity zero, out of the reach of the
    mouse, stays there with velocity zero (from phase 4 on). *)
Theorem mouse_bounce_rest_state (u : Uniforms) (t : Samplers) (vUV : vec2) :
  4 <= uPhase u →
  uMassMultiplier u ≠ 0 →
  0 < uMouseForceRadius u → 0 < uMouseForcePow u →
  uBounceMovement t vUV = vec4_of (xy (uParticlesState t vUV)) zero2 →
  uMouseForceRadius u
  <= length2 (vsub (uMousePos u) (xy (uParticlesState t vUV))) →
  main u t vUV = vec4_of (xy (uParticlesState t vUV)) zero2.
Proof.
  intros Hphase Hm Hr Hp Hst Hfar.
  rewrite main_late by done.
  unfold bounce. rewrite Hst.
  set (e := xy (uParticlesState t vUV)) in *.
  assert (xy (vec4_of e zero2) = e) as -> by (by destruct e).
  assert (zw (vec4_of e zero2) = zero2) as -> by done.
  assert (vsub e e = zero2) as ->
    by (apply vec2_eq; simpl; ring).
  rewrite length2_zero.
  set (d := length2 (vsub (uMousePos u) e)) in *.
  assert (Rmax 0 (1 - d / uMouseForceRadius u) = 0) as ->.
  { apply Rmax_left. apply Rle_minus.
    apply (Rmult_le_reg_r (uMouseForceRadius u)); [done|].
    unfold Rdiv. rewrite Rmult_assoc, Rinv_l by lra. lra. }
  assert (pow 0 (uMouseForcePow u) = 0) as ->.
  { unfold pow. destruct (Rlt_dec 0 0); [lra|done]. }
  unfold vec4_of, vadd, vscale, vdiv, zero2, dot. simpl.
  unfold Rdiv. f_equal; ring.
Qed.

End mouse_bounce.

Lemma mouse_bounce_phases_witness :
  MouseBounceShader.main
    (MouseBounceShader.mkUniforms 0.2 3 3 4.5 16 (SimulationShader.mkVec2 0 0)
       0.06 4 1 2)
    (MouseBounceShader.mkSamplers
       (SimulationShader.constSampler (SimulationShader.mkVec4 0.25 0.5 1 2))
       (SimulationShader.constSampler (SimulationShader.mkVec4 0 0 0 0))
       (SimulationShader.constSampler (SimulationShader.mkVec4 0 0 0 1)))
    (SimulationShader.mkVec2 0 0)
  = SimulationShader.mkVec4 0.25 0.5 1 2.
Proof.
  apply (mouse_bounce_phases
           (MouseBounceShader.mkUniforms 0.2 3 3 4.5 16 (SimulationShader.mkVec2 0 0)
              0.06 4 1 2)).
  simpl. lra.
Defined.

Lemma mouse_bounce_rest_state_witness :
  MouseBounceShader.main
    (MouseBounceShader.mkUniforms 0.2 3 3 4.5 16 (SimulationShader.mkVec2 1 0.5)
       0.06 4 1 5)
    (MouseBounceShader.mkSamplers
       (SimulationShader.constSampler (SimulationShader.mkVec4 0.25 0.5 1 2))
       (SimulationShader.constSampler (SimulationShader.mkVec4 0.25 0.5 0 0))
       (SimulationShader.constSampler (SimulationShader.mkVec4 0 0 0 1)))
    (SimulationShader.mkVec2 0 0)
  = SimulationShader.mkVec4 0.25 0.5 0 0.
Proof.
  apply (mouse_bounce_rest_state
           (MouseBounceShader.mkUniforms 0.2 3 3 4.5 16 (SimulationShader.mkVec2 1 0.5)
              0.06 4 1 5)); simpl; try lra; try reflexivity.
  unfold SimulationShader.length2, SimulationShader.dot. simpl.
  replace ((1 - 0.25) * (1 - 0.25) + (0.5 - 0.5) * (0.5 - 0.5))%R
    with (0.75 * 0.75)%R by lra.
  rewrite sqrt_square by lra. lra.
Defined.

(** ** The shaders that finish the distance field *)

Section sdf_shaders.
Import SimulationShader SimSpaceConversion SdfShaders.
Local Open Scope R_scope.

Lemma length2_nonneg (a : vec2) : 0 <= length2 a.
Proof. apply sqrt_pos. Qed.

Lemma length2_normalized (a : vec2) :
  0 < length2 a → length2 (vdiv a (length2 a)) = 1.
Proof.
  intros Hpos. unfold length2 at 1. unfold dot, vdiv. simpl.
  assert (0 <= dot a a) as Hdot.
  { unfold dot. pose proof (Rle_0_sqr (v2x a)). pose proof (Rle_0_sqr (v2y a)).
    unfold Rsqr in *. lra. }
  replace (v2x a / length2 a * (v2x a / length2 a)
           + v2y a / length2 a * (v2y a / length2 a))
    with (dot a a / (length2 a * length2 a))
    by (unfold dot; field; lra).
  unfold length2 at 1 2. rewrite sqrt_sqrt by done.
  unfold Rdiv. rewrite Rinv_r; [apply sqrt_1|].
  intros H0. unfold length2 in Hpos. rewrite H0, sqrt_0 in Hpos. lra.
Qed.

Lemma jfaFinalize_distance_nonneg (jfa : sampler2D) (uTexelSize vUV : vec2) :
  0 <= v4z (jfaFinalize jfa uTexelSize vUV).
Proof.
  unfold jfaFinalize.
  destruct (Rlt_dec 0.5 (v4z (jfa vUV))) as [Hs|Hs]; simpl.
  - apply length2_nonneg.
  - unfold MAX_DIST. lra.
Qed.

(** X7. The finalisation pass writes a distance that is not negative and a
    gradient that is either zero or a unit vector; a texel that no seed
    reached gets the gradient zero and the distance [MAX_DIST]. *)
Theorem jfaFinalize_unit_gradient (jfa : sampler2D) (uTexelSize vUV : vec2) :
  let c := jfaFinalize jfa uTexelSize vUV in
  let gradient := mkVec2 (v4x c) (v4y c) in
  0 <= v4z c ∧ v4w c = 0
  ∧ (gradient = zero2 ∨ length2 gradient = 1)
  ∧ (v4z (jfa vUV) <= 0.5 → c = mkVec4 0 0 MAX_DIST 0).
Proof.
  unfold jfaFinalize.
  destruct (Rlt_dec 0.5 (v4z (jfa vUV))) as [Hs|Hs]; simpl.
  - set (diff := vsub (vquot vUV uTexelSize) (mkVec2 (v4x (jfa vUV)) (v4y (jfa vUV)))).
    split_and!; [apply length2_nonneg|done| |lra].
    destruct (Rlt_dec EPSILON (length2 diff)) as [He|He].
    + right.
      assert (0 < length2 diff) by (unfold EPSILON in He; lra).
      rewrite <-(length2_normalized diff) by done. done.
    + by left.
  - split_and!; [unfold MAX_DIST; lra|done|by left|done].
Qed.

(** X8. The sign pass keeps the magnitude of the distance, makes the
    distance of a texel inside the mask the negated one and leaves a texel
    outside the mask unchanged; applied twice with the same mask it gives
    back the field it started from.  After the finalisation pass the
    distance is therefore not positive inside the mask and not negative
    outside. *)
Theorem applySign_sign (uSDF uMask jfa : sampler2D) (uTexelSize vUV : vec2) :
  let d := uSDF vUV in
  Rabs (v4z (applySign uSDF uMask vUV)) = Rabs (v4z d)
  ∧ applySign (applySign uSDF uMask) uMask vUV
    = mkVec4 (v4x d) (v4y d) (v4z d) 0
  ∧ (v4x (uMask vUV) <= 0.5 →
     applySign uSDF uMask vUV = mkVec4 (v4x d) (v4y d) (v4z d) 0)
  ∧ (v4x (uMask vUV) > 0.5 →
     applySign uSDF uMask vUV = mkVec4 (- v4x d) (- v4y d) (- v4z d) 0)
  ∧ (let signed := applySign (jfaFinalize jfa uTexelSize) uMask vUV in
     if Rlt_dec 0.5 (v4x (uMask vUV)) then v4z signed <= 0 else 0 <= v4z signed).
Proof.
  unfold applySign.
  pose proof (jfaFinalize_distance_nonneg jfa uTexelSize vUV) as Hpos.
  destruct (Rlt_dec 0.5 (v4x (uMask vUV))) as [Hm|Hm]; simpl.
  - split_and!; [apply Rabs_Ropp| |lra|done|lra].
    f_equal; ring.
  - split_and!; [done|done|done|lra|done].
Qed.

End sdf_shaders.

(** ** The choice of the distance field in the simulation pass *)

Section sdf_index.
Import SimulationShader.
Local Open Scope R_scope.

Lemma Int_part_nonneg (x : R) : 0 <= x → (0 <= Int_part x)%Z.
Proof.
  intros Hx. destruct (base_Int_part x) as [_ Hgt].
  assert (-1 < IZR (Int_part x)) as H by lra.
  apply lt_IZR in H. lia.
Qed.

Lemma quot_rem_4 (n : Z) : (0 <= n)%Z → (n - n ÷ 4 * 4 = n mod 4)%Z.
Proof.
  intros Hn. rewrite Z.quot_div_nonneg by lia.
  rewrite (Z.mod_eq n 4) by lia. lia.
Qed.

(** X9. In the simulation pass a texel whose coordinates and texture size
    are not negative reads exactly one of the four distance fields: the one
    whose number is the linear index of the particle modulo 4. *)
Theorem simulation_sdfIndex (u : Uniforms) (t : Samplers) (vUV uv : vec2) :
  0 <= v2x vUV → 0 <= v2y vUV → 0 <= v2x (uTexSize u) → 0 <= v2y (uTexSize u) →
  let particleIndex := vfloor (vmul vUV (uTexSize u)) in
  let linearIndex :=
    toInt (v2y particleIndex * v2x (uTexSize u) + v2x particleIndex) in
  let i := sdfIndex (prologue u t vUV) in
  (0 <= linearIndex)%Z ∧ i = (linearIndex mod 4)%Z ∧ (0 <= i < 4)%Z
  ∧ sampleSdf t i uv
    = xyz (nth (Z.to_nat i) [uSdf0 t; uSdf1 t; uSdf2 t; uSdf3 t] (uSdf3 t) uv).
Proof.
  intros Hx Hy Hw Hh particleIndex linearIndex i.
  assert (0 <= v2x particleIndex ∧ 0 <= v2y particleIndex) as [Hpx Hpy].
  { subst particleIndex. unfold vfloor, vmul, floorR. simpl.
    split; apply IZR_le, Int_part_nonneg; nra. }
  assert (0 <= linearIndex)%Z as Hlin.
  { subst linearIndex. unfold toInt.
    destruct (Rle_dec 0 _) as [Hle|Hn]; [by apply Int_part_nonneg|]. nra. }
  assert (i = (linearIndex mod 4)%Z) as Hi.
  { apply (quot_rem_4 linearIndex Hlin). }
  assert (0 <= i < 4)%Z as Hrange by (rewrite Hi; apply Z.mod_pos_bound; lia).
  split_and!; [done|done|lia|lia|].
  unfold sampleSdf.
  assert (i = 0 ∨ i = 1 ∨ i = 2 ∨ i = 3)%Z as [ -> | [ -> | [ -> | -> ]]] by lia; done.
Qed.

End sdf_index.

Lemma simulation_sdfIndex_witness :
  SimulationShader.sdfIndex
    (SimulationShader.prologue SimulationShader.exampleUniforms
       SimulationShader.exampleSamplers (SimulationShader.mkVec2 0 0))
  = ((SimulationShader.toInt
        (SimulationShader.floorR (0 * 256) * 256 + SimulationShader.floorR (0 * 256)))
     mod 4)%Z.
Proof.
  apply (simulation_sdfIndex SimulationShader.exampleUniforms
           SimulationShader.exampleSamplers (SimulationShader.mkVec2 0 0)
           (SimulationShader.mkVec2 0 0)); simpl; lra.
Defined.

(** ** The size of the particle textures *)

(** X10. For a count of at least one and at most [2^52] particles (the
    counts for which the square root and the logarithm of the code, taken
    on doubles, are those of the integers) the texture is a square whose
    side is a power of two, at most [2^26]; it has room for all the
    particles, and no smaller power of two would do.  A count of zero
    gives a texture of size zero, a negative count no size at all. *)
Theorem calculateOptimalTextureSize_minimal (n : Z) :
  (n < 0 → calculateOptimalTextureSize n = None)
  ∧ (n = 0 → calculateOptimalTextureSize n = Some (0, 0))
  ∧ (1 <= n <= 2 ^ 52 →
     ∃ k, 0 <= k <= 26 ∧ calculateOptimalTextureSize n = Some (2 ^ k, 2 ^ k)
          ∧ n <= 2 ^ k * 2 ^ k
          ∧ ∀ j, 0 <= j → n <= 2 ^ j * 2 ^ j → k <= j).
Proof.
  unfold calculateOptimalTextureSize, ceil_log2. split_and!.
  - intros Hn. by rewrite (proj2 (Z.ltb_lt n 0)).
  - intros ->. done.
  - intros [Hn Hbound]. rewrite (proj2 (Z.ltb_ge n 0)) by lia.
    pose proof (proj2 (Z.sqrt_up_pos n) ltac:(lia)) as Hpos.
    destruct (Z.sqrt_up_spec n ltac:(lia)) as [Hlow Hup].
    rewrite (proj2 (Z.eqb_neq _ 0)) by lia.
    set (m := Z.sqrt_up n) in *.
    destruct (Z.log2_log2_up_spec m Hpos) as [_ Hm].
    assert (∀ j, 0 <= j → n <= 2 ^ j * 2 ^ j → Z.log2_up m <= j) as Hmin.
    { intros j Hj Hfit. apply Z.log2_up_le_pow2; [done|].
      destruct (decide (m <= 2 ^ j)) as [|Hgt]; [done|].
      unfold Z.square in Hlow.
      assert (0 < 2 ^ j) by (apply Z.pow_pos_nonneg; lia). nia. }
    exists (Z.log2_up m). split_and!.
    + apply Z.log2_up_nonneg.
    + apply Hmin; [lia|]. rewrite <-Z.pow_add_r by lia. exact Hbound.
    + done.
    + unfold Z.square in Hup. nia.
    + exact Hmin.
Qed.

Lemma calculateOptimalTextureSize_minimal_witness :
  ∃ k, 0 <= k <= 26 ∧ calculateOptimalTextureSize 64000 = Some (2 ^ k, 2 ^ k)
       ∧ 64000 <= 2 ^ k * 2 ^ k
       ∧ ∀ j, 0 <= j → 64000 <= 2 ^ j * 2 ^ j → k <= j.
Proof.
  apply (calculateOptimalTextureSize_minimal 64000). vm_compute.
  split; discriminate.
Defined.

(** ** The float texture format *)

(** X11. The support of float render targets is decided once: every call
    of [getFloatTextureFormat] answers for the first renderer that was ever
    asked, whatever renderer it is given, and answers [rgba32float] exactly
    when that renderer has the extension. *)
Theorem getFloatTextureFormat_first_renderer
    (r : FloatTextureFormat.WebGLRenderer)
    (rs : list FloatTextureFormat.WebGLRenderer) :
  FloatTextureFormat.formats (r :: rs) None
  = replicate (S (length rs))
      (if FloatTextureFormat.hasColorBufferFloat r
       then FloatTextureFormat.rgba32float else FloatTextureFormat.rgba16float).
Proof.
  assert (∀ b l, FloatTextureFormat.formats l (Some b)
                 = replicate (length l)
                     (if b then FloatTextureFormat.rgba32float
                      else FloatTextureFormat.rgba16float)) as Hcached.
  { intros b l. induction l as [|r' l IH]; [done|]. simpl. by rewrite IH. }
  simpl. by rewrite Hcached.
Qed.

(** ** The layout of the letters *)

Section text_mask.
Import TextMask.
Local Open Scope R_scope.

Lemma fold_left_Rplus (l : list R) (a : R) : fold_left Rplus l a = a + sumR l.
Proof.
  revert a. induction l as [|x l IH]; intros a; simpl; [ring|].
  rewrite IH. ring.
Qed.

Lemma totalRefWidth_sum (l : list R) : totalRefWidth l = sumR l.
Proof. unfold totalRefWidth. rewrite fold_left_Rplus. ring. Qed.

Lemma sumR_scale (l : list R) (k : R) : sumR (map (λ w, w * k) l) = sumR l * k.
Proof. induction l as [|x l IH]; simpl; [ring|]. rewrite IH. ring. Qed.

Lemma sumR_take_S (l : list R) (i : nat) (w : R) :
  l !! i = Some w → sumR (take (S i) l) = sumR (take i l) + w.
Proof.
  revert i. induction l as [|x l IH]; intros [|i] Hi; simplify_eq/=; [ring|].
  rewrite (IH i Hi). ring.
Qed.

Lemma charPositions_length (x : R) (ws : list R) (sp : R) :
  length (charPositions x ws sp) = length ws.
Proof. revert x. induction ws as [|w ws IH]; intros x; simpl; [done|]. by rewrite IH. Qed.

Lemma charPositions_lookup (x : R) (ws : list R) (sp : R) (i : nat) :
  (i < length ws)%nat →
  charPositions x ws sp !! i = Some (x + sumR (take i ws) + INR i * sp).
Proof.
  revert x i. induction ws as [|w ws IH]; intros x i Hi; simpl in Hi; [lia|].
  destruct i as [|i].
  - simpl. f_equal. ring.
  - change (charPositions (x + (w + sp)) ws sp !! i
            = Some (x + sumR (take (S i) (w :: ws)) + INR (S i) * sp)).
    rewrite IH by lia. f_equal. rewrite S_INR. simpl. ring.
Qed.

Lemma charWidths_sum (measure : ascii → R) (o : TextMaskOptions) :
  totalRefWidth (map measure (text o)) ≠ 0 →
  sumR (charWidths measure o) = textWidth o * (1 - spacingPercent o).
Proof.
  intros HT. unfold charWidths. rewrite sumR_scale.
  rewrite totalRefWidth_sum in *. field. done.
Qed.

Lemma generateTextMask_lookup (measure : ascii → R) (o : TextMaskOptions) :
  let r := generateTextMask measure o in
  length (textures r) = length (text o)
  ∧ ∀ i c, text o !! i = Some c →
      textures r !! i
      = Some (mkLetterTexture (resolution_width o) (resolution_height o)
                (fontSize r) c
                ((resolution_width o - textWidth o) / 2
                 + sumR (take i (charWidths measure o)) + INR i * letterSpacing r)
                (resolution_height o / 2)).
Proof.
  unfold generateTextMask. destruct (text o) as [|c0 cs] eqn:Ht.
  { simpl. split; [done|]. intros i c Hi. by destruct i. }
  change (length (c0 :: cs) =? 0)%nat with false. cbv beta iota zeta.
  rewrite <-Ht.
  set (sp := if (0 <? _)%nat then _ else _).
  set (widths := map (λ w, w * _) (map measure (text o))).
  assert (widths = charWidths measure o) as Hw by done.
  assert (length widths = length (text o)) as Hlen
    by (subst widths; by rewrite !length_map).
  simpl textures. simpl fontSize. simpl letterSpacing.
  split.
  - rewrite length_map, length_zip_with, charPositions_length. lia.
  - intros i c Hi.
    assert (i < length widths)%nat as Hlt
      by (rewrite Hlen; by eapply lookup_lt_Some).
    rewrite list_lookup_fmap, lookup_zip_with, Hi. simpl.
    rewrite charPositions_lookup by done. simpl.
    rewrite Hw. f_equal. f_equal. field.
Qed.


(** X13. The word is centred when it has at least two letters: the first
    letter starts at [(width - textWidth) / 2] and the last one ends at
    [(width + textWidth) / 2], the letters sharing [1 - spacingPercent] of
    [textWidth].  A single letter starts at the same margin but ends
    [textWidth * spacingPercent] before the right one. *)
Theorem generateTextMask_centred (measure : ascii → R) (o : TextMaskOptions)
    (first last : LetterTexture) (w : R) :
  totalRefWidth (map measure (text o)) ≠ 0 →
  let r := generateTextMask measure o in
  let n := length (text o) in
  textures r !! 0%nat = Some first →
  textures r !! (n - 1)%nat = Some last →
  charWidths measure o !! (n - 1)%nat = Some w →
  sumR (charWidths measure o) = textWidth o * (1 - spacingPercent o)
  ∧ letter_x first = (resolution_width o - textWidth o) / 2
  ∧ ((2 <= n)%nat →
     letter_x last + w = (resolution_width o + textWidth o) / 2)
  ∧ (n = 1%nat →
     letter_x last + w
     = (resolution_width o + textWidth o) / 2 - textWidth o * spacingPercent o).
Proof.
  intros HT r n Hfirst Hlast Hw.
  pose proof (charWidths_sum measure o HT) as Hsum.
  destruct (generateTextMask_lookup measure o) as (Hlen & Hlook).
  fold r in Hlen, Hlook.
  assert (length (charWidths measure o) = n) as Hcw
    by (unfold charWidths; by rewrite !length_map).
  assert (0 < n)%nat as Hn.
  { apply lookup_lt_Some in Hw. lia. }
  destruct (text o !! 0%nat) as [c0|] eqn:Hc0;
    [|apply lookup_ge_None in Hc0; fold n in Hc0; lia].
  destruct (text o !! (n - 1)%nat) as [c1|] eqn:Hc1;
    [|apply lookup_ge_None in Hc1; fold n in Hc1; lia].
  rewrite (Hlook _ _ Hc0) in Hfirst. rewrite (Hlook _ _ Hc1) in Hlast.
  injection Hfirst as <-. injection Hlast as <-. simpl letter_x.
  assert (sumR (take (n - 1) (charWidths measure o)) + w
          = textWidth o * (1 - spacingPercent o)) as Hbefore.
  { rewrite <-Hsum. rewrite <-(sumR_take_S _ _ _ Hw).
    replace (S (n - 1)) with n by lia. by rewrite <-Hcw, firstn_all. }
  assert (letterSpacing r
          = if (1 <? n)%nat then textWidth o * spacingPercent o / INR (n - 1) else 0)
    as Hsp.
  { subst r. unfold generateTextMask. fold n.
    destruct (n =? 0)%nat eqn:Hz; [apply Nat.eqb_eq in Hz; lia|].
    simpl. destruct (1 <? n)%nat eqn:H1; [|done].
    apply Nat.ltb_lt in H1.
    by rewrite (proj2 (Nat.ltb_lt 0 (n - 1)) ltac:(lia)). }
  split_and!; [done|simpl; ring| |].
  - intros H2. rewrite Hsp, (proj2 (Nat.ltb_lt 1 n)) by lia.
    assert (INR (n - 1) ≠ 0) by (apply not_0_INR; lia).
    replace ((resolution_width o - textWidth o) / 2
             + sumR (take (n - 1) (charWidths measure o))
             + INR (n - 1) * (textWidth o * spacingPercent o / INR (n - 1)) + w)
      with ((resolution_width o - textWidth o) / 2
            + (sumR (take (n - 1) (charWidths measure o)) + w)
            + textWidth o * spacingPercent o) by (field; done).
    rewrite Hbefore. field.
  - intros H1. rewrite Hsp, H1. simpl.
    rewrite H1 in Hbefore. simpl in Hbefore. lra.
Qed.

End text_mask.

Lemma generateTextMask_centred_witness :
  let r := TextMask.generateTextMask TextMask.exampleMeasure TextMask.exampleText in
  (TextMask.letter_x (default TextMask.noLetter (TextMask.textures r !! 1%nat))
   + default 0%R
       (TextMask.charWidths TextMask.exampleMeasure TextMask.exampleText !! 1%nat)
   = (100 + 80) / 2)%R.
Proof.
  intros r.
  destruct (generateTextMask_centred TextMask.exampleMeasure TextMask.exampleText
              (default TextMask.noLetter (TextMask.textures r !! 0%nat))
              (default TextMask.noLetter (TextMask.textures r !! 1%nat))
              (default 0%R
                 (TextMask.charWidths TextMask.exampleMeasure TextMask.exampleText
                    !! 1%nat)))
    as (_ & _ & Hlast & _).
  - unfold TextMask.totalRefWidth, TextMask.exampleMeasure. simpl. lra.
  - reflexivity.
  - reflexivity.
  - reflexivity.
  - apply Hlast. simpl. lia.
Defined.

(** ** The wiring of the dependency graph *)

Lemma wiring_lookup s s' w y :
  wiring s' = wiring s → vars s !! w = Some y →
  ∃ y', vars s' !! w = Some y' ∧ dependencies y' = dependencies y
        ∧ dependents y' = dependents y.
Proof.
  intros HW Hy. apply (f_equal (λ p, p.1 !! w)) in HW. unfold wiring in HW.
  simpl in HW. rewrite !lookup_fmap, Hy in HW. simpl in HW.
  destruct (vars s' !! w) as [y'|]; [|done].
  exists y'. simpl in HW. unfold wiringOf in HW. by simplify_eq.
Qed.

Lemma linked_wiring s s' : wiring s' = wiring s → linked s → linked s'.
Proof.
  intros HW Hl u w. split.
  - intros (z' & Hz' & Hin).
    destruct (wiring_lookup s' s u z' (eq_sym HW) Hz') as (z & Hz & Hd & _).
    destruct (proj1 (Hl u w)) as (y & Hy & Hu); [exists z; by rewrite Hd|].
    destruct (wiring_lookup s s' w y HW Hy) as (y' & Hy' & _ & Hd').
    exists y'. by rewrite Hd'.
  - intros (y' & Hy' & Hin).
    destruct (wiring_lookup s' s w y' (eq_sym HW) Hy') as (y & Hy & _ & Hd).
    destruct (proj2 (Hl u w)) as (z & Hz & Hu); [exists y; by rewrite Hd|].
    destruct (wiring_lookup s s' u z HW Hz) as (z' & Hz' & Hd' & _).
    exists z'. by rewrite Hd'.
Qed.

Lemma wiring_modifyVar v f :
  (∀ x, wiringOf (f x) = wiringOf x) → stable wiring (modifyVar v f).
Proof.
  intros Hf s. unfold modifyVar, wiring. simpl. f_equal.
  apply map_eq. intros w. rewrite !lookup_fmap.
  destruct (decide (w = v)) as [->|Hne].
  - rewrite lookup_alter_eq. destruct (vars s !! v); simpl; [|done]. by rewrite Hf.
  - by rewrite lookup_alter_ne.
Qed.

Lemma wiring_set_trace l s : wiring (set_trace l s) = wiring s.
Proof. done. Qed.

Lemma wiring_logEvent e : stable wiring (logEvent e).
Proof. done. Qed.

Lemma wiring_ensureTextures v : stable wiring (ensureTextures v).
Proof.
  unfold ensureTextures.
  apply stable_bind; [apply stable_getVar|]. intros this.
  apply stable_bind.
  { destruct (pingTexture this); [apply stable_ret|].
    apply stable_bind; [done|]. intros t. by apply wiring_modifyVar. }
  intros _. apply stable_bind; [apply stable_getVar|]. intros this'.
  destruct (pongTexture this'); [apply stable_ret|].
  destruct (needsPingPong this').
  - apply stable_bind; [done|]. intros t. by apply wiring_modifyVar.
  - by apply wiring_modifyVar.
Qed.

Lemma wiring_fillTexture v data : stable wiring (fillTexture v data).
Proof.
  unfold fillTexture.
  apply stable_bind; [apply stable_getVar|]. intros this.
  destruct (bool_decide _); [apply stable_throw|].
  destruct (initialized this); [apply stable_throw|].
  apply stable_bind; [apply wiring_ensureTextures|]. intros _.
  apply stable_bind; [apply stable_getVar|]. intros this'.
  destruct (pingTexture this'); [|apply stable_throw].
  apply stable_bind; [apply wiring_logEvent|]. intros _.
  destruct (needsPingPong this'); [|apply stable_ret].
  destruct (pongTexture this'); [apply wiring_logEvent|apply stable_throw].
Qed.

Lemma wiring_fillTextureFrom v source : stable wiring (fillTextureFrom v source).
Proof.
  unfold fillTextureFrom.
  apply stable_bind; [apply stable_getVar|]. intros this.
  destruct (initialized this); [apply stable_throw|].
  apply stable_bind; [apply wiring_ensureTextures|]. intros _.
  apply stable_bind; [apply stable_getVar|]. intros this'.
  destruct (pingTexture this'); [|apply stable_throw].
  apply stable_bind; [apply wiring_logEvent|]. intros _.
  destruct (needsPingPong this'); [|apply stable_ret].
  destruct (pongTexture this'); [apply wiring_logEvent|apply stable_throw].
Qed.

Lemma wiring_setInitialTexture v t : stable wiring (setInitialTexture v t).
Proof.
  unfold setInitialTexture.
  apply stable_bind; [apply stable_getVar|]. intros this.
  destruct (initialized this); [apply stable_throw|].
  destruct (_ || _); [apply stable_throw|].
  apply stable_bind; [by apply wiring_modifyVar|]. intros _.
  by apply wiring_modifyVar.
Qed.

Lemma wiring_createShader v : stable wiring (createShader v).
Proof.
  unfold createShader.
  apply stable_bind; [apply stable_getVar|]. intros this.
  apply stable_bind.
  { intros s. by rewrite (depNames_state _ s). }
  intros names. destruct (fullFragmentShader this names); [|apply stable_throw].
  apply stable_bind.
  { intros s. by rewrite (bindDependencies_state _ _ s). }
  intros res.
  apply stable_bind; [by apply wiring_modifyVar|]. intros _.
  apply stable_bind; [by apply wiring_modifyVar|]. intros _.
  destruct (hasUniforms this); [by apply wiring_modifyVar|apply stable_ret].
Qed.

Lemma wiring_init v : stable wiring (init v).
Proof.
  unfold init.
  apply stable_bind; [apply stable_getVar|]. intros this.
  destruct (initialized this); [apply stable_throw|].
  apply stable_bind; [by apply wiring_modifyVar|]. intros _.
  apply stable_bind; [apply wiring_ensureTextures|]. intros _.
  apply stable_bind; [apply wiring_createShader|]. intros _.
  by apply wiring_modifyVar.
Qed.

Lemma wiring_setResource v key src : stable wiring (setResource v key src).
Proof. by apply wiring_modifyVar. Qed.

Lemma wiring_setParam v key val : stable wiring (setParam v key val).
Proof. by apply wiring_modifyVar. Qed.

Lemma wiring_compute v : stable wiring (compute v).
Proof.
  unfold compute.
  apply stable_bind; [apply stable_getVar|]. intros this.
  apply stable_bind.
  { destruct (initialized this); [apply stable_ret|apply wiring_init]. }
  intros _. apply stable_bind; [apply stable_getVar|]. intros this'.
  destruct (shader this'); [|apply stable_throw].
  apply stable_bind.
  { apply stable_forM. intros d.
    apply stable_bind; [apply stable_getVar|]. intros dep.
    destruct (getCurrentTexture dep); [apply wiring_setResource|apply stable_throw]. }
  intros _. apply stable_bind.
  { unfold updateSamplers. destruct (hasSamplers this'); [|apply stable_ret].
    apply stable_forM. intros key.
    destruct (lookupKey key (samplers this'));
      [apply wiring_setResource|apply stable_throw]. }
  intros _. apply stable_bind.
  { unfold updateUniforms. destruct (hasUniforms this'); [|apply stable_ret].
    destruct (paramsUniforms this'); [|apply stable_throw].
    apply stable_forM. intros key.
    destruct (lookupKey key (uniforms this'));
      [apply wiring_setParam|apply stable_throw]. }
  intros _. unfold renderPass.
  apply stable_bind; [apply stable_getVar|]. intros this''.
  apply stable_bind; [apply wiring_logEvent|]. intros _.
  by apply wiring_modifyVar.
Qed.

Lemma wiring_setUniform v key val : stable wiring (setUniform v key val).
Proof. by apply wiring_modifyVar. Qed.

Lemma forM_modifyVar_run (l : list VarId)
    (g : GPUComputeVariable → GPUComputeVariable) s :
  forM_ l (λ d, modifyVar d g) s
  = (Ok tt, set_vars (foldl (λ m d, alter g d m) (vars s) l) s).
Proof.
  revert s. induction l as [|d l IH]; intros s; simpl.
  - unfold mret, M_ret. f_equal. by destruct s.
  - unfold mbind, M_bind. unfold modifyVar at 1. rewrite IH. done.
Qed.

Lemma foldl_alter_lookup (g : GPUComputeVariable → GPUComputeVariable)
    (l : list VarId) (m : gmap VarId GPUComputeVariable) (w : VarId) :
  (∀ x, g (g x) = g x) →
  foldl (λ m d, alter g d m) m l !! w
  = (if decide (w ∈ l) then g else λ x, x) <$> m !! w.
Proof.
  intros Hg. revert m. induction l as [|d l IH]; intros m; simpl.
  - by destruct (m !! w).
  - rewrite IH. destruct (decide (w = d)) as [->|Hne].
    + rewrite lookup_alter_eq.
      rewrite (decide_True (P := d ∈ d :: l)) by apply list_elem_of_here.
      destruct (m !! d) as [x|]; simpl; [|by destruct (decide _)].
      destruct (decide (d ∈ l)); simpl; by rewrite ?Hg.
    + rewrite lookup_alter_ne by done.
      destruct (decide (w ∈ l)) as [Hin|Hnin].
      * by rewrite (decide_True (P := w ∈ d :: l)) by (by apply list_elem_of_further).
      * rewrite (decide_False (P := w ∈ d :: l)); [done|].
        rewrite elem_of_cons. naive_solver.
Qed.

Lemma set_dependents_add_idem (v : VarId) (d : GPUComputeVariable) :
  let add := λ d, set_dependents ({[v]} ∪ dependents d) d in
  add (add d) = add d.
Proof.
  intros add. unfold add. destruct d. unfold set_dependents. simpl.
  f_equal. set_solver.
Qed.

Lemma set_dependents_rem_idem (v : VarId) (d : GPUComputeVariable) :
  let rem := λ d, set_dependents (dependents d ∖ {[v]}) d in
  rem (rem d) = rem d.
Proof.
  intros rem. unfold rem. destruct d. unfold set_dependents. simpl.
  f_equal. set_solver.
Qed.

(** The records after [setDependencies]. *)
Lemma setDependencies_run v deps s x :
  vars s !! v = Some x →
  ∃ s', setDependencies v deps s = (Ok tt, s') ∧ nextVar s' = nextVar s
        ∧ ∀ w, match vars s !! w, vars s' !! w with
               | Some y, Some y' =>
                   dependencies y' = (if decide (w = v) then deps else dependencies y)
                   ∧ ∀ u, u ∈ dependents y' ↔
                          (w ∈ deps ∧ u = v)
                          ∨ (u ∈ dependents y ∧ (w ∈ dependencies x → u ≠ v))
               | None, None => True
               | _, _ => False
               end.
Proof.
  intros Hx. unfold setDependencies.
  rewrite (bind_Ok _ _ _ _ _ (getVar_Some _ _ _ Hx)).
  set (rem := λ d, set_dependents (dependents d ∖ {[v]}) d).
  set (add := λ d, set_dependents ({[v]} ∪ dependents d) d).
  rewrite (bind_Ok _ _ _ _ _ (forM_modifyVar_run (dependencies x) rem s)).
  unfold mbind at 1, M_bind at 1. unfold modifyVar at 1.
  cbv beta iota.
  rewrite forM_modifyVar_run. eexists. split; [done|]. split; [done|].
  intros w. simpl.
  rewrite foldl_alter_lookup by apply set_dependents_add_idem.
  destruct (decide (w = v)) as [->|Hne].
  - rewrite lookup_alter_eq, foldl_alter_lookup by apply set_dependents_rem_idem.
    rewrite Hx. simpl.
    destruct (decide (v ∈ deps)), (decide (v ∈ dependencies x));
      destruct x; unfold add, rem, set_dependents, set_dependencies; simpl in *;
      (split; [done|]); intros u; set_solver.
  - rewrite lookup_alter_ne by done.
    rewrite foldl_alter_lookup by apply set_dependents_rem_idem.
    destruct (vars s !! w) as [y|]; simpl; [|done].
    destruct (decide (w ∈ deps)), (decide (w ∈ dependencies x));
      destruct y; unfold add, rem, set_dependents, set_dependencies; simpl in *;
      (split; [done|]); intros u; set_solver.
Qed.

Lemma wiring_nextVar s s' : wiring s' = wiring s → nextVar s' = nextVar s.
Proof. intros H. by apply (f_equal snd) in H. Qed.

Lemma wiring_dom s s' v :
  wiring s' = wiring s → is_Some (vars s' !! v) → is_Some (vars s !! v).
Proof.
  intros HW [y' Hy'].
  destruct (wiring_lookup s' s v y' (eq_sym HW) Hy') as (y & Hy & _). by exists y.
Qed.

Lemma wellWired_wiring s s' : wiring s' = wiring s → wellWired s → wellWired s'.
Proof.
  intros HW [Hl Hdom]. split; [by apply (linked_wiring s)|].
  intros v Hv. rewrite (wiring_nextVar _ _ HW). apply Hdom. by apply (wiring_dom s s').
Qed.

Lemma linked_setDependencies v deps s x s' :
  vars s !! v = Some x →
  linked s → (∀ d, d ∈ deps → is_Some (vars s !! d)) →
  setDependencies v deps s = (Ok tt, s') →
  linked s' ∧ nextVar s' = nextVar s
  ∧ ∀ w, is_Some (vars s' !! w) ↔ is_Some (vars s !! w).
Proof.
  intros Hx Hl Hdeps Hrun.
  destruct (setDependencies_run v deps s x Hx) as (s'' & Hrun' & Hnext & Hchar).
  assert (s'' = s') as -> by congruence.
  assert (∀ w, is_Some (vars s' !! w) ↔ is_Some (vars s !! w)) as Hdom.
  { intros w. specialize (Hchar w).
    destruct (vars s !! w), (vars s' !! w); split; intros [? ?]; try done; by eexists. }
  split_and!; [|done|done].
  intros u w. split.
  - intros (z' & Hz' & Hin).
    pose proof (Hchar u) as Hu. rewrite Hz' in Hu.
    destruct (vars s !! u) as [z|] eqn:Hz; [|done]. destruct Hu as [Hdz _].
    assert (∃ y, vars s !! w = Some y ∧ (u = v ∨ u ∈ dependents y)) as (y & Hy & Hcase).
    { destruct (decide (u = v)) as [->|Hne].
      - rewrite Hdz in Hin.
        destruct (Hdeps w Hin) as [y Hy]. exists y. naive_solver.
      - rewrite Hdz in Hin.
        destruct (proj1 (Hl u w)) as (y & Hy & ?); [by exists z|]. exists y. naive_solver. }
    pose proof (Hchar w) as Hw. rewrite Hy in Hw.
    destruct (vars s' !! w) as [y'|]; [|done]. destruct Hw as [_ Hdep].
    exists y'. split; [done|]. apply Hdep.
    destruct (decide (u = v)) as [->|Hne].
    + left. by rewrite Hdz in Hin.
    + right. destruct Hcase as [|Hud]; [done|]. done.
  - intros (y' & Hy' & Hin).
    pose proof (Hchar w) as Hw. rewrite Hy' in Hw.
    destruct (vars s !! w) as [y|] eqn:Hy; [|done]. destruct Hw as [_ Hdep].
    apply Hdep in Hin. destruct Hin as [[Hwd ->]|[Hud Hnv]].
    + pose proof (Hchar v) as Hv. rewrite Hx in Hv.
      destruct (vars s' !! v) as [x'|]; [|done]. destruct Hv as [Hdx _].
      rewrite decide_True in Hdx by done. exists x'. by rewrite Hdx.
    + destruct (proj2 (Hl u w)) as (z & Hz & Hzw); [by exists y|].
      assert (u ≠ v) as Hne.
      { intros ->. assert (z = x) as -> by congruence. by apply Hnv. }
      pose proof (Hchar u) as Hu. rewrite Hz in Hu.
      destruct (vars s' !! u) as [z'|]; [|done]. destruct Hu as [Hdz _].
      rewrite decide_False in Hdz by done. exists z'. by rewrite Hdz.
Qed.

Lemma releasedVar_wiring v deps w y0 y :
  releasedVar v deps w y0 y →
  dependencies y = dependencies y0
  ∧ dependents y ⊆ dependents y0 ∧ dependents y0 ∖ {[v]} ⊆ dependents y.
Proof.
  intros (_ & D & b & -> & HD & _).
  split; [by destruct y0|].
  assert (dependents (set_texturesDestroyed b (set_dependents D y0)) = D) as ->
    by (by destruct y0).
  destruct HD as [->|[_ ->]]; set_solver.
Qed.

(** The wiring after a [destroy()] that returns. *)
Lemma destroy_wiring v s x s' :
  vars s !! v = Some x → destroyed x = false → destroy v s = (Ok tt, s') →
  nextVar s' = nextVar s
  ∧ ∀ w, match vars s !! w, vars s' !! w with
         | Some y, Some y' =>
             dependencies y' = (if decide (w = v) then [] else dependencies y)
             ∧ dependents y' ⊆ dependents y
             ∧ dependents y ∖ {[v]} ⊆ dependents y'
             ∧ (w ∈ dependencies x → v ∉ dependents y')
         | None, None => True
         | _, _ => False
         end.
Proof.
  intros Hx Hd Hrun.
  destruct (destroy_spec _ _ _ _ Hx Hd Hrun) as (s2 & y2 & Hrel & Hy2 & -> & Hprog & _).
  split; [simpl; by destruct Hrel as (-> & _)|].
  intros w. simpl.
  set (x0 := set_shader None (set_mesh None (set_destroyed true x))).
  assert (vars (markDestroyed v x s) !! w
          = if decide (w = v) then Some x0 else vars s !! w) as Hstart.
  { unfold markDestroyed. simpl. destruct (decide (w = v)) as [->|Hne].
    - by rewrite lookup_insert_eq.
    - by rewrite lookup_insert_ne. }
  destruct (vars s !! w) as [y|] eqn:Hy.
  - assert (∃ y0, vars (markDestroyed v x s) !! w = Some y0
                  ∧ dependencies y0 = dependencies y
                  ∧ dependents y0 = dependents y) as (y0 & Hy0 & Hd0 & Hu0).
    { rewrite Hstart. destruct (decide (w = v)) as [->|Hne]; [|by exists y].
      exists x0. assert (y = x) as -> by congruence. by destruct x. }
    destruct (released_lookup0 _ _ _ _ _ _ Hrel Hy0) as (y2' & Hy2' & Hry).
    destruct (releasedVar_wiring _ _ _ _ _ Hry) as (Hdeps & Hsub & Hsup).
    assert (w ∈ dependencies x → v ∉ dependents y2') as Hgone.
    { intros Hin. destruct (Hprog w Hin) as (y'' & Hy'' & Hnv & _).
      by assert (y'' = y2') as -> by congruence. }
    destruct (decide (w = v)) as [->|Hne].
    + rewrite lookup_insert_eq. assert (y2' = y2) as -> by congruence.
      split_and!; [by destruct y2| | |].
      * assert (dependents (set_initialized false (set_dependencies [] y2))
                = dependents y2) as -> by (by destruct y2).
        by rewrite <-Hu0.
      * assert (dependents (set_initialized false (set_dependencies [] y2))
                = dependents y2) as -> by (by destruct y2).
        by rewrite <-Hu0.
      * assert (dependents (set_initialized false (set_dependencies [] y2))
                = dependents y2) as -> by (by destruct y2).
        done.
    + rewrite lookup_insert_ne by done. rewrite Hy2'.
      split_and!; [congruence|by rewrite <-Hu0|by rewrite <-Hu0|done].
  - assert (w ≠ v) as Hne by (intros ->; congruence).
    rewrite lookup_insert_ne by done.
    destruct (vars s2 !! w) as [y'|] eqn:Hy'; [|done].
    destruct (released_lookup _ _ _ _ _ _ Hrel Hy') as (y0 & Hy0 & _).
    rewrite Hstart, decide_False in Hy0 by done. done.
Qed.

Lemma linked_destroy v s x s' :
  vars s !! v = Some x → destroyed x = false →
  linked s → destroy v s = (Ok tt, s') →
  linked s' ∧ nextVar s' = nextVar s
  ∧ ∀ w, is_Some (vars s' !! w) ↔ is_Some (vars s !! w).
Proof.
  intros Hx Hd Hl Hrun.
  destruct (destroy_wiring v s x s' Hx Hd Hrun) as (Hnext & Hchar).
  assert (∀ w, is_Some (vars s' !! w) ↔ is_Some (vars s !! w)) as Hdom.
  { intros w. specialize (Hchar w).
    destruct (vars s !! w), (vars s' !! w); split; intros [? ?]; try done; by eexists. }
  split_and!; [|done|done].
  intros u w. split.
  - intros (z' & Hz' & Hin).
    pose proof (Hchar u) as Hu. rewrite Hz' in Hu.
    destruct (vars s !! u) as [z|] eqn:Hz; [|done]. destruct Hu as (Hdz & _).
    destruct (decide (u = v)) as [->|Hne]; [rewrite Hdz in Hin; by inversion Hin|].
    rewrite Hdz in Hin.
    destruct (proj1 (Hl u w)) as (y & Hy & Hud); [by exists z|].
    pose proof (Hchar w) as Hw. rewrite Hy in Hw.
    destruct (vars s' !! w) as [y'|]; [|done]. destruct Hw as (_ & _ & Hsup & _).
    exists y'. split; [done|]. set_solver.
  - intros (y' & Hy' & Hin).
    pose proof (Hchar w) as Hw. rewrite Hy' in Hw.
    destruct (vars s !! w) as [y|] eqn:Hy; [|done].
    destruct Hw as (_ & Hsub & _ & Hgone).
    destruct (proj2 (Hl u w)) as (z & Hz & Hzw); [exists y; set_solver|].
    assert (u ≠ v) as Hne.
    { intros ->. assert (z = x) as -> by congruence. by apply Hgone. }
    pose proof (Hchar u) as Hu. rewrite Hz in Hu.
    destruct (vars s' !! u) as [z'|]; [|done]. destruct Hu as (Hdz & _).
    rewrite decide_False in Hdz by done. exists z'. by rewrite Hdz.
Qed.

Lemma wellWired_destroy v s s' :
  wellWired s → destroy v s = (Ok tt, s') → wellWired s'.
Proof.
  intros [Hl Hdom] Hrun.
  destruct (vars s !! v) as [x|] eqn:Hx.
  - destruct (destroyed x) eqn:Hd.
    + rewrite (destroy_destroyed _ _ _ Hx Hd) in Hrun. by simplify_eq.
    + destruct (linked_destroy v s x s' Hx Hd Hl Hrun) as (Hl' & Hnext & Hdom').
      split; [done|]. intros w Hw. rewrite Hnext. by apply Hdom, Hdom'.
  - unfold destroy, mbind, M_bind, getVar in Hrun. by rewrite Hx in Hrun.
Qed.

Lemma wellWired_new s o r s' :
  wellWired s → new_GPUComputeVariable o s = (r, s') → wellWired s'.
Proof.
  intros [Hl Hdom] Hrun. unfold new_GPUComputeVariable in Hrun.
  set (v := nextVar s) in *.
  set (s1 := set_nextVar (S v) (set_vars (<[v := newVariable o]> (vars s)) s)) in *.
  assert (vars s !! v = None) as Hfresh.
  { destruct (vars s !! v) eqn:Hv; [|done].
    specialize (Hdom v ltac:(by eexists)). unfold v in Hdom. lia. }
  assert (wellWired s1) as Hs1.
  { split.
    - intros u w. simpl. split.
      + intros (z & Hz & Hin). destruct (decide (u = v)) as [->|Hne].
        { rewrite lookup_insert_eq in Hz. simplify_eq. by inversion Hin. }
        rewrite lookup_insert_ne in Hz by done.
        destruct (proj1 (Hl u w)) as (y & Hy & Hu); [by exists z|].
        exists y. rewrite lookup_insert_ne; [done|]. intros ->. congruence.
      + intros (y & Hy & Hin). destruct (decide (w = v)) as [->|Hne].
        { rewrite lookup_insert_eq in Hy. simplify_eq. set_solver. }
        rewrite lookup_insert_ne in Hy by done.
        destruct (proj2 (Hl u w)) as (z & Hz & Hu); [by exists y|].
        exists z. rewrite lookup_insert_ne; [done|]. intros ->. congruence.
    - intros w Hw. simpl in *. destruct (decide (w = v)) as [->|Hne]; [lia|].
      rewrite lookup_insert_ne in Hw by done. specialize (Hdom w Hw). unfold v. lia. }
  destruct (o_initialTexture o) as [t|]; [|by simplify_eq].
  apply (wellWired_wiring s1); [|done].
  unfold mbind, M_bind in Hrun.
  destruct (setInitialTexture v t s1) as [[[]|e] s2] eqn:Hset;
    unfold mret, M_ret in Hrun;
    (assert (s' = s2) as -> by congruence);
    apply (stable_run wiring _ _ _ _ (wiring_setInitialTexture v t) Hset).
Qed.

(** X14. The heap invariant of the dependency graph.  In every state that a
    program reaches from the empty heap by constructing variables and
    calling their methods, the [dependents] sets are exactly the inverse of
    the [dependencies] lists.  A call of [destroy()] or [computeOnce()] that
    throws is the one exception: it may stop between the two updates. *)
Theorem wellWired_invariant :
  wellWired emptyWorld
  ∧ (∀ s o r s',
       wellWired s → new_GPUComputeVariable o s = (r, s') → wellWired s')
  ∧ (∀ s v c r s',
       wellWired s → callTargetsExist s c → methodCall v c s = (r, s') →
       callDestroys c = false ∨ r = Ok tt →
       wellWired s').
Proof.
  split_and!.
  - split.
    + intros u w. simpl. split; intros (? & H & _); by rewrite lookup_empty in H.
    + intros v [? H]. simpl in H. by rewrite lookup_empty in H.
  - apply wellWired_new.
  - intros s v c r s' Hw Hex Hrun Hok.
    assert (∀ m : M unit, stable wiring m → m s = (r, s') → wellWired s') as Hstable.
    { intros m Hm Hm'. apply (wellWired_wiring s); [|done].
      by apply (stable_run wiring m s r s'). }
    destruct c; simpl in Hrun, Hex, Hok.
    + by apply (Hstable _ (wiring_fillTexture v data)).
    + by apply (Hstable _ (wiring_fillTextureFrom v source)).
    + by apply (Hstable _ (wiring_setInitialTexture v texture)).
    + destruct (vars s !! v) as [x|] eqn:Hx.
      * destruct (setDependencies_run v deps s x Hx) as (s'' & Hrun' & _).
        assert (r = Ok tt ∧ s'' = s') as [-> ->] by (split; congruence).
        destruct Hw as [Hl Hdom].
        destruct (linked_setDependencies v deps s x s' Hx Hl Hex Hrun)
          as (Hl' & Hnext & Hdom').
        split; [done|]. intros w Hw. rewrite Hnext. by apply Hdom, Hdom'.
      * unfold setDependencies, mbind, M_bind, getVar in Hrun.
        rewrite Hx in Hrun. by simplify_eq.
    + by apply (Hstable _ (wiring_init v)).
    + by apply (Hstable _ (wiring_compute v)).
    + destruct Hok as [ | -> ]; [done|].
      unfold computeOnce, mbind, M_bind in Hrun.
      destruct (init v s) as [[[]|e] s1] eqn:Hi; [|done].
      destruct (compute v s1) as [[[]|e] s2] eqn:Hc; [|done].
      apply (wellWired_destroy v s2); [|done].
      apply (wellWired_wiring s1); [by apply (stable_run wiring _ _ _ _ (wiring_compute v) Hc)|].
      apply (wellWired_wiring s); [by apply (stable_run wiring _ _ _ _ (wiring_init v) Hi)|].
      done.
    + by apply (Hstable _ (wiring_setUniform v key value)).
    + destruct Hok as [ | -> ]; [done|]. by apply (wellWired_destroy v s).
Qed.

(** ** The end of the life of a variable *)

Lemma destroy_mark v s x :
  vars s !! v = Some x →
  (modifyVar v (set_destroyed true);; modifyVar v (set_mesh None);;
   modifyVar v (set_shader None)) s = (Ok tt, markDestroyed v x s).
Proof.
  intros Hv. unfold mbind, M_bind, modifyVar, markDestroyed. simpl. f_equal.
  apply world_eq; simpl; try done.
  rewrite (alter_known _ _ _ _ Hv).
  rewrite (alter_known _ _ _ _ (lookup_insert_eq _ _ _)), insert_insert_eq.
  by rewrite (alter_known _ _ _ _ (lookup_insert_eq _ _ _)), insert_insert_eq.
Qed.

(** [destroy()] of a variable that has no pong buffer yet, no dependency and
    no dependent. *)
Lemma destroy_without_textures v s x :
  vars s !! v = Some x → destroyed x = false → texturesDestroyed x = false →
  dependencies x = [] → dependents x = ∅ → needsPingPong x = true →
  currentIndex x = 0 → pongTexture x = None →
  (pingTexture x = None → externalPingTexture x = false) →
  destroy v s = (Throw typeError, markDestroyed v x s).
Proof.
  intros Hv Hd Htd Hdeps Hdependents Hpp Hidx Hpong Hext. unfold destroy.
  rewrite (bind_Ok _ _ _ _ _ (getVar_Some _ _ _ Hv)), Hd, Hdeps.
  pose proof (destroy_mark v s x Hv) as Hmark.
  unfold mbind, M_bind in *.
  destruct (modifyVar v (set_destroyed true) s) as [[[]|?] sa]; [|done].
  destruct (modifyVar v (set_mesh None) sa) as [[[]|?] sb]; [|done].
  destruct (modifyVar v (set_shader None) sb) as [[[]|?] sc]; [|done].
  injection Hmark as ->. simpl.
  set (x0 := set_shader None (set_mesh None (set_destroyed true x))).
  assert (vars (markDestroyed v x s) !! v = Some x0) as Hv0 by apply lookup_insert_eq.
  rewrite (getVar_Some _ _ _ Hv0).
  assert (dependents x0 = ∅) as -> by (by destruct x).
  rewrite (bool_decide_eq_true_2 _ (size_empty (C:=gset nat))).
  rewrite (destroyTextures_run _ _ _ Hv0).
  assert (texturesDestroyed x0 = false) as -> by (by destruct x).
  assert (releasedTexture x0 = Throw typeError) as ->; [|done].
  unfold releasedTexture, getAlternateTexture.
  assert (needsPingPong x0 = true) as -> by (by destruct x).
  assert (currentIndex x0 = 0) as -> by (by destruct x).
  assert (pongTexture x0 = None) as -> by (by destruct x).
  assert (pingTexture x0 = pingTexture x) as -> by (by destruct x).
  assert (externalPingTexture x0 = externalPingTexture x) as -> by (by destruct x).
  simpl. destruct (pingTexture x); [done|]. by rewrite Hext.
Qed.

(** X15. A variable that was constructed and then destroyed at once, before
    any texture was created for it, makes [destroy()] throw a [TypeError]:
    the release reads the missing alternate buffer.  The variable is left
    marked as destroyed, with its textures not marked as released. *)
Theorem destroy_after_construction_throws
    (s : World) (o : GPUComputeVariableOptions) (v : VarId) (s1 : World) :
  new_GPUComputeVariable o s = (Ok v, s1) →
  ∃ s2 x2, destroy v s1 = (Throw typeError, s2)
           ∧ vars s2 !! v = Some x2
           ∧ destroyed x2 = true ∧ texturesDestroyed x2 = false
           ∧ destroy v s2 = (Ok tt, s2).
Proof.
  intros Hnew. unfold new_GPUComputeVariable in Hnew.
  set (v0 := nextVar s) in *.
  set (s0 := set_nextVar (S v0) (set_vars (<[v0 := newVariable o]> (vars s)) s)) in *.
  assert (vars s0 !! v0 = Some (newVariable o)) as Hv0 by apply lookup_insert_eq.
  assert (∃ x1, v = v0 ∧ vars s1 !! v = Some x1 ∧ destroyed x1 = false
                ∧ texturesDestroyed x1 = false ∧ dependencies x1 = []
                ∧ dependents x1 = ∅ ∧ needsPingPong x1 = true
                ∧ currentIndex x1 = 0 ∧ pongTexture x1 = None
                ∧ (pingTexture x1 = None → externalPingTexture x1 = false))
    as (x1 & -> & Hx1 & Hd & Htd & Hdeps & Hdependents & Hpp & Hidx & Hpong & Hext).
  { destruct (o_initialTexture o) as [t|].
    - unfold mbind, M_bind in Hnew.
      destruct (setInitialTexture v0 t s0) as [[[]|e] s'] eqn:Hset; [|done].
      unfold mret, M_ret in Hnew. injection Hnew as <- <-.
      destruct (setInitialTexture_exec v0 t s0 _ Hv0 eq_refl) as [Hsame|Hset'];
        unfold exec in *; rewrite Hset in *; simpl in *; subst s'.
      + exists (newVariable o). split; [done|]. split; [exact Hv0|]. done.
      + exists (set_externalPingTexture true
                  (set_pingTexture (Some t) (newVariable o))).
        split; [done|]. split; [apply lookup_insert_eq|]. done.
    - injection Hnew as <- <-. exists (newVariable o).
      split; [done|]. split; [exact Hv0|]. done. }
  rewrite (destroy_without_textures v0 s1 x1) by done.
  eexists _, _. split; [done|].
  assert (vars (markDestroyed v0 x1 s1) !! v0
          = Some (set_shader None (set_mesh None (set_destroyed true x1)))) as Hm
    by apply lookup_insert_eq.
  split; [exact Hm|]. split_and!; [by destruct x1|by destruct x1|].
  apply (destroy_destroyed _ _ _ Hm). by destruct x1.
Qed.

Lemma destroy_after_construction_throws_witness :
  ∃ s2 x2, destroy 0%nat (exec (new_GPUComputeVariable exampleOptions) emptyWorld)
           = (Throw typeError, s2)
           ∧ vars s2 !! 0%nat = Some x2
           ∧ destroyed x2 = true ∧ texturesDestroyed x2 = false
           ∧ destroy 0%nat s2 = (Ok tt, s2).
Proof.
  apply (destroy_after_construction_throws emptyWorld exampleOptions).
  reflexivity.
Defined.

(** X16. A call of [destroy()] that returns leaves the variable marked as
    destroyed; if the variable was alive, it has lost its shader, its mesh
    and its dependencies and is not initialised any more.  A second
    [destroy()] then changes nothing. *)
Theorem destroy_idempotent (v : VarId) (s : World) (x : GPUComputeVariable)
    (s' : World) :
  vars s !! v = Some x → destroy v s = (Ok tt, s') →
  (∃ x', vars s' !! v = Some x' ∧ destroyed x' = true
         ∧ (destroyed x = false →
            shader x' = None ∧ mesh x' = None ∧ dependencies x' = []
            ∧ initialized x' = false ∧ name x' = name x
            ∧ getCurrentTexture x' = getCurrentTexture x))
  ∧ destroy v s' = (Ok tt, s').
Proof.
  intros Hv Hrun. destruct (destroyed x) eqn:Hd.
  - rewrite (destroy_destroyed _ _ _ Hv Hd) in Hrun. injection Hrun as <-.
    split; [by exists x|]. by apply (destroy_destroyed _ _ x).
  - destruct (destroy_spec _ _ _ _ Hv Hd Hrun) as (s2 & y2 & Hrel & Hy2 & -> & _).
    assert (vars (markDestroyed v x s) !! v
            = Some (set_shader None (set_mesh None (set_destroyed true x)))) as Hm
      by apply lookup_insert_eq.
    destruct (released_lookup0 _ _ _ _ _ _ Hrel Hm) as (y & Hy & Hry).
    assert (y = y2) as -> by congruence.
    destruct Hry as (_ & D & b & -> & _).
    set (x' := set_initialized false (set_dependencies [] _)).
    assert (vars (set_vars (<[v := x']> (vars s2)) s2) !! v = Some x') as Hx'
      by apply lookup_insert_eq.
    split.
    + exists x'. split; [done|]. split; [by destruct x|]. intros _.
      destruct x. unfold getCurrentTexture. simpl. done.
    + apply (destroy_destroyed _ _ _ Hx'). by destruct x.
Qed.

Lemma destroy_idempotent_witness :
  destroy 1%nat exampleAfterLast = (Ok tt, exampleAfterLast).
Proof.
  apply (destroy_idempotent 1%nat exampleBeforeLast (varAt 1%nat exampleBeforeLast)).
  - vm_compute. reflexivity.
  - unfold exampleAfterLast. apply run_eq. vm_compute. reflexivity.
Defined.


(** ** One-shot computations *)

Lemma depNames_Ok deps s :
  (∀ d, d ∈ deps → is_Some (vars s !! d)) →
  ∃ names, depNames deps s = (Ok names, s).
Proof.
  induction deps as [|d deps IH]; intros Hall; simpl; [by eexists|].
  destruct (Hall d ltac:(apply list_elem_of_here)) as [y Hy].
  destruct IH as [names Hn].
  { intros d' Hd'. apply Hall. by apply list_elem_of_further. }
  rewrite (bind_Ok _ _ _ _ _ (getVar_Some _ _ _ Hy)).
  rewrite (bind_Ok _ _ _ _ _ Hn). by eexists.
Qed.

Lemma bindDependencies_Ok deps res s :
  (∀ d, d ∈ deps → ∃ y t, vars s !! d = Some y ∧ getCurrentTexture y = Some t) →
  ∃ res', bindDependencies deps res s = (Ok res', s).
Proof.
  revert res. induction deps as [|d deps IH]; intros res Hall; simpl; [by eexists|].
  destruct (Hall d ltac:(apply list_elem_of_here)) as (y & t & Hy & Ht).
  rewrite (bind_Ok _ _ _ _ _ (getVar_Some _ _ _ Hy)), Ht.
  apply IH. intros d' Hd'. apply Hall. by apply list_elem_of_further.
Qed.

Lemma preInit_static v x n : staticOf (preInit v x n).1 = staticOf x.
Proof.
  unfold preInit, ensured. simpl.
  destruct (pingTexture x), (pongTexture x), (bool_decide (v ∈ dependencies x)); done.
Qed.

Lemma preInit_flags v x n :
  let x1 := (preInit v x n).1 in
  needsPingPong x1 = bool_decide (v ∈ dependencies x)
  ∧ initialized x1 = initialized x ∧ destroyed x1 = destroyed x
  ∧ texturesDestroyed x1 = texturesDestroyed x
  ∧ dependents x1 = dependents x ∧ currentIndex x1 = currentIndex x
  ∧ externalPingTexture x1 = externalPingTexture x
  ∧ is_Some (pingTexture x1) ∧ is_Some (pongTexture x1).
Proof.
  unfold preInit, ensured. simpl.
  destruct (pingTexture x), (pongTexture x), (bool_decide (v ∈ dependencies x));
    simpl; split_and!; by eauto.
Qed.

Lemma createdShader_static x fragment res :
  staticOf (createdShader x fragment res) = staticOf x.
Proof. unfold createdShader. by destruct (hasUniforms x). Qed.

Lemma createdShader_flags x fragment res :
  let x' := createdShader x fragment res in
  needsPingPong x' = needsPingPong x ∧ destroyed x' = destroyed x
  ∧ texturesDestroyed x' = texturesDestroyed x ∧ dependents x' = dependents x
  ∧ externalPingTexture x' = externalPingTexture x
  ∧ is_Some (shader x')
  ∧ (hasUniforms x = true → is_Some (paramsUniforms x')).
Proof.
  unfold createdShader. destruct (hasUniforms x); simpl; split_and!; by eauto.
Qed.

Lemma static_fields x x' :
  staticOf x' = staticOf x →
  name x' = name x ∧ fragmentShader x' = fragmentShader x
  ∧ uniforms x' = uniforms x ∧ samplers x' = samplers x
  ∧ hasUniforms x' = hasUniforms x ∧ uniformKeys x' = uniformKeys x
  ∧ hasSamplers x' = hasSamplers x ∧ samplerKeys x' = samplerKeys x
  ∧ dependencies x' = dependencies x.
Proof. unfold staticOf. intros H. by simplify_eq. Qed.

Lemma static_ready x x' :
  staticOf x' = staticOf x →
  (uniformKindsKnown x → uniformKindsKnown x') ∧ (keysPresent x → keysPresent x').
Proof.
  intros H. destruct (static_fields _ _ H) as (_ & Hf & Hu & Hs & _ & Huk & _ & Hsk & _).
  unfold uniformKindsKnown, keysPresent. by rewrite Hf, Hu, Hs, Huk, Hsk.
Qed.

Lemma getCurrentTexture_is_Some x :
  is_Some (pingTexture x) → is_Some (pongTexture x) → is_Some (getCurrentTexture x).
Proof. unfold getCurrentTexture. by destruct (bool_decide _). Qed.

(** [init()] returns when the declarations can be generated and the
    dependencies have their textures. *)
Lemma init_Ok v s x :
  vars s !! v = Some x → initialized x = false → uniformKindsKnown x →
  (∀ d, d ∈ dependencies x → d ≠ v →
        ∃ y, vars s !! d = Some y ∧ is_Some (getCurrentTexture y)) →
  ∃ fragment res,
    init v s
    = (Ok tt,
       set_nextTex (preInit v x (nextTex s)).2
         (set_vars (<[v := set_initialized true
                              (createdShader (preInit v x (nextTex s)).1
                                 fragment res)]> (vars s)) s)).
Proof.
  intros Hv Hi Hk Hdeps.
  destruct (init v s) as [r s'] eqn:Hinit.
  pose proof (init_spec _ _ _ _ _ Hv Hi Hinit) as Hspec.
  rewrite (init_run _ _ _ Hv Hi) in Hinit.
  set (x1 := (preInit v x (nextTex s)).1) in *.
  assert (vars (preInitWorld v x s) !! v = Some x1) as Hv1 by apply lookup_insert_eq.
  rewrite (createShader_run _ _ _ Hv1) in Hinit.
  destruct (static_fields _ _ (preInit_static v x (nextTex s)))
    as (_ & _ & _ & _ & _ & _ & _ & _ & Hd1).
  fold x1 in Hd1.
  destruct (preInit_flags v x (nextTex s)) as (_ & _ & _ & _ & _ & _ & _ & Hp1 & Hq1).
  fold x1 in Hp1, Hq1.
  assert (∀ d, d ∈ dependencies x1 →
               ∃ y t, vars (preInitWorld v x s) !! d = Some y
                      ∧ getCurrentTexture y = Some t) as Hready.
  { intros d Hd. rewrite Hd1 in Hd. destruct (decide (d = v)) as [->|Hne].
    - destruct (getCurrentTexture_is_Some x1 Hp1 Hq1) as [t Ht]. by exists x1, t.
    - destruct (Hdeps d Hd Hne) as (y & Hy & [t Ht]). exists y, t.
      split; [|done]. unfold preInitWorld. simpl. by rewrite lookup_insert_ne. }
  destruct (depNames_Ok (dependencies x1) (preInitWorld v x s)) as [names Hn].
  { intros d Hd. destruct (Hready d Hd) as (y & _ & Hy & _). by exists y. }
  rewrite Hn in Hinit. simpl in Hinit.
  rewrite (fullFragmentShader_spec x1 names) in Hinit
    by (by apply (static_ready x x1 (preInit_static v x (nextTex s)))).
  destruct (bindDependencies_Ok (dependencies x1) ∅ _ Hready) as [res Hb].
  rewrite Hb in Hinit. simpl in Hinit. injection Hinit as <- <-.
  destruct Hspec as (fragment & res' & Hs'). exists fragment, res'. by f_equal.
Qed.

Lemma releasedVar_releasable v deps w y0 y :
  releasedVar v deps w y0 y → releasable y0 → releasable y.
Proof.
  intros (_ & D & b & -> & _) [t Ht]. exists t. by rewrite releasedTexture_same.
Qed.

Lemma destroyTextures_Ok v s x :
  vars s !! v = Some x → releasable x → ∃ s', destroyTextures v s = (Ok tt, s').
Proof.
  intros Hv [t Ht]. rewrite (destroyTextures_run _ _ _ Hv), Ht.
  destruct (texturesDestroyed x); by eexists.
Qed.

Lemma releaseDependency_Ok v deps s0 s d :
  released v deps s0 s → d ∈ deps →
  (∃ y0, vars s0 !! d = Some y0 ∧ releasable y0) →
  ∃ s', releaseDependency v d s = (Ok tt, s').
Proof.
  intros Hrel Hd (y0 & Hy0 & Hok).
  destruct (released_lookup0 _ _ _ _ _ _ Hrel Hy0) as (y & Hy & Hry).
  pose proof (releasedVar_releasable _ _ _ _ _ Hry Hok) as [t Ht].
  unfold releaseDependency.
  rewrite (bind_Ok _ _ _ _ _ (modifyVar_known _ _ _ _ Hy)).
  set (ya := set_dependents (dependents y ∖ {[v]}) y).
  set (sa := set_vars (<[d := ya]> (vars s)) s).
  assert (vars sa !! d = Some ya) as Hya by apply lookup_insert_eq.
  rewrite (bind_Ok _ _ _ _ _ (getVar_Some _ _ _ Hya)).
  destruct (_ && _); [|by eexists].
  apply (destroyTextures_Ok d sa ya Hya). exists t.
  rewrite <-Ht. unfold ya. by destruct y.
Qed.

Lemma release_loop_Ok v deps s0 l s :
  released v deps s0 s → (∀ d, d ∈ l → d ∈ deps) →
  (∀ d, d ∈ deps → ∃ y0, vars s0 !! d = Some y0 ∧ releasable y0) →
  ∃ s', forM_ l (releaseDependency v) s = (Ok tt, s').
Proof.
  revert s. induction l as [|d l IH]; intros s Hrel Hl Hok; simpl; [by eexists|].
  assert (d ∈ deps) as Hd by (apply Hl, list_elem_of_here).
  destruct (releaseDependency_Ok v deps s0 s d Hrel Hd (Hok d Hd)) as [s1 Hs1].
  rewrite (bind_Ok _ _ _ _ _ Hs1).
  apply IH; [|intros d' Hd'; by apply Hl, list_elem_of_further|done].
  by destruct (released_releaseDependency _ _ _ _ _ _ Hrel Hd Hs1).
Qed.

(** [destroy()] returns when neither the variable nor its dependencies
    lack the buffer that the release would destroy. *)
Lemma destroy_Ok v s x :
  vars s !! v = Some x → releasable x →
  (∀ d, d ∈ dependencies x → ∃ y, vars s !! d = Some y ∧ releasable y) →
  ∃ s', destroy v s = (Ok tt, s').
Proof.
  intros Hv Hx Hdeps. destruct (destroyed x) eqn:Hd.
  { exists s. by apply (destroy_destroyed _ _ x). }
  unfold destroy.
  rewrite (bind_Ok _ _ _ _ _ (getVar_Some _ _ _ Hv)), Hd.
  pose proof (destroy_mark v s x Hv) as Hmark.
  set (s0 := markDestroyed v x s) in *.
  set (x0 := set_shader None (set_mesh None (set_destroyed true x))).
  assert (vars s0 !! v = Some x0) as Hv0 by apply lookup_insert_eq.
  assert (releasable x0) as Hx0.
  { destruct Hx as [t Ht]. exists t. rewrite <-Ht. by destruct x. }
  unfold mbind, M_bind in *.
  destruct (modifyVar v (set_destroyed true) s) as [[[]|?] sa]; [|done].
  destruct (modifyVar v (set_mesh None) sa) as [[[]|?] sb]; [|done].
  destruct (modifyVar v (set_shader None) sb) as [[[]|?] sc]; [|done].
  injection Hmark as ->.
  assert (∀ d, d ∈ dependencies x → ∃ y0, vars s0 !! d = Some y0 ∧ releasable y0)
    as Hok.
  { intros d Hin. destruct (decide (d = v)) as [->|Hne]; [by exists x0|].
    destruct (Hdeps d Hin) as (y & Hy & Hry). exists y. split; [|done].
    unfold s0, markDestroyed. simpl. by rewrite lookup_insert_ne. }
  destruct (release_loop_Ok v (dependencies x) s0 (dependencies x) s0
              (released_refl _ _ _) (λ d H, H) Hok) as [s1 Hloop].
  pose proof (released_loop v (dependencies x) s0 _ s0 s1 (released_refl _ _ _)
                (λ d H, H) Hloop) as Hrel1.
  fold (@mbind M _) in Hloop.
  change (forM_ (dependencies x) (releaseDependency v) s0) with
    (forM_ (dependencies x) (releaseDependency v) s0) in Hloop.
  rewrite Hloop.
  destruct (released_lookup0 _ _ _ _ _ _ Hrel1 Hv0) as (y1 & Hy1 & Hry1).
  rewrite (getVar_Some _ _ _ Hy1).
  assert (∃ s2, (if bool_decide (size (dependents y1) = 0%nat)
                 then destroyTextures v else mret tt) s1 = (Ok tt, s2)) as [s2 ->].
  { destruct (bool_decide _); [|by eexists].
    apply (destroyTextures_Ok v s1 y1 Hy1).
    by apply (releasedVar_releasable _ _ _ _ _ Hry1). }
  by eexists.
Qed.

Lemma releasable_textures x :
  is_Some (pingTexture x) → is_Some (pongTexture x) → releasable x.
Proof.
  intros [p Hp] [q Hq]. unfold releasable, releasedTexture, getAlternateTexture.
  rewrite Hp, Hq. destruct (needsPingPong x); [|by eexists].
  destruct (bool_decide _); destruct (_ && _); by eexists.
Qed.

(** X17. [computeOnce()] of a variable that is alive and not initialised,
    whose declarations can be generated and whose dependencies have their
    textures: the call returns, it renders exactly one pass, into the
    texture that [getCurrentTexture()] returns afterwards, and it leaves
    the variable destroyed.  The only textures it destroys are alternate
    buffers: of dependencies that were destroyed before, and of the
    variable itself when it depends on itself. *)
Theorem computeOnce_result (v : VarId) (s : World) (x : GPUComputeVariable) :
  vars s !! v = Some x → oneShotReady s v x →
  ∃ s' x' t resources params,
    computeOnce v s = (Ok tt, s')
    ∧ trace s' = trace s ++ [EvPass v (Some t) resources params]
    ∧ vars s' !! v = Some x' ∧ getCurrentTexture x' = Some t
    ∧ destroyed x' = true ∧ initialized x' = false
    ∧ ∀ n, n ∈ destroyedTex s' →
           n ∈ destroyedTex s
           ∨ (∃ d y a, d ∈ dependencies x ∧ d ≠ v ∧ vars s !! d = Some y
                       ∧ destroyed y = true
                       ∧ getAlternateTexture y = Some a ∧ tex_id a = n)
           ∨ (v ∈ dependencies x
              ∧ ∃ a, getAlternateTexture x' = Some a ∧ tex_id a = n).
Proof.
  intros Hv (Hi & Hd & Hidx & Hk & Hkeys & Hdeps).
  (* init *)
  destruct (init_Ok v s x Hv Hi Hk) as (fragment & res & Hinit).
  { intros d Hin Hne. destruct (Hdeps d Hin Hne) as (y & Hy & Hc & _). by exists y. }
  set (x1 := (preInit v x (nextTex s)).1) in *.
  set (xi := set_initialized true (createdShader x1 fragment res)) in *.
  set (s1 := set_nextTex _ _) in Hinit.
  assert (vars s1 !! v = Some xi) as Hv1 by apply lookup_insert_eq.
  pose proof (preInit_static v x (nextTex s)) as Hst1. fold x1 in Hst1.
  pose proof (createdShader_static x1 fragment res) as Hst2.
  assert (staticOf xi = staticOf x) as Hsti by (by rewrite <-Hst1, <-Hst2).
  destruct (static_fields _ _ Hsti) as (_ & _ & _ & _ & Hhu & _ & _ & _ & Hdi).
  destruct (preInit_flags v x (nextTex s))
    as (Hpp1 & _ & Hd1 & _ & _ & Hc1 & _ & Hp1 & Hq1).
  fold x1 in Hpp1, Hd1, Hc1, Hp1, Hq1.
  destruct (createdShader_core x1 fragment res) as (Hcp & Hcq & Hcc & _).
  destruct (createdShader_flags x1 fragment res) as (Hpp2 & Hd2 & _ & _ & _ & Hsh & Hpu).
  assert (pingTexture xi = pingTexture x1 ∧ pongTexture xi = pongTexture x1
          ∧ currentIndex xi = currentIndex x) as (Hpi & Hqi & Hci).
  { unfold xi. simpl. by rewrite Hcp, Hcq, Hcc, Hc1. }
  assert (∀ d, d ∈ dependencies x → d ≠ v → vars s1 !! d = vars s !! d) as Hother1.
  { intros d _ Hne. unfold s1. simpl. by rewrite lookup_insert_ne. }
  (* compute *)
  destruct (compute_initialized_Ok v s1 xi Hv1) as (sh & Hcomp).
  { done. }
  { done. }
  { intros d Hin. rewrite Hdi in Hin. destruct (decide (d = v)) as [->|Hne].
    - destruct (getCurrentTexture_is_Some xi) as [t Ht];
        [by rewrite Hpi|by rewrite Hqi|]. by exists xi, t.
    - destruct (Hdeps d Hin Hne) as (y & Hy & [t Ht] & _). exists y, t.
      by rewrite Hother1. }
  { by apply (static_ready x xi Hsti). }
  { intros Hu. apply Hpu.
    destruct (static_fields _ _ Hst2) as (_ & _ & _ & _ & Hh2 & _).
    by rewrite <-Hh2. }
  cbv zeta in Hcomp.
  set (pu := if hasUniforms xi then _ else _) in Hcomp.
  set (x2 := set_currentIndex _ _) in Hcomp.
  set (s2 := set_vars _ _) in Hcomp.
  assert (vars s2 !! v = Some x2) as Hv2 by apply lookup_insert_eq.
  assert (pingTexture x2 = pingTexture x1 ∧ pongTexture x2 = pongTexture x1
          ∧ currentIndex x2 = 1 - currentIndex x
          ∧ dependencies x2 = dependencies x ∧ destroyed x2 = false) as
    (Hp2 & Hq2 & Hc2 & Hdeps2 & Hdes2).
  { split_and!.
    - by transitivity (pingTexture xi).
    - by transitivity (pongTexture xi).
    - transitivity (1 - currentIndex xi); [done|by rewrite Hci].
    - by transitivity (dependencies xi).
    - transitivity (destroyed (createdShader x1 fragment res)); [done|].
      by rewrite Hd2, Hd1. }
  destruct (flip_textures xi ltac:(by rewrite Hci) x2) as (Hcur2 & Halt2);
    [by rewrite Hp2|by rewrite Hq2|by rewrite Hc2, Hci|].
  assert (∃ t, getAlternateTexture xi = Some t) as [t Ht].
  { rewrite <-Hcur2. apply getCurrentTexture_is_Some; [by rewrite Hp2|by rewrite Hq2]. }
  (* destroy *)
  destruct (destroy_Ok v s2 x2 Hv2) as [s3 Hdestroy].
  { apply releasable_textures; [by rewrite Hp2|by rewrite Hq2]. }
  { intros d Hin. rewrite Hdeps2 in Hin. destruct (decide (d = v)) as [->|Hne].
    - exists x2. split; [done|].
      apply releasable_textures; [by rewrite Hp2|by rewrite Hq2].
    - destruct (Hdeps d Hin Hne) as (y & Hy & _ & Hr). exists y. split; [|done].
      unfold s2. simpl. rewrite lookup_insert_ne by done. by rewrite Hother1. }
  destruct (destroy_spec _ _ _ _ Hv2 Hdes2 Hdestroy)
    as (sr & y2 & Hrel & Hy2 & Hs3 & _ & _).
  set (x0 := set_shader None (set_mesh None (set_destroyed true x2))).
  assert (vars (markDestroyed v x2 s2) !! v = Some x0) as Hm by apply lookup_insert_eq.
  destruct (released_lookup0 _ _ _ _ _ _ Hrel Hm) as (y & Hy & Hry).
  assert (y = y2) as -> by congruence.
  destruct Hry as (_ & D & b & Hy2eq & _).
  set (x' := set_initialized false (set_dependencies [] y2)) in *.
  assert (vars s3 !! v = Some x') as Hv3 by (rewrite Hs3; apply lookup_insert_eq).
  assert (getCurrentTexture x' = getCurrentTexture x2
          ∧ getAlternateTexture x' = getAlternateTexture x2
          ∧ destroyed x' = true ∧ initialized x' = false) as (Hcur' & Halt' & Hdes' & Hi').
  { unfold x'. rewrite Hy2eq. unfold x0. by destruct x2. }
  exists s3, x', t, (from_option sh_resources ∅ sh), (default ∅ pu).
  split_and!.
  - unfold computeOnce. rewrite (bind_Ok _ _ _ _ _ Hinit).
    by rewrite (bind_Ok _ _ _ _ _ Hcomp).
  - rewrite Hs3. simpl. destruct Hrel as (_ & _ & -> & _). simpl. by rewrite Ht.
  - done.
  - by rewrite Hcur', Hcur2.
  - done.
  - done.
  - intros n Hn. rewrite Hs3 in Hn. simpl in Hn.
    destruct Hrel as (_ & _ & _ & Hvars & Htex).
    apply Htex in Hn. destruct Hn as [Hold|(w & ya & yb & a & Ha & Hb & Hf & Ht' & Hrt & Hid)].
    { by left. }
    right.
    destruct (releasedTexture_alternate _ _ Hrt) as (Hnp & Halt & _).
    pose proof (Hvars w) as Hw. rewrite Ha, Hb in Hw. inversion Hw as [? ? Hrv|]; subst.
    destruct Hrv as (Hout & D' & b' & -> & HD' & Hb').
    assert (texturesDestroyed (set_texturesDestroyed b' (set_dependents D' ya)) = b')
      as Hbb by (by destruct ya).
    rewrite Hbb in Ht'. subst b'.
    destruct Hb' as [Hb'|(_ & _ & Hdesa & _)]; [congruence|].
    destruct (decide (w = v)) as [->|Hne].
    + right. assert (ya = x0) as -> by congruence.
      split.
      * assert (needsPingPong x1 = true) as Hn1 by (rewrite <-Hpp2; exact Hnp).
        rewrite Hpp1 in Hn1. by apply bool_decide_eq_true in Hn1.
      * exists a. split; [|done]. rewrite Halt', <-Halt. unfold x0. by destruct x2.
    + left. assert (w ∈ dependencies x2) as Hin.
      { destruct (decide (w ∈ dependencies x2)); [done|].
        specialize (Hout ltac:(done) Hne). rewrite Hout in Hbb.
        congruence. }
      rewrite Hdeps2 in Hin.
      assert (vars s !! w = Some ya) as Hys.
      { unfold markDestroyed in Ha. simpl in Ha.
        by rewrite !lookup_insert_ne in Ha by done. }
      exists w, ya, a. done.
Qed.

Lemma computeOnce_result_witness :
  ∃ s' x' t resources params,
    computeOnce 0%nat exampleNew = (Ok tt, s')
    ∧ trace s' = trace exampleNew ++ [EvPass 0%nat (Some t) resources params]
    ∧ vars s' !! 0%nat = Some x' ∧ getCurrentTexture x' = Some t
    ∧ destroyed x' = true ∧ initialized x' = false
    ∧ ∀ n, n ∈ destroyedTex s' →
           n ∈ destroyedTex exampleNew
           ∨ (∃ d y a, d ∈ dependencies (varAt 0%nat exampleNew) ∧ d ≠ 0%nat
                       ∧ vars exampleNew !! d = Some y ∧ destroyed y = true
                       ∧ getAlternateTexture y = Some a ∧ tex_id a = n)
           ∨ (0%nat ∈ dependencies (varAt 0%nat exampleNew)
              ∧ ∃ a, getAlternateTexture x' = Some a ∧ tex_id a = n).
Proof.
  apply (computeOnce_result 0%nat exampleNew (varAt 0%nat exampleNew)).
  - vm_compute. reflexivity.
  - split_and!.
    + reflexivity.
    + reflexivity.
    + left. reflexivity.
    + constructor; [intros _; by eexists|constructor].
    + split; intros key Hkey; apply list_elem_of_singleton in Hkey as ->; by eexists.
    + intros d Hd. vm_compute in Hd. inversion Hd.
Defined.

Lemma wellWired_invariant_witness :
  wellWired (exec (setDependencies 0%nat [0%nat])
               (exec (new_GPUComputeVariable exampleOptions) emptyWorld)).
Proof.
  destruct wellWired_invariant as (Hempty & Hnew & Hcall).
  apply (Hcall (exec (new_GPUComputeVariable exampleOptions) emptyWorld) 0%nat
           (DoSetDependencies [0%nat])
           (outcome (setDependencies 0%nat [0%nat])
              (exec (new_GPUComputeVariable exampleOptions) emptyWorld))).
  - apply (Hnew emptyWorld exampleOptions
             (outcome (new_GPUComputeVariable exampleOptions) emptyWorld));
      [exact Hempty|apply surjective_pairing].
  - intros d Hd. apply list_elem_of_singleton in Hd as ->. by eexists.
  - apply surjective_pairing.
  - left. reflexivity.
Defined.

(** ** The bindings of a pass *)

Lemma bindAll_lookup l r k val :
  (∀ val', (k, val') ∈ l → val' = val) →
  r !! k = Some val ∨ (k, val) ∈ l →
  bindAll l r !! k = Some val.
Proof.
  revert r. induction l as [|[k' v'] l IH]; intros r Hall Hin; simpl.
  - destruct Hin as [|Hin]; [done|by inversion Hin].
  - apply IH.
    + intros val' H. apply Hall. by apply list_elem_of_further.
    + destruct (decide (k' = k)) as [->|Hne].
      * left. rewrite lookup_insert_eq. f_equal. apply Hall, list_elem_of_here.
      * rewrite lookup_insert_ne by done.
        destruct Hin as [|Hin]; [by left|]. right.
        apply elem_of_cons in Hin as [[= <- <-]|Hin]; [done|done].
Qed.

Lemma bindAll_lookup_ne l r k :
  (∀ val, (k, val) ∉ l) → bindAll l r !! k = r !! k.
Proof.
  revert r. induction l as [|[k' v'] l IH]; intros r Hall; simpl; [done|].
  rewrite IH.
  - apply lookup_insert_ne. intros ->. apply (Hall v'), list_elem_of_here.
  - intros val H. apply (Hall val). by apply list_elem_of_further.
Qed.

Lemma set_shader_same x sh :
  shader x = Some sh →
  set_shader (Some (mkShader (sh_fragment sh) (sh_resources sh))) x = x.
Proof. intros H. destruct x, sh. simpl in *. by subst. Qed.

Lemma setResource_known v key src s x sh :
  vars s !! v = Some x → shader x = Some sh →
  setResource v key src s
  = (Ok tt,
     set_vars (<[v := set_shader
                        (Some (mkShader (sh_fragment sh) (<[key := src]> (sh_resources sh))))
                        x]> (vars s)) s).
Proof.
  intros Hv Hsh. unfold setResource. rewrite (modifyVar_known _ _ _ _ Hv).
  by rewrite Hsh.
Qed.

Lemma depBinding_ext s s' d :
  (λ y, (name y, getCurrentTexture y)) <$> vars s' !! d
  = (λ y, (name y, getCurrentTexture y)) <$> vars s !! d →
  depBinding s' d = depBinding s d.
Proof.
  unfold depBinding. intros H.
  destruct (vars s' !! d) as [y'|], (vars s !! d) as [y|]; simpl in *; try done.
  injection H as -> ->. done.
Qed.

(** The first loop of [compute]. *)
Lemma updateDependencies_run v deps s x sh :
  vars s !! v = Some x → shader x = Some sh →
  (∀ d, d ∈ deps → ∃ y t, vars s !! d = Some y ∧ getCurrentTexture y = Some t) →
  updateDependencies v deps s
  = (Ok tt,
     set_vars (<[v := set_shader
                        (Some (mkShader (sh_fragment sh)
                                 (depBindings s deps (sh_resources sh)))) x]>
                 (vars s)) s).
Proof.
  revert s x sh. induction deps as [|d deps IH]; intros s x sh Hv Hsh Hready.
  - simpl. unfold mret, M_ret. f_equal. apply world_eq; simpl; try done.
    unfold depBindings. simpl. rewrite (set_shader_same _ _ Hsh).
    symmetry. by apply insert_id.
  - unfold updateDependencies. simpl.
    destruct (Hready d (list_elem_of_here _ _)) as (y & t & Hy & Ht).
    unfold mbind at 1, M_bind at 1. unfold mbind at 1, M_bind at 1.
    rewrite (getVar_Some _ _ _ Hy), Ht.
    rewrite (setResource_known v (name y) (tex_id t) s x sh Hv Hsh).
    set (sh1 := mkShader (sh_fragment sh) (<[name y := tex_id t]> (sh_resources sh))).
    set (x1 := set_shader (Some sh1) x).
    set (s1 := set_vars (<[v := x1]> (vars s)) s).
    assert (∀ d', (λ y, (name y, getCurrentTexture y)) <$> vars s1 !! d'
                  = (λ y, (name y, getCurrentTexture y)) <$> vars s !! d') as Hsame.
    { intros d'. unfold s1. simpl. destruct (decide (d' = v)) as [->|Hne].
      - rewrite lookup_insert_eq, Hv. simpl. by destruct x.
      - by rewrite lookup_insert_ne. }
    assert (depBindings s1 deps (sh_resources sh1)
            = depBindings s (d :: deps) (sh_resources sh)) as Heq.
    { unfold depBindings. simpl.
      assert (depBinding s d = Some (name y, tex_id t)) as ->
        by (unfold depBinding; rewrite Hy; simpl; by rewrite Ht).
      simpl. f_equal. clear IH Hready.
      induction deps as [|d' deps IH']; [done|]. cbn.
      rewrite (depBinding_ext s s1 d' (Hsame d')).
      destruct (depBinding s d'); [f_equal|]; exact IH'. }
    change (forM_ deps _ s1) with (updateDependencies v deps s1).
    rewrite (IH s1 x1 sh1); [|apply lookup_insert_eq|by destruct x|].
    + rewrite Heq. f_equal. apply world_eq; simpl; try done.
      by rewrite insert_insert_eq.
    + intros d' Hd'. destruct (Hready d' (list_elem_of_further _ _ _ Hd'))
        as (y' & t' & Hy' & Ht').
      specialize (Hsame d'). rewrite Hy' in Hsame.
      destruct (vars s1 !! d') as [y1|]; [|done]. simpl in Hsame.
      injection Hsame as Hn Hc. exists y1, t'. by rewrite Hc.
Qed.

(** The second loop of [compute]. *)
Lemma updateSamplers_run v s x y sh :
  keysPresent x → vars s !! v = Some y → shader y = Some sh →
  updateSamplers v x s
  = (Ok tt,
     set_vars (<[v := set_shader
                        (Some (mkShader (sh_fragment sh)
                                 (samplerBindings x (sh_resources sh)))) y]>
                 (vars s)) s).
Proof.
  intros [Hkeys _] Hv Hsh. unfold updateSamplers, samplerBindings.
  destruct (hasSamplers x).
  - revert s y sh Hv Hsh Hkeys.
    induction (samplerKeys x) as [|key keys IH]; intros s y sh Hv Hsh Hkeys.
    + simpl. unfold mret, M_ret. f_equal. apply world_eq; simpl; try done.
      rewrite (set_shader_same _ _ Hsh). symmetry. by apply insert_id.
    + simpl. destruct (Hkeys key (list_elem_of_here _ _)) as [t Ht].
      rewrite Ht.
      rewrite (bind_Ok _ _ _ _ _ (setResource_known v key (tex_id t) s y sh Hv Hsh)).
      erewrite IH; [|apply lookup_insert_eq|by destruct y|].
      * f_equal. apply world_eq; simpl; try done.
        rewrite insert_insert_eq. f_equal. unfold samplerBinding at 2. rewrite Ht. simpl.
        by destruct y.
      * intros k Hk. apply Hkeys. by apply list_elem_of_further.
  - unfold mret, M_ret. f_equal. apply world_eq; simpl; try done.
    rewrite (set_shader_same _ _ Hsh). symmetry. by apply insert_id.
Qed.

(** A pass of a ready variable, with the bindings the shader sees. *)
Lemma compute_run v s x :
  vars s !! v = Some x → passReady s x →
  ∃ fragment,
    compute v s
    = (Ok tt,
       set_vars
         (<[v := set_currentIndex (1 - currentIndex x)
                   (set_paramsUniforms (passParams x)
                      (set_shader (Some (mkShader fragment (passResources s x))) x))]>
            (vars s))
         (set_trace (trace s ++ [EvPass v (getAlternateTexture x)
                                   (passResources s x)
                                   (default ∅ (passParams x))]) s)).
Proof.
  intros Hv (Hi & [sh Hsh] & Hdeps & Hkeys & Hps).
  exists (sh_fragment sh).
  rewrite (compute_initialized_unfold _ _ _ Hv Hi), Hsh.
  unfold refreshBindings, passResources. rewrite Hsh. simpl.
  unfold mbind, M_bind.
  rewrite (updateDependencies_run v _ s x sh Hv Hsh Hdeps).
  set (x1 := set_shader (Some (mkShader (sh_fragment sh)
                 (depBindings s (dependencies x) (sh_resources sh)))) x).
  rewrite (updateSamplers_run v _ x x1 _ Hkeys (lookup_insert_eq _ _ _) eq_refl).
  simpl.
  set (x2 := set_shader _ x1).
  rewrite (updateUniforms_Ok v _ x x2 Hkeys (lookup_insert_eq _ _ _) Hps
             ltac:(by destruct x)).
  rewrite (renderPass_run _ _ _ (lookup_insert_eq _ _ _)).
  f_equal. apply world_eq; simpl; try done.
  rewrite !insert_insert_eq. f_equal.
Qed.


Lemma passResources_dep s x d y t :
  d ∈ dependencies x → vars s !! d = Some y → getCurrentTexture y = Some t →
  (∀ d' y', d' ∈ dependencies x → vars s !! d' = Some y' →
            name y' = name y → getCurrentTexture y' = Some t) →
  (hasSamplers x = true → name y ∉ samplerKeys x) →
  passResources s x !! name y = Some (tex_id t).
Proof.
  intros Hd Hy Ht Hsame Hkey. unfold passResources.
  assert (depBindings s (dependencies x) (from_option sh_resources ∅ (shader x))
          !! name y = Some (tex_id t)) as Hdep.
  { apply bindAll_lookup.
    - intros val' Hin. apply list_elem_of_omap in Hin as (d' & Hd' & Hb).
      unfold depBinding in Hb.
      destruct (vars s !! d') as [y'|] eqn:Hy'; [|done]. simpl in Hb.
      destruct (getCurrentTexture y') as [t'|] eqn:Ht'; [|done]. simpl in Hb.
      injection Hb as Hn <-. rewrite (Hsame d' y' Hd' Hy' Hn) in Ht'. congruence.
    - right. apply list_elem_of_omap. exists d. split; [done|].
      unfold depBinding. rewrite Hy. simpl. by rewrite Ht. }
  unfold samplerBindings. destruct (hasSamplers x); [|done].
  rewrite bindAll_lookup_ne; [done|].
  intros val Hin. apply list_elem_of_omap in Hin as (key & Hkin & Hb).
  unfold samplerBinding in Hb. destruct (lookupKey key (samplers x)); [|done].
  simpl in Hb. injection Hb as -> _. by apply Hkey.
Qed.








(** ** Errors of the initialisation *)

Lemma declareUniforms_Throw this us acc :
  Exists (untypedUniform this) us →
  ∃ key d, (key, d) ∈ us ∧ untypedUniform this (key, d)
           ∧ declareUniforms this us acc = Throw (unknownTypeMessage this key d).
Proof.
  revert acc. induction us as [|[key d] us IH]; intros acc Hex.
  { by apply Exists_nil in Hex. }
  simpl. destruct (isUniformDeclared (fragmentShader this) key) eqn:Hdecl.
  - apply Exists_cons in Hex as [[Hd _]|Hex]; [simpl in Hd; congruence|].
    destruct (IH acc Hex) as (k & d' & Hin & Hu & Hrun).
    exists k, d'. split; [by apply list_elem_of_further|done].
  - destruct (PIXI_TO_GLSL_TYPE (u_type d)) as [ty|] eqn:Hty.
    + apply Exists_cons in Hex as [[_ Hn]|Hex]; [simpl in Hn; congruence|].
      destruct (IH (acc +:+ uniformDecl ty key) Hex) as (k & d' & Hin & Hu & Hrun).
      exists k, d'. split; [by apply list_elem_of_further|done].
    + exists key, d. split; [apply list_elem_of_here|]. by split.
Qed.

(** X19. [init()] of a variable with a uniform that is not declared in the
    shader source and whose type is not found in the table of GLSL types (a
    type that is neither a key of the table nor the name of a member of
    [Object.prototype], which the lookup would find) throws the error that
    names the type and the uniform, and so does [compute()], which runs
    [init()].  The names that the variable pastes into regular expressions
    are taken to be word names.  The variable stays uninitialised and
    without shader, but its textures have been created by then. *)
Theorem init_unknown_uniform_type (v : VarId) (s : World) (x : GPUComputeVariable) :
  vars s !! v = Some x → initialized x = false →
  (∀ d, d ∈ dependencies x → d ≠ v → is_Some (vars s !! d)) →
  wordNames s x →
  Exists (untypedUniform x) (uniforms x) →
  ∃ key d x1,
    (key, d) ∈ uniforms x ∧ untypedUniform x (key, d)
    ∧ ¬ declares (fragmentShader x) key
    ∧ init v s = (Throw (unknownTypeMessage x key d), preInitWorld v x s)
    ∧ compute v s = (Throw (unknownTypeMessage x key d), preInitWorld v x s)
    ∧ vars (preInitWorld v x s) !! v = Some x1
    ∧ initialized x1 = false ∧ shader x1 = shader x
    ∧ is_Some (pingTexture x1) ∧ is_Some (pongTexture x1).
Proof.
  intros Hv Hi Hdeps [Hwords _] Hex.
  set (x1 := (preInit v x (nextTex s)).1).
  assert (vars (preInitWorld v x s) !! v = Some x1) as Hv1 by apply lookup_insert_eq.
  pose proof (preInit_static v x (nextTex s)) as Hst. fold x1 in Hst.
  destruct (static_fields _ _ Hst) as (Hn & Hf & Hu & _ & _ & _ & _ & _ & Hd1).
  destruct (preInit_flags v x (nextTex s)) as (_ & Hi1 & _ & _ & _ & _ & _ & Hp1 & Hq1).
  fold x1 in Hi1, Hp1, Hq1.
  assert (Exists (untypedUniform x1) (uniforms x1)) as Hex1.
  { rewrite Hu. unfold untypedUniform. by rewrite Hf. }
  destruct (depNames_Ok (dependencies x1) (preInitWorld v x s)) as [names Hnames].
  { intros d Hd. rewrite Hd1 in Hd. destruct (decide (d = v)) as [->|Hne].
    - by exists x1.
    - unfold preInitWorld. simpl. rewrite lookup_insert_ne by done. by apply Hdeps. }
  destruct (declareUniforms_Throw x1 (uniforms x1) "" Hex1)
    as (key & d & Hin & Hun & Hthrow).
  assert (unknownTypeMessage x1 key d = unknownTypeMessage x key d) as Hmsg.
  { unfold unknownTypeMessage, errPrefix. by rewrite Hn. }
  assert (init v s = (Throw (unknownTypeMessage x key d), preInitWorld v x s)) as Hinit.
  { rewrite (init_run _ _ _ Hv Hi), (createShader_run _ _ _ Hv1), Hnames. simpl.
    unfold fullFragmentShader. by rewrite Hthrow, Hmsg. }
  assert ((key, d) ∈ uniforms x) as Hin' by (by rewrite <-Hu).
  assert (untypedUniform x (key, d)) as Hun'.
  { unfold untypedUniform in *. by rewrite <-Hf. }
  assert (¬ declares (fragmentShader x) key) as Hnot.
  { intros Hdecl. apply isUniformDeclared_spec in Hdecl.
    - destruct Hun' as [Hfalse _]. simpl in Hfalse. congruence.
    - apply (proj1 (Forall_forall _ _) Hwords). apply elem_of_app. right.
      apply list_elem_of_fmap. by exists (key, d). }
  assert (shader x1 = shader x) as Hsh.
  { unfold x1, preInit, ensured. simpl.
    destruct (pingTexture x), (pongTexture x), (bool_decide _); done. }
  exists key, d, x1. split_and!; try done.
  - by rewrite (compute_uninitialized _ _ _ Hv Hi), Hinit.
  - by rewrite Hi1.
Qed.

Lemma init_unknown_uniform_type_witness :
  ∃ key d x1,
    (key, d) ∈ uniforms (varAt 0%nat exampleUntyped)
    ∧ untypedUniform (varAt 0%nat exampleUntyped) (key, d)
    ∧ ¬ declares (fragmentShader (varAt 0%nat exampleUntyped)) key
    ∧ init 0%nat exampleUntyped
      = (Throw (unknownTypeMessage (varAt 0%nat exampleUntyped) key d),
         preInitWorld 0%nat (varAt 0%nat exampleUntyped) exampleUntyped)
    ∧ compute 0%nat exampleUntyped
      = (Throw (unknownTypeMessage (varAt 0%nat exampleUntyped) key d),
         preInitWorld 0%nat (varAt 0%nat exampleUntyped) exampleUntyped)
    ∧ vars (preInitWorld 0%nat (varAt 0%nat exampleUntyped) exampleUntyped) !! 0%nat
      = Some x1
    ∧ initialized x1 = false ∧ shader x1 = shader (varAt 0%nat exampleUntyped)
    ∧ is_Some (pingTexture x1) ∧ is_Some (pongTexture x1).
Proof.
  apply (init_unknown_uniform_type 0%nat exampleUntyped (varAt 0%nat exampleUntyped)).
  - vm_compute. reflexivity.
  - reflexivity.
  - intros d Hd. vm_compute in Hd. inversion Hd.
  - split.
    + apply wordNames_check. vm_compute. reflexivity.
    + intros d y Hd. vm_compute in Hd. inversion Hd.
  - apply Exists_cons_hd. split; vm_compute; reflexivity.
Defined.

(** ** Injection of code into a shader *)

Lemma string_length_app (a b : string) :
  String.length (a +:+ b) = (String.length a + String.length b)%nat.
Proof. induction a as [|c a IH]; [done|]. rewrite sapp_cons. simpl. by rewrite IH. Qed.

(** X20. Laws of [injectShaderCode]: injecting the empty code changes
    nothing; the result is as long as the shader and the code together; a
    shader that starts with a [#version] line still starts with the same
    line after the injection, so that a second injection lands between
    that line and the code injected first. *)
Theorem injectShaderCode_laws (shader code code' : string) :
  injectShaderCode shader "" = shader
  ∧ String.length (injectShaderCode shader code)
    = (String.length shader + String.length code)%nat
  ∧ (∀ preamble rest,
       matchVersion shader = Some (preamble, rest) →
       matchVersion (injectShaderCode shader code) = Some (preamble, code +:+ rest)
       ∧ injectShaderCode (injectShaderCode shader code) code'
         = injectShaderCode shader (code' +:+ code)).
Proof.
  unfold injectShaderCode.
  destruct (matchVersion shader) as [[preamble rest]|] eqn:Hm.
  - pose proof (proj1 (matchVersion_Some _ _ _) Hm) as (ws & line & Hws & Hline & Hp & Hs).
    split_and!.
    + by rewrite sapp_nil_l.
    + rewrite Hs, !string_length_app. lia.
    + intros p r [= <- <-].
      assert (matchVersion (preamble +:+ code +:+ rest)
              = Some (preamble, code +:+ rest)) as Hm'.
      { apply matchVersion_Some. by exists ws, line. }
      split; [done|]. rewrite Hm'. by rewrite sapp_assoc.
  - split_and!; [done| |done].
    rewrite string_length_app. lia.
Qed.

Lemma injectShaderCode_laws_witness :
  matchVersion (injectShaderCode (fragmentShader (exampleVar exampleFresh)) "A")
  = Some ("#version 300 es" +:+ nl,
          "A" +:+ ("uniform sampler2D state;" +:+ nl +:+ "void main() {}")).
Proof.
  apply (injectShaderCode_laws (fragmentShader (exampleVar exampleFresh)) "A" "").
  vm_compute. reflexivity.
Defined.

(** ** One frame of the animation loop *)

Lemma passReady_vars s s' x :
  vars s' = vars s → passReady s x → passReady s' x.
Proof.
  intros Hvars (Hi & Hsh & Hdeps & Hkeys & Hps). split_and!; try done.
  intros d Hd. rewrite Hvars. by apply Hdeps.
Qed.

Lemma running_ready s x :
  running x →
  (∀ d, d ∈ dependencies x → ∃ y, vars s !! d = Some y ∧ running y) →
  passReady s x.
Proof.
  intros (Hi & Hsh & Hk & Hps & _) Hdeps. split_and!; try done.
  intros d Hd. destruct (Hdeps d Hd) as (y & Hy & (_ & _ & _ & _ & Hp & Hq & _)).
  destruct (getCurrentTexture_is_Some y Hp Hq) as [t Ht]. by exists y, t.
Qed.

Lemma running_afterPass x fragment resources :
  running x → running (afterPass x fragment resources).
Proof.
  intros (Hi & Hsh & Hk & Hps & Hp & Hq & Hidx). unfold afterPass.
  split_and!.
  - by destruct x.
  - by destruct x.
  - destruct Hk as [Hk1 Hk2]. split; by destruct x.
  - intros Hu. assert (hasUniforms x = true) as Hu' by (by destruct x).
    destruct (Hps Hu') as [ps Hp']. unfold passParams. rewrite Hu', Hp'.
    destruct x. simpl. by eexists.
  - by destruct x.
  - by destruct x.
  - assert (currentIndex (set_currentIndex (1 - currentIndex x)
              (set_paramsUniforms (passParams x)
                 (set_shader (Some (mkShader fragment resources)) x)))
            = 1 - currentIndex x) as -> by (by destruct x).
    lia.
Qed.

(** One frame, step by step. *)
Lemma frame_step (m sim : VarId) (s : World) (xm xs : GPUComputeVariable)
    (fuel : nat) :
  m ≠ sim → vars s !! m = Some xm → vars s !! sim = Some xs →
  dependencies xm = [sim; m] → dependencies xs = [sim] →
  running xm → running xs →
  name xs ≠ name xm →
  (hasSamplers xm = true → name xs ∉ samplerKeys xm ∧ name xm ∉ samplerKeys xm) →
  ∃ s' ts fs rs fm rm,
    computeChain (S (S fuel)) m ∅ s = (Ok (Some ({[sim]} ∪ ({[m]} ∪ ∅))), s')
    ∧ getAlternateTexture xs = Some ts
    ∧ vars s' = <[m := afterPass xm fm rm]> (<[sim := afterPass xs fs rs]> (vars s))
    ∧ trace s' = trace s ++ [EvVisited m; EvVisited sim;
                             EvPass sim (Some ts) rs (default ∅ (passParams xs));
                             EvPass m (getAlternateTexture xm) rm
                               (default ∅ (passParams xm))]
    ∧ rm !! name xs = Some (tex_id ts)
    ∧ (∀ tm, getCurrentTexture xm = Some tm → rm !! name xm = Some (tex_id tm))
    ∧ getCurrentTexture (afterPass xs fs rs) = Some ts.
Proof.
  intros Hne Hm Hsim Hdm Hds Hrunm Hruns Hnames Hkeys.
  assert (passReady s xs) as Hrs.
  { apply running_ready; [done|]. intros d Hd. rewrite Hds in Hd.
    apply list_elem_of_singleton in Hd as ->. by exists xs. }
  destruct Hruns as (_ & _ & _ & _ & Hps & Hqs & Hidx).
  assert (∃ ts, getAlternateTexture xs = Some ts) as [ts Halt].
  { unfold getAlternateTexture. destruct (bool_decide _); [exact Hqs|exact Hps]. }
  set (sa := set_trace (trace s ++ [EvVisited m]) s).
  set (sb := set_trace (trace sa ++ [EvVisited sim]) sa).
  destruct (compute_run sim sb xs Hsim (passReady_vars s sb xs eq_refl Hrs))
    as (fs & Hcs).
  fold (afterPass xs fs (passResources sb xs)) in Hcs.
  set (xs' := afterPass xs fs (passResources sb xs)) in *.
  set (sc := set_vars _ _) in Hcs.
  assert (vars sc !! sim = Some xs') as Hsim' by apply lookup_insert_eq.
  assert (vars sc !! m = Some xm) as Hm'.
  { unfold sc. simpl. by rewrite lookup_insert_ne. }
  destruct (flip_textures xs Hidx xs') as (Hcur' & _); [done|done|done|].
  rewrite Halt in Hcur'.
  assert (passReady sc xm) as Hrm'.
  { apply running_ready; [done|]. intros d Hd. rewrite Hdm in Hd.
    apply elem_of_cons in Hd as [->|Hd].
    - exists xs'. split; [done|]. apply running_afterPass.
      destruct Hrs as (? & ? & _ & ? & ?). by split_and!.
    - apply list_elem_of_singleton in Hd as ->. by exists xm. }
  destruct (compute_run m sc xm Hm' Hrm') as (fm & Hcm).
  fold (afterPass xm fm (passResources sc xm)) in Hcm.
  eexists _, ts, fs, _, fm, _. split_and!.
  - cbn [computeChain]. rewrite bool_decide_eq_false_2 by set_solver.
    unfold mbind at 1, M_bind at 1. unfold logEvent at 1. fold sa.
    unfold mbind at 1, M_bind at 1.
    rewrite (getVar_Some m sa xm Hm), Hdm.
    cbn [chainDeps]. rewrite bool_decide_eq_false_2 by done.
    unfold mbind at 1, M_bind at 1. unfold mbind at 1, M_bind at 1.
    rewrite (bool_decide_eq_false_2 (sim ∈ {[m]} ∪ ∅)) by set_solver.
    unfold mbind at 1, M_bind at 1. unfold logEvent at 1. fold sb.
    unfold mbind at 1, M_bind at 1.
    rewrite (getVar_Some sim sb xs Hsim), Hds.
    cbn [chainDeps]. rewrite bool_decide_eq_true_2 by done.
    unfold mbind at 1, M_bind at 1. unfold mret at 1, M_ret at 1.
    unfold mbind at 1, M_bind at 1. rewrite Hcs.
    unfold mret at 1, M_ret at 1.
    rewrite bool_decide_eq_true_2 by done.
    unfold mret at 1, M_ret at 1.
    unfold mbind at 1, M_bind at 1. rewrite Hcm. done.
  - done.
  - done.
  - simpl. rewrite <-!app_assoc. simpl. rewrite Halt. done.
  - assert (name xs' = name xs) as <- by done.
    apply (passResources_dep sc xm sim xs' ts); [rewrite Hdm; set_solver|done|done| |].
    + intros d' y' Hd' Hy' Hn. rewrite Hdm in Hd'.
      apply elem_of_cons in Hd' as [->|Hd'].
      * assert (y' = xs') as -> by congruence. done.
      * apply list_elem_of_singleton in Hd' as ->.
        assert (y' = xm) as -> by congruence. by destruct Hnames.
    + intros Hs. by destruct (Hkeys Hs).
  - intros tm Htm.
    apply (passResources_dep sc xm m xm tm); [rewrite Hdm; set_solver|done|done| |].
    + intros d' y' Hd' Hy' Hn. rewrite Hdm in Hd'.
      apply elem_of_cons in Hd' as [->|Hd'].
      * assert (y' = xs') as -> by congruence. by destruct Hnames.
      * apply list_elem_of_singleton in Hd' as ->.
        assert (y' = xm) as -> by congruence. done.
    + intros Hs. by destruct (Hkeys Hs).
  - done.
Qed.

(** X21. One frame of the main loop: [computeChain()] of a variable that
    reads a simulation variable and itself (as [mouseBounceRunner] reads
    [simulation]), the simulation reading only itself, both initialised
    with their two buffers.  The call returns and renders two passes:
    first the simulation, then the variable.  The second pass sees, under
    the name of the simulation, the texture that the first pass has just
    written, and under its own name its own current texture; the
    simulation's current texture is then the one written. *)
Theorem computeChain_frame (m sim : VarId) (s : World)
    (xm xs : GPUComputeVariable) (fuel : nat) :
  m ≠ sim → vars s !! m = Some xm → vars s !! sim = Some xs →
  dependencies xm = [sim; m] → dependencies xs = [sim] →
  running xm → running xs →
  name xs ≠ name xm →
  (hasSamplers xm = true → name xs ∉ samplerKeys xm ∧ name xm ∉ samplerKeys xm) →
  ∃ s' ts rs ps rm pm,
    computeChain (S (S fuel)) m ∅ s = (Ok (Some ({[sim]} ∪ ({[m]} ∪ ∅))), s')
    ∧ getAlternateTexture xs = Some ts
    ∧ trace s' = trace s ++ [EvVisited m; EvVisited sim;
                             EvPass sim (Some ts) rs ps;
                             EvPass m (getAlternateTexture xm) rm pm]
    ∧ rm !! name xs = Some (tex_id ts)
    ∧ (∀ tm, getCurrentTexture xm = Some tm → rm !! name xm = Some (tex_id tm))
    ∧ getCurrentTexture <$> vars s' !! sim = Some (Some ts).
Proof.
  intros Hne Hm Hsim Hdm Hds Hrm Hrs Hnames Hkeys.
  destruct (frame_step m sim s xm xs fuel Hne Hm Hsim Hdm Hds Hrm Hrs Hnames Hkeys)
    as (s' & ts & fs & rs & fm & rm & Hrun & Halt & Hvars & Htrace & Hrs' & Hrm' & Hcur).
  exists s', ts, rs, (default ∅ (passParams xs)), rm, (default ∅ (passParams xm)).
  split_and!; try done.
  rewrite Hvars, lookup_insert_ne, lookup_insert_eq by done. simpl. by rewrite Hcur.
Qed.

Lemma exampleFrame_running (v : VarId) :
  v = 0%nat ∨ v = 1%nat → running (varAt v exampleFrame).
Proof.
  intros [->| ->]; (split_and!;
    [vm_compute; reflexivity
    |vm_compute; by eexists
    |split; intros key Hkey; vm_compute in Hkey; inversion Hkey
    |intros Hu; vm_compute in Hu; discriminate
    |vm_compute; by eexists
    |vm_compute; by eexists
    |left; vm_compute; reflexivity]).
Qed.

Lemma computeChain_frame_witness :
  ∃ s' ts rs ps rm pm,
    computeChain 2 1%nat ∅ exampleFrame
    = (Ok (Some ({[0%nat]} ∪ ({[1%nat]} ∪ ∅))), s')
    ∧ getAlternateTexture (varAt 0%nat exampleFrame) = Some ts
    ∧ trace s' = trace exampleFrame
                 ++ [EvVisited 1%nat; EvVisited 0%nat;
                     EvPass 0%nat (Some ts) rs ps;
                     EvPass 1%nat (getAlternateTexture (varAt 1%nat exampleFrame)) rm pm]
    ∧ rm !! name (varAt 0%nat exampleFrame) = Some (tex_id ts)
    ∧ (∀ tm, getCurrentTexture (varAt 1%nat exampleFrame) = Some tm →
             rm !! name (varAt 1%nat exampleFrame) = Some (tex_id tm))
    ∧ getCurrentTexture <$> vars s' !! 0%nat = Some (Some ts).
Proof.
  apply (computeChain_frame 1%nat 0%nat exampleFrame (varAt 1%nat exampleFrame)
           (varAt 0%nat exampleFrame) 0).
  - discriminate.
  - vm_compute. reflexivity.
  - vm_compute. reflexivity.
  - vm_compute. reflexivity.
  - vm_compute. reflexivity.
  - apply exampleFrame_running. by right.
  - apply exampleFrame_running. by left.
  - vm_compute. discriminate.
  - intros Hs. vm_compute in Hs. discriminate.
Defined.

(** ** The animation loop *)

Lemma lookupKey_cons {A} (key k : string) (a : A) l :
  lookupKey key ((k, a) :: l) = if decide (k = key) then Some a else lookupKey key l.
Proof.
  unfold lookupKey. simpl. destruct (decide (k = key)); [done|].
  destruct (list_find _ l) as [[i p]|]; done.
Qed.











(** ** The start-up of the two compute variables *)

Lemma lookupKey_is_Some {A} (key : string) (l : list (string * A)) :
  key ∈ l.*1 → is_Some (lookupKey key l).
Proof.
  induction l as [|[k a] l IH]; intros Hin; [by inversion Hin|].
  rewrite lookupKey_cons. destruct (decide (k = key)); [by eexists|].
  apply IH. rewrite fmap_cons in Hin. apply elem_of_cons in Hin as [?|?]; [|done].
  simpl in *. congruence.
Qed.

Lemma keysPresent_new o : keysPresent (newVariable o).
Proof. split; intros key Hkey; by apply lookupKey_is_Some. Qed.



Lemma running_dependents x ds : running x → running (set_dependents ds x).
Proof.
  intros (Hi & Hsh & [Hk1 Hk2] & Hps & Hp & Hq & Hidx).
  unfold running, keysPresent. split_and!; by destruct x.
Qed.

Section runners.
Import Runners.







(** X24. A movement texture of another size than the particle texture
    makes [createParticlesSimulationRunner] throw the error of
    [setInitialTexture], which names the variable and both sizes; the
    variable is then constructed but has no texture, no dependency and is
    not initialised, and nothing was allocated or rendered. *)
Theorem createParticlesSimulationRunner_size_mismatch (src : string)
    (o : ParticlesSimulationRunnerOptions) (s : World) :
  tex_width (movementTexture o) ≠ (textureSize o).1
  ∨ tex_height (movementTexture o) ≠ (textureSize o).2 →
  createParticlesSimulationRunner src o s
  = (Throw ("GPUComputeVariable " +:+ dquote +:+ "uParticlesState" +:+ dquote
            +:+ ": Initial texture dimensions ("
            +:+ pretty (tex_width (movementTexture o)) +:+ "x"
            +:+ pretty (tex_height (movementTexture o))
            +:+ ") do not match variable dimensions ("
            +:+ pretty (textureSize o).1 +:+ "x" +:+ pretty (textureSize o).2
            +:+ ")"),
     set_nextVar (S (nextVar s))
       (set_vars (<[nextVar s := newVariable (simulationOptions src o)]> (vars s)) s))
  ∧ pingTexture (newVariable (simulationOptions src o)) = None
  ∧ dependencies (newVariable (simulationOptions src o)) = []
  ∧ initialized (newVariable (simulationOptions src o)) = false.
Proof.
  intros Hsize. split; [|done].
  set (x0 := newVariable (simulationOptions src o)).
  assert (o_initialTexture (simulationOptions src o) = None) as Hnone.
  { unfold simulationOptions. by destruct (sdfTextures o) as [[[? ?] ?] ?]. }
  assert (width x0 = (textureSize o).1 ∧ height x0 = (textureSize o).2
          ∧ name x0 = "uParticlesState") as (Hw0 & Hh0 & Hn0).
  { unfold x0, simulationOptions. by destruct (sdfTextures o) as [[[? ?] ?] ?]. }
  unfold createParticlesSimulationRunner.
  unfold mbind at 1, M_bind at 1. unfold new_GPUComputeVariable at 1.
  rewrite Hnone. fold x0.
  unfold mbind at 1, M_bind at 1. unfold setInitialTexture.
  erewrite bind_Ok; [|apply getVar_Some, lookup_insert_eq].
  assert (initialized x0 = false) as -> by done.
  rewrite Hw0, Hh0.
  assert (bool_decide (tex_width (movementTexture o) ≠ (textureSize o).1)
          || bool_decide (tex_height (movementTexture o) ≠ (textureSize o).2) = true)
    as ->.
  { destruct Hsize as [H|H].
    - by rewrite (bool_decide_eq_true_2 _ H).
    - rewrite (bool_decide_eq_true_2 _ H). apply orb_true_r. }
  unfold throw, errPrefix. by rewrite Hn0.
Qed.

Lemma createParticlesSimulationRunner_size_mismatch_witness :
  let o := mkSimulationOptions 1 1 (sdfTextures exampleSimulationOptions)
             (mkTex 0 4 2) (mkTex 1 2 2) 1 0 (16%Q, 9%Q) (2, 2)
             None None None None (mkTex 6 4 4) None in
  createParticlesSimulationRunner "void main() {}" o exampleStart
  = (Throw ("GPUComputeVariable " +:+ dquote +:+ "uParticlesState" +:+ dquote
            +:+ ": Initial texture dimensions ("
            +:+ pretty (tex_width (movementTexture o)) +:+ "x"
            +:+ pretty (tex_height (movementTexture o))
            +:+ ") do not match variable dimensions ("
            +:+ pretty (textureSize o).1 +:+ "x" +:+ pretty (textureSize o).2
            +:+ ")"),
     set_nextVar (S (nextVar exampleStart))
       (set_vars (<[nextVar exampleStart
                    := newVariable (simulationOptions "void main() {}" o)]>
                    (vars exampleStart)) exampleStart))
  ∧ pingTexture (newVariable (simulationOptions "void main() {}" o)) = None
  ∧ dependencies (newVariable (simulationOptions "void main() {}" o)) = []
  ∧ initialized (newVariable (simulationOptions "void main() {}" o)) = false.
Proof.
  intros o.
  apply (createParticlesSimulationRunner_size_mismatch "void main() {}" o
           exampleStart).
  left. simpl. lia.
Defined.



End runners.

(** ** The fullscreen triangle *)

Section fullscreen.
Import RenderToRt.
Local Open Scope R_scope.

(** X25. The fullscreen triangle covers the whole viewport, and the
    varying [vUV] is the same affine function of the position everywhere:
    at the point [(x, y)] of normalised device coordinates it is
    [((x + 1) / 2, (y + 1) / 2)], so it runs over the unit square on the
    viewport, with [(0, 0)] at the corner [(-1, -1)]. *)
Theorem fullscreen_triangle_uv (x y : R) :
  -1 <= x <= 1 → -1 <= y <= 1 →
  (∃ w0 w1 w2, 0 <= w0 ∧ 0 <= w1 ∧ 0 <= w2 ∧ w0 + w1 + w2 = 1
               ∧ interpolate w0 w1 w2 position = (x, y))
  ∧ (∀ w0 w1 w2, w0 + w1 + w2 = 1 → interpolate w0 w1 w2 position = (x, y) →
       interpolate w0 w1 w2 vUV = ((x + 1) / 2, (y + 1) / 2))
  ∧ 0 <= (x + 1) / 2 <= 1 ∧ 0 <= (y + 1) / 2 <= 1.
Proof.
  intros Hx Hy. split_and!; try lra.
  - exists (1 - (x + 1) / 4 - (y + 1) / 4), ((x + 1) / 4), ((y + 1) / 4).
    split_and!; try lra.
    unfold interpolate, position, vertex, fullscreenVertexShader, float32x2.
    simpl. f_equal; lra.
  - intros w0 w1 w2 Hsum Hpos.
    unfold interpolate, position, vUV, vertex, fullscreenVertexShader,
      float32x2 in *. simpl in *.
    injection Hpos as Hpx Hpy. f_equal; lra.
Qed.

Lemma fullscreen_triangle_uv_witness :
  (∃ w0 w1 w2, 0 <= w0 ∧ 0 <= w1 ∧ 0 <= w2 ∧ w0 + w1 + w2 = 1
               ∧ interpolate w0 w1 w2 position = (1, 1))
  ∧ (∀ w0 w1 w2, w0 + w1 + w2 = 1 →
       interpolate w0 w1 w2 position = (1, 1) →
       interpolate w0 w1 w2 vUV = ((1 + 1) / 2, (1 + 1) / 2))
  ∧ 0 <= (1 + 1) / 2 <= 1 ∧ 0 <= (1 + 1) / 2 <= 1.
Proof. apply (fullscreen_triangle_uv 1 1); lra. Defined.

End fullscreen.

(** ** The texel of a particle instance *)

Section instances.
Import SimulationShader ParticleVertexShader.
Local Open Scope R_scope.

Lemma Int_part_IZR (n : Z) : Int_part (IZR n) = n.
Proof. symmetry. apply Int_part_spec. lra. Qed.

Lemma toInt_IZR (n : Z) : (0 <= n)%Z → toInt (IZR n) = n.
Proof.
  intros Hn. unfold toInt. destruct (Rle_dec 0 (IZR n)) as [_|Hneg].
  - apply Int_part_IZR.
  - destruct Hneg. by apply IZR_le.
Qed.

Lemma texel_spec (w h id : Z) :
  (0 < w)%Z → (0 <= id)%Z →
  texel (mkVec2 (IZR w) (IZR h)) id = ((id mod w)%Z, (id / w)%Z).
Proof.
  intros Hw Hid. unfold texel. simpl. rewrite toInt_IZR by lia.
  by rewrite Z.rem_mod_nonneg, Z.quot_div_nonneg by lia.
Qed.

(** X26. With the texture size that [draw] passes, the instances
    [0 .. w*h - 1] and the texels of the particle texture correspond one
    to one: the instance [id] reads the texel [(id mod w, id / w)], which
    lies in the texture and has the row-major index [id], and every texel
    [(x, y)] is read by the instance [y * w + x].  The coordinate
    [particleUV] is the centre of that texel. *)
Theorem instance_texel_bijection (w h : Z) :
  (0 < w)%Z → (0 < h)%Z →
  let size := mkVec2 (IZR w) (IZR h) in
  (∀ id, (0 <= id < w * h)%Z →
     let '(x, y) := texel size id in
     (0 <= x < w)%Z ∧ (0 <= y < h)%Z ∧ (y * w + x)%Z = id
     ∧ particleUV size id
       = mkVec2 ((IZR x + 0.5) / IZR w) ((IZR y + 0.5) / IZR h))
  ∧ (∀ x y, (0 <= x < w)%Z → (0 <= y < h)%Z →
       (0 <= y * w + x < w * h)%Z ∧ texel size (y * w + x) = (x, y)).
Proof.
  intros Hw Hh size. split.
  - intros id Hid. unfold particleUV. unfold size.
    rewrite (texel_spec w h id) by lia.
    pose proof (Z.mod_pos_bound id w Hw) as Hmod.
    pose proof (Z.div_mod id w ltac:(lia)) as Hdiv.
    assert (0 <= id / w)%Z as Hq by (apply Z.div_pos; lia).
    assert (id / w < h)%Z as Hq' by (apply Z.div_lt_upper_bound; lia).
    split_and!; try lia. done.
  - intros x y Hx Hy. split; [nia|]. unfold size.
    rewrite texel_spec by nia. f_equal.
    + rewrite Z.add_comm, Z.mod_add by lia. apply Z.mod_small. lia.
    + rewrite Z.add_comm, Z.div_add by lia. rewrite Z.div_small by lia. lia.
Qed.

Lemma instance_texel_bijection_witness :
  let size := mkVec2 (IZR 2) (IZR 3) in
  (∀ id, (0 <= id < 2 * 3)%Z →
     let '(x, y) := texel size id in
     (0 <= x < 2)%Z ∧ (0 <= y < 3)%Z ∧ (y * 2 + x)%Z = id
     ∧ particleUV size id
       = mkVec2 ((IZR x + 0.5) / IZR 2) ((IZR y + 0.5) / IZR 3))
  ∧ (∀ x y, (0 <= x < 2)%Z → (0 <= y < 3)%Z →
       (0 <= y * 2 + x < 2 * 3)%Z ∧ texel size (y * 2 + x) = (x, y)).
Proof. apply (instance_texel_bijection 2 3); lia. Defined.

Lemma floor_texel_centre (x w : Z) :
  (0 < w)%Z → floorR ((IZR x + 0.5) / IZR w * IZR w) = IZR x.
Proof.
  intros Hw. assert (0 < IZR w) as Hw' by (by apply (IZR_lt 0)).
  assert ((IZR x + 0.5) / IZR w * IZR w = IZR x + 0.5) as -> by (field; lra).
  unfold floorR. f_equal. symmetry. apply Int_part_spec. lra.
Qed.

(** X27. A particle is drawn with the distance field it is simulated
    with, for particle textures of at most 4096 by 4096 texels.  (Up to
    that size, hence up to [2^24] particles, the 32-bit floats of the
    shaders hold every index exactly and place every texel centre within
    its texel, so that the real numbers of the model give the integers
    that the shaders compute; a larger linear index is rounded by the
    simulation shader.)  At the coordinate where the vertex shader reads
    the instance [id], the simulation pass of a texture of the same size
    computes the texel [(id mod w, id / w)] and the linear index [id], so
    that its field index is [id mod 4], the [instanceID % 4] of the
    vertex shader. *)
Theorem drawn_with_simulated_letter (u : Uniforms) (t : Samplers) (w h id : Z) :
  (0 < w <= 4096)%Z → (0 < h <= 4096)%Z → (0 <= id < w * h)%Z →
  uTexSize u = mkVec2 (IZR w) (IZR h) →
  let vUV := particleUV (mkVec2 (IZR w) (IZR h)) id in
  (id < 2 ^ 24)%Z
  ∧ vfloor (vmul vUV (uTexSize u)) = mkVec2 (IZR (id mod w)) (IZR (id / w))
  ∧ sdfIndex (prologue u t vUV) = letter id
  ∧ letter id = (id mod 4)%Z.
Proof.
  intros [Hw Hw'] [Hh Hh'] Hid Hsize vUV.
  assert (id < 2 ^ 24)%Z as Hsmall.
  { change (2 ^ 24)%Z with (4096 * 4096)%Z. nia. }
  assert (vfloor (vmul vUV (uTexSize u))
          = mkVec2 (IZR (id mod w)) (IZR (id / w))) as Hfloor.
  { unfold vUV, particleUV. rewrite texel_spec by lia. rewrite Hsize.
    unfold vfloor, vmul, vquot, vadd. simpl.
    by rewrite !floor_texel_centre by lia. }
  assert (letter id = (id mod 4)%Z) as Hletter.
  { unfold letter. apply Z.rem_mod_nonneg; lia. }
  split_and!; [done|done| |done].
  rewrite Hletter. unfold prologue. cbv zeta. cbn [sdfIndex].
  rewrite Hfloor, Hsize. cbn [v2x v2y].
  rewrite <-mult_IZR, <-plus_IZR.
  assert (id / w * w + id mod w = id)%Z as ->.
  { pose proof (Z.div_mod id w ltac:(lia)). lia. }
  rewrite toInt_IZR by lia. apply quot_rem_4. lia.
Qed.

Lemma drawn_with_simulated_letter_witness :
  let vUV := particleUV (mkVec2 (IZR 256) (IZR 256)) 5 in
  (5 < 2 ^ 24)%Z
  ∧ vfloor (vmul vUV (uTexSize exampleUniforms))
  = mkVec2 (IZR (5 mod 256)) (IZR (5 / 256))
  ∧ sdfIndex (prologue exampleUniforms exampleSamplers vUV) = letter 5
  ∧ letter 5 = (5 mod 4)%Z.
Proof.
  apply (drawn_with_simulated_letter exampleUniforms exampleSamplers 256 256 5);
    [lia|lia|lia|reflexivity].
Defined.

End instances.

(** ** The particles renderer *)

Section renderer.
Import ParticlesRenderer.

Lemma coherent_new width height g0 :
  (∀ i, i ∈ destroyedTargets g0 → (i < nextTarget g0)%nat) →
  coherent g0 (new width height g0).
Proof.
  intros Hwf. unfold coherent, new, RenderTexture_create, getSize. simpl.
  split_and!.
  - intros Hin. apply Hwf in Hin. lia.
  - lia.
  - lia.
  - done.
  - done.
  - done.
  - intros i Hi Hne. lia.
  - intros i Hin. by left.
  - exists []. by rewrite app_nil_r.
Qed.

Lemma coherent_call g0 c st :
  (∀ i, i ∈ destroyedTargets g0 → (i < nextTarget g0)%nat) →
  coherent g0 st → coherent g0 (call c st).
Proof.
  intros Hwf. destruct st as [this g].
  intros (Halive & Hid & Hsize & Hres & Hcount & Hothers & Hforeign
          & passes & Hpasses & Hall).
  destruct c as [w h|m a t]; simpl.
  - unfold updateOutputSize.
    destruct (Qeq_bool (width this) w && Qeq_bool (height this) h).
    { unfold coherent. do 7 (split; [done|]). by exists passes. }
    unfold coherent, RenderTexture_create, texture_destroy, getSize. simpl.
    split_and!.
    + intros Hin. apply elem_of_union in Hin as [Hin|Hin].
      * apply elem_of_singleton in Hin. lia.
      * apply Hforeign in Hin as [Hin|Hin]; [apply Hwf in Hin|]; lia.
    + lia.
    + lia.
    + done.
    + done.
    + done.
    + intros i Hi Hne.
      destruct (decide (i = target_id (targetTexture this))) as [->|Hne'].
      * set_solver.
      * apply elem_of_union_r, Hothers; [lia|done].
    + intros i Hin. apply elem_of_union in Hin as [Hin|Hin].
      * apply elem_of_singleton in Hin. right. lia.
      * apply Hforeign in Hin as [Hin|Hin]; [by left|right; lia].
    + by exists passes.
  - unfold coherent, draw, getSize. simpl. split_and!.
    + done.
    + lia.
    + lia.
    + done.
    + done.
    + by destruct (negb _).
    + done.
    + done.
    + eexists. split; [by rewrite Hpasses, <-app_assoc|].
      apply Forall_app. split; [done|]. constructor; [|constructor]. simpl.
      split; [by apply bool_decide_eq_true_2|].
      destruct (Z.eqb_spec (currentInstanceCount this)
                  (tex_width m * tex_height m)) as [Heq|Hneq]; simpl; [|done].
      by rewrite Hcount.
Qed.

(** X28. The particles renderer stays coherent under any sequence of
    [updateOutputSize] and [draw]: its target texture is alive and has the
    size that [getSize] and the uniform [uResolution] tell; every target
    it has replaced is destroyed, so that it owns exactly one live
    texture, and it destroys no texture made before it; the instance
    count of the geometry equals the cached one, and every pass went to a
    live target with one instance per texel of the movement texture. *)
Theorem renderer_coherent (width height : Q) (g0 : Pixi) (l : list Call) :
  (∀ i, i ∈ destroyedTargets g0 → (i < nextTarget g0)%nat) →
  coherent g0 (calls l (new width height g0)).
Proof.
  intros Hwf. unfold calls.
  assert (coherent g0 (new width height g0)) as Hnew by (by apply coherent_new).
  revert Hnew. generalize (new width height g0).
  induction l as [|c l IH]; intros st Hst; [done|].
  simpl. apply IH. by apply coherent_call.
Qed.

Lemma renderer_coherent_witness :
  coherent (mkPixi 0 ∅ [])
    (calls [CallDraw (mkTex 0 2 2) (mkTex 1 2 2) 0%Q;
            CallUpdateOutputSize 8%Q 6%Q;
            CallDraw (mkTex 2 2 2) (mkTex 1 2 2) 16%Q]
       (new 4%Q 3%Q (mkPixi 0 ∅ []))).
Proof.
  apply (renderer_coherent 4%Q 3%Q (mkPixi 0 ∅ [])).
  intros i Hi. simpl in Hi. by apply elem_of_empty in Hi.
Defined.

End renderer.
